(** * The cluster painter of spotify-crawler

    A shallow embedding of [src/cluster_painter.py]: the index-file parser,
    the size scaler, the adjacency / spiral placer, the tightener and the
    final composition, followed by the properties of the layout they
    produce.

    Python integers are [Z].  Python floats are modelled as rationals [Q]
    on which every double-precision operation is the exact operation
    followed by a rounding function; the rounding function and the
    transcendental primitives are the fields of the class [Double], so that
    a property proved for every instance holds for the IEEE-754 arithmetic
    the interpreter really uses. *)

From Stdlib Require Import ZArith QArith Qround Lia Lqa Ascii String Sorted.
From stdpp Require Import base list gmap strings.

Open Scope Z_scope.

(** ** Double-precision arithmetic *)

Class Double := {
  rnd   : Q -> Q;          (* rounding of an exact result to a double *)
  fsum  : list Q -> Q;     (* the built-in [sum] over a list of floats *)
  fsqrt : Q -> Q;          (* [math.sqrt] *)
  fcos  : Q -> Q;          (* [np.cos] *)
  fsin  : Q -> Q           (* [np.sin] *)
}.

(** What the proofs need of the rounding: it is monotone and leaves alone
    the integers of at most 53 bits and their halves.  Rounding to nearest
    of IEEE-754 binary64 has these properties. *)
Record rnd_sound `{Double} : Prop := {
  rnd_mono  : forall a b : Q, (a <= b)%Q -> (rnd a <= rnd b)%Q;
  rnd_exact : forall z : Z, Z.abs z <= 2 ^ 53 -> (rnd (inject_Z z) == inject_Z z)%Q;
  rnd_half  : forall z : Z, Z.abs z <= 2 ^ 53 ->
                (rnd (inject_Z z / inject_Z 2) == inject_Z z / inject_Z 2)%Q
}.

Section FloatOps.
Context `{Double}.

(** [float(z)] *)
Definition of_int (z : Z) : Q := rnd (inject_Z z).
Definition fadd (a b : Q) : Q := rnd (a + b).
Definition fsub (a b : Q) : Q := rnd (a - b).
Definition fmul (a b : Q) : Q := rnd (a * b).
Definition fdiv (a b : Q) : Q := rnd (a / b).
(** [a / b] on two integers: the correctly rounded quotient *)
Definition truediv (a b : Z) : Q := rnd (inject_Z a / inject_Z b).
(** [int(q)]: truncation toward zero *)
Definition trunc (q : Q) : Z := if Qle_bool 0 q then Qfloor q else Qceiling q.
(** [int(np.sign(q))] *)
Definition sign (q : Q) : Z :=
  match (q ?= 0)%Q with Lt => -1 | Eq => 0 | Gt => 1 end.
End FloatOps.

(** ** SizeScaler *)

Section Scale.
Context `{Double}.

Definition scale_dimension (count min_count max_count min_size max_size : Z) : Z :=
  if max_count =? min_count then (min_size + max_size) / 2
  else
    let normalized := truediv (count - min_count) (max_count - min_count) in
    trunc (fadd (of_int min_size) (fmul normalized (of_int (max_size - min_size)))).
End Scale.

(** ** Text: characters, whitespace, lines *)

Definition nl : ascii := ascii_of_nat 10.

Definition code (c : ascii) : nat := nat_of_ascii c.

(** [str.isspace] / the class [\s] on the code points below 256 *)
Definition is_space (c : ascii) : bool :=
  let n := code c in
  ((9 <=? n) && (n <=? 13) || (28 <=? n) && (n <=? 32) || (n =? 133) || (n =? 160))%nat.

(** the class [\d] on the code points below 256 *)
Definition is_digit (c : ascii) : bool :=
  let n := code c in ((48 <=? n) && (n <=? 57))%nat.

(** [.] without [re.DOTALL] *)
Definition not_newline (c : ascii) : bool := negb (code c =? 10)%nat.

(** [.] under [re.DOTALL] *)
Definition any_char (_ : ascii) : bool := true.

(** [str.isalnum] on the code points below 256 *)
Definition is_alnum (c : ascii) : bool :=
  let n := code c in
  ((48 <=? n) && (n <=? 57) || (65 <=? n) && (n <=? 90) || (97 <=? n) && (n <=? 122)
   || (n =? 170) || (n =? 178) || (n =? 179) || (n =? 181) || (n =? 185) || (n =? 186)
   || (188 <=? n) && (n <=? 190) || (192 <=? n) && (n <=? 214)
   || (216 <=? n) && (n <=? 246) || (248 <=? n) && (n <=? 255))%nat.

Definition chars (s : string) : list ascii := list_ascii_of_string s.
Definition text (l : list ascii) : string := string_of_list_ascii l.

(** [s.strip()] *)
Fixpoint lstrip (s : list ascii) : list ascii :=
  match s with
  | c :: s' => if is_space c then lstrip s' else s
  | [] => []
  end.

Definition strip (s : list ascii) : list ascii := rev (lstrip (rev (lstrip s))).

(** [s.split("\n")]: never empty, the last piece is what follows the last
    newline *)
Fixpoint split_lines (s : list ascii) : list (list ascii) :=
  match s with
  | [] => [[]]
  | c :: s' =>
      if (code c =? 10)%nat then [] :: split_lines s'
      else match split_lines s' with
           | l :: ls => (c :: l) :: ls
           | [] => [[c]]
           end
  end.

(** [int(s)] on a run of decimal digits *)
Definition int_of_digits (s : list ascii) : Z :=
  fold_left (fun acc c => 10 * acc + (Z.of_nat (code c) - 48)) s 0.

(** ** Regular expressions, with the backtracking order of [re] *)

Inductive regex : Type :=
| Chr (c : ascii)                                 (* a literal character *)
| Cat (r1 r2 : regex)                             (* r1 r2 *)
| Alt (r1 r2 : regex)                             (* r1|r2, left first *)
| Rep (greedy : bool) (lo : nat) (p : ascii -> bool)
      (* [lo] or more characters of the class [p]: greedy ( * + ) or lazy ( *? +? ) *)
| Group (n : nat) (r : regex)                     (* capture group number n *)
| Dollar.                                         (* $ without re.MULTILINE *)

(** a literal string *)
Fixpoint lit_chars (s : list ascii) (r : regex) : regex :=
  match s with
  | [] => r
  | c :: s' => Cat (Chr c) (lit_chars s' r)
  end.

Definition captures := gmap nat (list ascii).

Section Matcher.
Context {R : Type}.

(** repetition of a one-character class; the continuation [k] is the
    rest of the pattern *)
Fixpoint rep (greedy : bool) (lo : nat) (p : ascii -> bool)
    (s : list ascii) (k : list ascii -> option R) : option R :=
  match lo, s with
  | S lo', c :: s' => if p c then rep greedy lo' p s' k else None
  | S _, [] => None
  | O, [] => k []
  | O, c :: s' =>
      if greedy then
        if p c then
          match rep greedy O p s' k with
          | Some res => Some res
          | None => k s
          end
        else k s
      else
        match k s with
        | Some res => Some res
        | None => if p c then rep greedy O p s' k else None
        end
  end.

Fixpoint rmatch (r : regex) (s : list ascii) (caps : captures)
    (k : list ascii -> captures -> option R) : option R :=
  match r with
  | Chr c =>
      match s with
      | c' :: s' => if Ascii.eqb c c' then k s' caps else None
      | [] => None
      end
  | Cat r1 r2 => rmatch r1 s caps (fun s' caps' => rmatch r2 s' caps' k)
  | Alt r1 r2 =>
      match rmatch r1 s caps k with
      | Some res => Some res
      | None => rmatch r2 s caps k
      end
  | Rep greedy lo p => rep greedy lo p s (fun s' => k s' caps)
  | Group n r' =>
      rmatch r' s caps
        (fun s' caps' => k s' (<[n := take (length s - length s') s]> caps'))
  | Dollar =>
      match s with
      | [] => k s caps
      | [c] => if (code c =? 10)%nat then k s caps else None
      | _ => None
      end
  end.
End Matcher.

(** [re.match(r, s)]: anchored at the start, the groups of the first match *)
Definition re_match (r : regex) (s : list ascii) : option captures :=
  rmatch r s ∅ (fun _ caps => Some caps).

(** [re.search(r, s)]: the first start position that matches *)
Fixpoint re_search (r : regex) (s : list ascii) : option captures :=
  match re_match r s with
  | Some caps => Some caps
  | None => match s with
            | [] => None
            | _ :: s' => re_search r s'
            end
  end.

(** [m.group(n)] of a group that took part in the match *)
Definition group (caps : captures) (n : nat) : list ascii := default [] (caps !! n).

(** ** parse_index_file *)

(** a [dict] keeps its keys in insertion order; assigning to a key that is
    present keeps its place *)
Definition dict := list (string * Z).

Fixpoint dict_set (d : dict) (k : string) (v : Z) : dict :=
  match d with
  | [] => [(k, v)]
  | (k', v') :: d' => if String.eqb k k' then (k', v) :: d' else (k', v') :: dict_set d' k v
  end.

Definition lits (s : string) : regex -> regex := lit_chars (chars s).

(** [r"Album Index:\n(.*?)\n(?:Artist Index:|Total songs:)"] with [re.DOTALL] *)
Definition album_re : regex :=
  lits "Album Index:"
    (Cat (Chr nl)
      (Cat (Group 1 (Rep false 0 any_char))
        (Cat (Chr nl)
          (Alt (lits "Artist Index" (Chr ":")) (lits "Total songs" (Chr ":")))))).

(** [r"Artist Index:\n(.*?)\n(?:Total songs:|$)"] with [re.DOTALL] *)
Definition artist_re : regex :=
  lits "Artist Index:"
    (Cat (Chr nl)
      (Cat (Group 1 (Rep false 0 any_char))
        (Cat (Chr nl)
          (Alt (lits "Total songs" (Chr ":")) Dollar)))).

(** [r"\s*(.+?):\s*(\d+)\s*songs"] *)
Definition line_re : regex :=
  Cat (Rep true 0 is_space)
    (Cat (Group 1 (Rep false 1 not_newline))
      (Cat (Chr ":")
        (Cat (Rep true 0 is_space)
          (Cat (Group 2 (Rep true 1 is_digit))
            (Cat (Rep true 0 is_space) (lits "song" (Chr "s"))))))).

(** the loop over the lines of a section *)
Definition parse_lines (lines : list (list ascii)) (d : dict) : dict :=
  fold_left
    (fun d line =>
       match re_match line_re line with
       | Some m => dict_set d (text (group m 1)) (int_of_digits (group m 2))
       | None => d
       end)
    lines d.

Definition parse_section (section_re : regex) (content : list ascii) : dict :=
  match re_search section_re content with
  | Some m => parse_lines (split_lines (strip (group m 1))) []
  | None => []
  end.

(** The decoded content of the index file is the input; [None] is the
    file that does not exist ([FileNotFoundError]). *)
Definition parse_index_file (index_file : option string) : dict * dict :=
  match index_file with
  | Some content =>
      (parse_section album_re (chars content), parse_section artist_re (chars content))
  | None => ([], [])
  end.

Definition line (s : string) : string := s +:+ String nl "".


(** ** get_cover_path *)

(** The file system and the image decoder are the environment of a build:
    [path_exists] is [os.path.exists]; [open_image path size] tells whether
    opening the file, converting it and resizing it to [size] x [size]
    goes through without an exception. *)
Class Env := {
  path_exists : string -> bool;
  open_image  : string -> Z -> bool
}.

Definition sanitize (album_name : string) : string :=
  text (map (fun c => if is_alnum c then c else "_"%char) (chars album_name)).

(** [os.path.join(covers_dir, file)] for a relative file name *)
Definition path_join (covers_dir file : string) : string :=
  match rev (chars covers_dir) with
  | [] => file
  | c :: _ => if Ascii.eqb c "/" then covers_dir +:+ file else covers_dir +:+ "/" +:+ file
  end.

Definition get_cover_path `{Env} (album_name covers_dir : string) : option string :=
  let sanitized_name := sanitize album_name in
  let cover_path := path_join covers_dir (sanitized_name +:+ ".jpg") in
  if path_exists cover_path then Some cover_path else None.

(** ** The data of a build *)

(** an entry of [scaled_covers] *)
Record Cover := {
  c_name : string;
  c_path : string;
  c_size : Z;
  c_count : Z
}.

(** a decoded image after [resize]: the file it was read from and [img.size] *)
Record Image := {
  i_path : string;
  i_width : Z;
  i_height : Z
}.

(** an entry of [placements] *)
Record Placement := {
  p_img : Image;
  p_x : Z;
  p_y : Z;
  p_w : Z;
  p_h : Z
}.

(** [placements[i]['x'] = v] and [placements[i]['y'] = v] *)
Definition set_x (v : Z) (p : Placement) : Placement :=
  {| p_img := p_img p; p_x := v; p_y := p_y p; p_w := p_w p; p_h := p_h p |}.
Definition set_y (v : Z) (p : Placement) : Placement :=
  {| p_img := p_img p; p_x := p_x p; p_y := v; p_w := p_w p; p_h := p_h p |}.

(** a rect is the tuple (x, y, w, h) *)
Definition Rect : Type := Z * Z * Z * Z.

Definition rect_of (p : Placement) : Rect := (p_x p, p_y p, p_w p, p_h p).

(** what a build prints *)
Inductive Message : Type :=
| NoAlbumsFound
| CoverNotFound (album_name : string)     (* "Warning: Cover not found for ..." *)
| NoAlbumCoversFound
| ErrorLoading (album_name : string)      (* "Error loading ...: ..." *)
| NoImagesLoaded
| ClusterSaved (output_file : string)
| TotalAlbums (n : nat)
| CanvasSize (canvas_width canvas_height : Z).

(** the file a build saves: the canvas and what was pasted on it *)
Record Canvas := {
  canvas_file : string;
  canvas_width : Z;
  canvas_height : Z;
  pasted : list (Image * Z * Z)
}.

(** ** Generic helpers *)

(** [min(...)] and [max(...)] of a sequence; the sequences they are applied
    to in [build_cluster] are never empty *)
Definition min_of (l : list Z) : Z :=
  match l with
  | [] => 0
  | a :: l' => fold_left Z.min l' a
  end.

Definition max_of (l : list Z) : Z :=
  match l with
  | [] => 0
  | a :: l' => fold_left Z.max l' a
  end.

(** [list.sort]: a stable sort; [leb a b] says that [a] may stay before [b] *)
Section Sort.
Context {A : Type} (leb : A -> A -> bool).

Fixpoint insert_sorted (a : A) (l : list A) : list A :=
  match l with
  | [] => [a]
  | b :: l' => if leb a b then a :: b :: l' else b :: insert_sorted a l'
  end.

Fixpoint sort (l : list A) : list A :=
  match l with
  | [] => []
  | a :: l' => insert_sorted a (sort l')
  end.
End Sort.

(** [range(lo, hi, step)] for a positive step *)
Definition range_step (lo hi step : Z) : list Z :=
  map (fun k => lo + step * Z.of_nat k) (seq 0 (Z.to_nat ((hi - lo + step - 1) / step))).

(** ** Geometry of the placer *)

Definition rects_overlap (a b : Rect) : bool :=
  let '(ax, ay, aw, ah) := a in
  let '(bx, b_y, bw, bh) := b in
  negb ((ax + aw <=? bx) || (bx + bw <=? ax) || (ay + ah <=? b_y) || (b_y + bh <=? ay)).

Definition candidates_around (px py pw ph iw ih : Z) : list (Z * Z) :=
  [ (px + pw, py);                      (* right *)
    (px + pw, py + ph - ih);            (* right aligned bottom *)
    (px + pw, py + (ph - ih) / 2);      (* right centered *)
    (px - iw, py);                      (* left *)
    (px - iw, py + ph - ih);
    (px - iw, py + (ph - ih) / 2);
    (px, py + ph);                      (* bottom *)
    (px + (pw - iw) / 2, py + ph);
    (px, py - ih);                      (* top *)
    (px + (pw - iw) / 2, py - ih) ].

(** (min_x, min_y, max_x, max_y) over the placed rects *)
Definition bbox (placements : list Placement) : Z * Z * Z * Z :=
  (min_of (map p_x placements),
   min_of (map p_y placements),
   max_of (map (fun p => p_x p + p_w p) placements),
   max_of (map (fun p => p_y p + p_h p) placements)).

(** the positions around the bounding box, [for t in range(-2, 3)] *)
Definition bbox_candidates (min_x min_y max_x max_y iw ih : Z) : list (Z * Z) :=
  flat_map
    (fun t => [ (min_x - iw + t * 1, min_y + t);
                (max_x + t, min_y + t);
                (min_x + t, max_y + t);
                (max_x + t, max_y - ih + t) ])
    (range_step (-2) 3 1).

(** the de-duplication loop; [seen] is the set of keys met so far *)
Fixpoint dedupe (cand_set : list (Z * Z)) (seen : gset (Z * Z)) : list (Z * Z) :=
  match cand_set with
  | [] => []
  | key :: rest =>
      if bool_decide (key ∈ seen) then dedupe rest seen
      else key :: dedupe rest ({[key]} ∪ seen)
  end.

(** the edge test of the scoring loop *)
Definition touches (cx cy iw ih : Z) (p : Placement) : bool :=
  ((cx + iw =? p_x p) || (cx =? p_x p + p_w p) || (cy + ih =? p_y p) || (cy =? p_y p + p_h p))
  && (negb ((cx + iw <=? p_x p) || (p_x p + p_w p <=? cx))
      || negb ((cy + ih <=? p_y p) || (p_y p + p_h p <=? cy))).

(** the inner loop of the scoring, with its [break]: (overlap, touching) *)
Fixpoint scan_placed (cx cy iw ih : Z) (placements : list Placement) (touching : bool)
    : bool * bool :=
  match placements with
  | [] => (false, touching)
  | p :: rest =>
      if rects_overlap (cx, cy, iw, ih) (rect_of p) then (true, touching)
      else scan_placed cx cy iw ih rest (touching || touches cx cy iw ih p)
  end.

(** an entry of [scored]: (not touching, dist, cx, cy, touching) *)
Definition Scored : Type := bool * Q * Z * Z * bool.

Definition bool_compare (a b : bool) : comparison :=
  match a, b with
  | false, true => Lt
  | true, false => Gt
  | _, _ => Eq
  end.

Definition lex (c1 c2 : comparison) : comparison :=
  match c1 with Eq => c2 | _ => c1 end.

(** the order of Python tuples *)
Definition scored_compare (a b : Scored) : comparison :=
  let '(n1, d1, x1, y1, t1) := a in
  let '(n2, d2, x2, y2, t2) := b in
  lex (bool_compare n1 n2)
    (lex (d1 ?= d2)%Q (lex (x1 ?= x2) (lex (y1 ?= y2) (bool_compare t1 t2)))).

Definition scored_le (a b : Scored) : bool :=
  match scored_compare a b with Gt => false | _ => true end.

(** an entry of [dists]: (d, i) *)
Definition dist_compare (a b : Q * nat) : comparison :=
  lex (a.1 ?= b.1)%Q (Nat.compare a.2 b.2).

(** [dists.sort(reverse=True)] *)
Definition dist_ge (a b : Q * nat) : bool :=
  match dist_compare a b with Lt => false | _ => true end.

Definition any_overlap (rect : Rect) (placements : list Placement) : bool :=
  existsb (fun p => rects_overlap rect (rect_of p)) placements.

Section Placer.
Context `{Double}.

Definition center_distance (x y w h : Z) : Q :=
  let cx := fadd (of_int x) (fdiv (of_int w) 2) in
  let cy := fadd (of_int y) (fdiv (of_int h) 2) in
  fsqrt (fadd (fmul cx cx) (fmul cy cy)).

(** the scoring loop *)
Fixpoint score (placements : list Placement) (iw ih : Z) (candidates : list (Z * Z))
    : list Scored :=
  match candidates with
  | [] => []
  | (cx, cy) :: rest =>
      let '(overlap, touching) := scan_placed cx cy iw ih placements false in
      if overlap then score placements iw ih rest
      else (negb touching, center_distance cx cy iw ih, cx, cy, touching)
             :: score placements iw ih rest
  end.

(** the position tried at radius [r] and angle [angle_deg] *)
Definition spiral_point (center_x center_y : Q) (r angle_deg : Z) : Z * Z :=
  let ang := fmul (of_int angle_deg) (fdiv (rnd (314159265 # 100000000)) (rnd 180)) in
  (trunc (fadd center_x (fmul (of_int r) (fcos ang))),
   trunc (fadd center_y (fmul (of_int r) (fsin ang)))).

(** [for angle_deg in range(0, 360, 10)]: the first angle whose rect is free *)
Fixpoint scan_angles (placements : list Placement) (center_x center_y : Q)
    (r iw ih : Z) (angles : list Z) : option (Z * Z) :=
  match angles with
  | [] => None
  | angle_deg :: rest =>
      let '(cx, cy) := spiral_point center_x center_y r angle_deg in
      if any_overlap (cx, cy, iw, ih) placements
      then scan_angles placements center_x center_y r iw ih rest
      else Some (cx, cy)
  end.

(** [while r < max_radius and not placed]; each turn uses one unit of fuel *)
Fixpoint spiral_loop (fuel : nat) (placements : list Placement) (center_x center_y : Q)
    (max_radius step iw ih r : Z) : option (Z * Z) :=
  match fuel with
  | O => None
  | S fuel' =>
      if r <? max_radius then
        match scan_angles placements center_x center_y r iw ih (range_step 0 360 10) with
        | Some c => Some c
        | None =>
            spiral_loop fuel' placements center_x center_y max_radius step iw ih (r + step)
        end
      else None
  end.

Definition spiral_max_radius (min_x min_y max_x max_y iw ih : Z) : Z :=
  Z.max (max_x - min_x) (max_y - min_y) + Z.max iw ih * 10.

Definition spiral_step (iw ih : Z) : Z :=
  Z.max 10 (trunc (truediv (Z.min iw ih) 2)).

(** the spiral search of one image; the radius grows by at least 10 a
    turn, so [max_radius] turns are more than the loop can take *)
Definition spiral_search (placements : list Placement) (iw ih : Z) : option (Z * Z) :=
  let '(min_x, min_y, max_x, max_y) := bbox placements in
  let center_x := truediv (min_x + max_x) 2 in
  let center_y := truediv (min_y + max_y) 2 in
  let max_radius := spiral_max_radius min_x min_y max_x max_y iw ih in
  let step := spiral_step iw ih in
  spiral_loop (Z.to_nat max_radius) placements center_x center_y max_radius step iw ih step.

Definition new_placement (img : Image) (x y : Z) : Placement :=
  {| p_img := img; p_x := x; p_y := y; p_w := i_width img; p_h := i_height img |}.

(** the candidates of one image, de-duplicated *)
Definition candidates_of (placements : list Placement) (iw ih : Z) : list (Z * Z) :=
  let cand_set :=
    flat_map (fun p => candidates_around (p_x p) (p_y p) (p_w p) (p_h p) iw ih) placements in
  let '(min_x, min_y, max_x, max_y) := bbox placements in
  dedupe (cand_set ++ bbox_candidates min_x min_y max_x max_y iw ih) ∅.

(** one turn of [for idx in range(1, len(images))]: the rect appended for [img] *)
Definition place_image (placements : list Placement) (img : Image) : Placement :=
  let iw := i_width img in
  let ih := i_height img in
  let scored := score placements iw ih (candidates_of placements iw ih) in
  match sort scored_le scored with
  | (_, _, chosen_x, chosen_y, _) :: _ => new_placement img chosen_x chosen_y
  | [] =>
      match spiral_search placements iw ih with
      | Some (cx, cy) => new_placement img cx cy
      | None =>
          let '(min_x, min_y, max_x, max_y) := bbox placements in
          new_placement img (max_x + 1) min_y
      end
  end.

(** the placer: the first image at (0, 0), then the others in order *)
Definition place_all (images : list Image) : list Placement :=
  match images with
  | [] => []
  | first_img :: others =>
      fold_left (fun placements img => placements ++ [place_image placements img])
        others [new_placement first_img 0 0]
  end.
End Placer.

(** ** Tightener *)

(** the loop of [can_place_at] over [enumerate(placements)], from index [j] *)
Fixpoint can_place_from (j : nat) (others : list Placement) (idx : nat) (rect : Rect) : bool :=
  match others with
  | [] => true
  | other :: rest =>
      if bool_decide (j = idx) then can_place_from (S j) rest idx rect
      else if rects_overlap rect (rect_of other) then false
      else can_place_from (S j) rest idx rect
  end.

(** [can_place_at(idx, x, y)]; [idx] is always an index of [placements] *)
Definition can_place_at (placements : list Placement) (idx : nat) (x y : Z) : bool :=
  match placements !! idx with
  | Some p => can_place_from 0 placements idx (x, y, p_w p, p_h p)
  | None => false
  end.

Section Tightener.
Context `{Double}.

(** [for step_num in range(3)] on the rect of index [i], whose current
    position is the local pair (px, py); yields the list and [moved_any] *)
Fixpoint nudge (steps : nat) (center_x center_y : Q) (i : nat) (px py pw ph : Z)
    (placements : list Placement) (moved_any : bool) : list Placement * bool :=
  match steps with
  | O => (placements, moved_any)
  | S steps' =>
      let cx := fadd (of_int px) (fdiv (of_int pw) 2) in
      let cy := fadd (of_int py) (fdiv (of_int ph) 2) in
      let vx := fsub center_x cx in
      let vy := fsub center_y cy in
      let step_x := sign vx in
      let step_y := sign vy in
      (* try x move *)
      let '(px, placements, moved_x) :=
        if negb (step_x =? 0) && can_place_at placements i (px + step_x) py
        then (px + step_x, alter (set_x (px + step_x)) i placements, true)
        else (px, placements, false) in
      (* try y move *)
      let '(py, placements, moved_y) :=
        if negb (step_y =? 0) && can_place_at placements i px (py + step_y)
        then (py + step_y, alter (set_y (py + step_y)) i placements, true)
        else (py, placements, false) in
      if moved_x || moved_y
      then nudge steps' center_x center_y i px py pw ph placements true
      else (placements, moved_any)
  end.

(** [for _, i in dists] *)
Fixpoint nudge_all (order : list nat) (center_x center_y : Q)
    (placements : list Placement) (moved_any : bool) : list Placement * bool :=
  match order with
  | [] => (placements, moved_any)
  | i :: rest =>
      match placements !! i with
      | Some p =>
          let '(placements, moved_any) :=
            nudge 3 center_x center_y i (p_x p) (p_y p) (p_w p) (p_h p) placements moved_any in
          nudge_all rest center_x center_y placements moved_any
      | None => nudge_all rest center_x center_y placements moved_any
      end
  end.

Definition center_of (placements : list Placement) : Q * Q :=
  let centers_x := map (fun p => fadd (of_int (p_x p)) (fdiv (of_int (p_w p)) 2)) placements in
  let centers_y := map (fun p => fadd (of_int (p_y p)) (fdiv (of_int (p_h p)) 2)) placements in
  (fdiv (fsum centers_x) (of_int (Z.of_nat (length centers_x))),
   fdiv (fsum centers_y) (of_int (Z.of_nat (length centers_y)))).

(** the indices of the rects, farthest from the centre first *)
Definition processing_order (placements : list Placement) (center_x center_y : Q) : list nat :=
  let dists :=
    imap (fun i p =>
            let cx := fadd (of_int (p_x p)) (fdiv (of_int (p_w p)) 2) in
            let cy := fadd (of_int (p_y p)) (fdiv (of_int (p_h p)) 2) in
            let dx := fsub cx center_x in
            let dy := fsub cy center_y in
            (fadd (fmul dx dx) (fmul dy dy), i))
      placements in
  map snd (sort dist_ge dists).

(** one turn of [for pass_num in range(max_passes)]: the list and [moved_any] *)
Definition tighten_pass (placements : list Placement) : list Placement * bool :=
  let '(center_x, center_y) := center_of placements in
  nudge_all (processing_order placements center_x center_y) center_x center_y placements false.

Fixpoint tighten_placements (placements : list Placement) (max_passes : nat)
    : list Placement :=
  match max_passes with
  | O => placements
  | S passes_left =>
      let '(placements, moved_any) := tighten_pass placements in
      if moved_any then tighten_placements placements passes_left else placements
  end.
End Tightener.

(** ** build_cluster *)

Section Build.
Context `{Double} `{Env}.

(** the loop over [albums.items()]: the covers found and the warnings *)
Fixpoint scale_covers (albums : dict) (covers_dir : string) (min_count max_count : Z)
    : list Cover * list Message :=
  match albums with
  | [] => ([], [])
  | (album_name, count) :: rest =>
      let '(scaled_covers, warnings) := scale_covers rest covers_dir min_count max_count in
      match get_cover_path album_name covers_dir with
      | Some cover_path =>
          let size := scale_dimension count min_count max_count 50 300 in
          ({| c_name := album_name; c_path := cover_path; c_size := size; c_count := count |}
             :: scaled_covers, warnings)
      | None => (scaled_covers, CoverNotFound album_name :: warnings)
      end
  end.

(** [scaled_covers.sort(key=lambda x: x['size'], reverse=True)] *)
Definition sort_covers (scaled_covers : list Cover) : list Cover :=
  sort (fun a b => c_size b <=? c_size a) scaled_covers.

(** the loading loop: the images and the errors printed *)
Fixpoint load_images (scaled_covers : list Cover) : list Image * list Message :=
  match scaled_covers with
  | [] => ([], [])
  | cover_info :: rest =>
      let '(images, errors) := load_images rest in
      if open_image (c_path cover_info) (c_size cover_info)
      then ({| i_path := c_path cover_info;
               i_width := c_size cover_info;
               i_height := c_size cover_info |} :: images, errors)
      else (images, ErrorLoading (c_name cover_info) :: errors)
  end.

(** the normalised triples (img, x, y) *)
Definition normalize (placements : list Placement) (min_x min_y : Z) : list (Image * Z * Z) :=
  map (fun p => (p_img p, p_x p - min_x, p_y p - min_y)) placements.

(** what a build prints, and the canvas it saves if it saves one *)
Definition build_cluster (albums : dict) (covers_dir output_file : string)
    : list Message * option Canvas :=
  match albums with
  | [] => ([NoAlbumsFound], None)
  | _ :: _ =>
      let min_count := min_of (map snd albums) in
      let max_count := max_of (map snd albums) in
      let '(scaled_covers, warnings) := scale_covers albums covers_dir min_count max_count in
      match scaled_covers with
      | [] => (warnings ++ [NoAlbumCoversFound], None)
      | _ :: _ =>
          let '(images, errors) := load_images (sort_covers scaled_covers) in
          match images with
          | [] => (warnings ++ errors ++ [NoImagesLoaded], None)
          | _ :: _ =>
              let placements := tighten_placements (place_all images) 100 in
              let '(min_x, min_y, max_x, max_y) := bbox placements in
              let canvas_width := max_x - min_x in
              let canvas_height := max_y - min_y in
              let triples := normalize placements min_x min_y in
              (warnings ++ errors ++
                 [ClusterSaved output_file; TotalAlbums (length triples);
                  CanvasSize canvas_width canvas_height],
               Some {| canvas_file := output_file;
                       canvas_width := canvas_width;
                       canvas_height := canvas_height;
                       pasted := triples |})
          end
      end
  end.
End Build.

(** ** An instance of the arithmetic without rounding error

    It agrees with double precision wherever every intermediate value is a
    dyadic rational of at most 53 significant bits; the square root is cut
    to 52 fractional bits and the cosine and sine are Taylor polynomials
    (of the argument taken back into [-pi, pi]). *)

Definition exact_sqrt (q : Q) : Q :=
  Z.sqrt (Qfloor (q * inject_Z (2 ^ 104))) # (2 ^ 52).

Fixpoint taylor (n : nat) (term : Q) (x2 : Q) (k : Z) (acc : Q) : Q :=
  match n with
  | O => acc
  | S n' =>
      let term' := Qred (- term * x2 / inject_Z ((k + 1) * (k + 2))) in
      taylor n' term' x2 (k + 2) (Qred (acc + term'))
  end.

Definition two_pi : Q := 6283185307179586477 # 1000000000000000000.

Definition reduce_angle (q : Q) : Q :=
  let n := Qfloor (q / two_pi + (1 # 2)) in Qred (q - inject_Z n * two_pi).

Definition exact_cos (q : Q) : Q := let x := reduce_angle q in taylor 16 1 (x * x) 0 1.
Definition exact_sin (q : Q) : Q := let x := reduce_angle q in taylor 16 x (x * x) 1 x.

#[export] Instance Exact : Double := {|
  rnd := fun q => q;
  fsum := fun l => fold_left Qplus l 0%Q;
  fsqrt := exact_sqrt;
  fcos := exact_cos;
  fsin := exact_sin
|}.

Definition all_covers : Env := {| path_exists := fun _ => true; open_image := fun _ _ => true |}.

(** ** Vocabulary of the properties *)

(** the float whose truncation [scale_dimension] returns when the weights
    differ *)
Definition scaled `{Double} (count min_count max_count min_size max_size : Z) : Q :=
  fadd (of_int min_size)
    (fmul (truediv (count - min_count) (max_count - min_count)) (of_int (max_size - min_size))).

(** the pixels of a rect: half-open on both axes *)
Definition covers (r : Rect) (x y : Z) : Prop :=
  let '(rx, ry, rw, rh) := r in rx <= x < rx + rw /\ ry <= y < ry + rh.

(** no two rects of a sequence overlap *)
Definition no_overlap_rects (rects : list Rect) : Prop :=
  forall i j a b, i <> j -> rects !! i = Some a -> rects !! j = Some b ->
    rects_overlap a b = false.

Definition no_overlap (placements : list Placement) : Prop :=
  forall i j p q, i <> j -> placements !! i = Some p -> placements !! j = Some q ->
    rects_overlap (rect_of p) (rect_of q) = false.

(** what the tightener must leave alone in a rect *)
Definition frame (p : Placement) : Image * Z * Z := (p_img p, p_w p, p_h p).

(** two rects, images or layouts that differ in nothing the geometry
    depends on *)
Definition same_rect (p q : Placement) : Prop := rect_of p = rect_of q.
Definition same_rects : list Placement -> list Placement -> Prop := Forall2 same_rect.
Definition same_size (i j : Image) : Prop :=
  i_width i = i_width j /\ i_height i = i_height j.

(** the rect a pasted image covers on the canvas *)
Definition pasted_rect (t : Image * Z * Z) : Rect :=
  (t.1.2, t.2, i_width t.1.1, i_height t.1.1).

(** the geometry of a canvas: its size and the rects pasted on it *)
Definition geometry (c : Canvas) : Z * Z * list Rect :=
  (canvas_width c, canvas_height c, map pasted_rect (pasted c)).

(** sorting by a key, largest first: the test handed to [sort] and the
    order it yields *)
Definition key_ge {A : Type} (key : A -> Z) (a b : A) : bool := key b <=? key a.
Definition dominates {A : Type} (key : A -> Z) (a b : A) : Prop := key b <= key a.

(** the canvas of a build that has images *)
Definition canvas_of (placements : list Placement) (output_file : string) : Canvas :=
  let '(min_x, min_y, max_x, max_y) := bbox placements in
  {| canvas_file := output_file;
     canvas_width := max_x - min_x;
     canvas_height := max_y - min_y;
     pasted := normalize placements min_x min_y |}.



(** the bound of the radius as the specification words it:
    r < diagonal of the bounding box + 10 * max(iw, ih) *)
Definition within_claimed_bound (min_x min_y max_x max_y iw ih r : Z) : bool :=
  let a := r - 10 * Z.max iw ih in
  (a <? 0) || (a * a <? (max_x - min_x) * (max_x - min_x) + (max_y - min_y) * (max_y - min_y)).


(** The reading of the adjacency candidates: the side of the placed rect
    the new rect is flush against, and how it is aligned along that side. *)
Inductive Side : Type := RightOf | LeftOf | Below | Above.
Inductive Alignment : Type := StartAligned | EndAligned | Centered.

(** the position of a new rect of size iw x ih against the rect
    (px, py, pw, ph) *)
Definition adjacent (px py pw ph iw ih : Z) (s : Side) (a : Alignment) : Z * Z :=
  let along (p0 len ilen : Z) : Z :=
    match a with
    | StartAligned => p0
    | EndAligned => p0 + len - ilen
    | Centered => p0 + (len - ilen) / 2
    end in
  match s with
  | RightOf => (px + pw, along py ph ih)
  | LeftOf => (px - iw, along py ph ih)
  | Below => (along px pw iw, py + ph)
  | Above => (along px pw iw, py - ih)
  end.

(** the ten (side, alignment) pairs of [candidates_around], in its order *)
Definition adjacency_variants : list (Side * Alignment) :=
  [ (RightOf, StartAligned); (RightOf, EndAligned); (RightOf, Centered);
    (LeftOf, StartAligned); (LeftOf, EndAligned); (LeftOf, Centered);
    (Below, StartAligned); (Below, Centered);
    (Above, StartAligned); (Above, Centered) ].

(** sample index files: the album block, an artist block, the total line *)
Definition album_block : string :=
  line "Album Index:" +:+ line "  Abbey Road: 17 songs" +:+ line "  Thriller: 9 songs".

Definition artist_block : string :=
  line "Artist Index:" +:+ line "  The Beatles: 17 songs" +:+ line "  Michael Jackson: 9 songs".

Definition total_line : string := line "" +:+ line "Total songs: 26".

(** ** The stages of a build, named *)

Section Stages.
Context `{Double} `{Env}.

(** the cover of one album, if its file exists *)
Definition cover_of (covers_dir : string) (min_count max_count : Z) (entry : string * Z)
    : option Cover :=
  match get_cover_path entry.1 covers_dir with
  | Some cover_path =>
      Some {| c_name := entry.1; c_path := cover_path;
              c_size := scale_dimension entry.2 min_count max_count 50 300;
              c_count := entry.2 |}
  | None => None
  end.

(** the image of one cover, if it loads *)
Definition image_of (cover_info : Cover) : option Image :=
  if open_image (c_path cover_info) (c_size cover_info)
  then Some {| i_path := c_path cover_info;
               i_width := c_size cover_info;
               i_height := c_size cover_info |}
  else None.

(** the image an album resolves to, if it does *)
Definition resolve (albums : dict) (covers_dir : string) (entry : string * Z) : option Image :=
  cover_of covers_dir (min_of (map snd albums)) (max_of (map snd albums)) entry
    ≫= image_of.

(** the images of the albums that resolve, in the order of the input *)
Definition resolved_images (albums : dict) (covers_dir : string) : list Image :=
  omap (resolve albums covers_dir) albums.

(** [images]: what the loading loop leaves *)
Definition loaded_images (albums : dict) (covers_dir : string) : list Image :=
  (load_images
     (sort_covers
        (scale_covers albums covers_dir
           (min_of (map snd albums)) (max_of (map snd albums))).1)).1.

(** [placements] when the tightener has run *)
Definition final_placements (albums : dict) (covers_dir : string) : list Placement :=
  tighten_placements (place_all (loaded_images albums covers_dir)) 100.
End Stages.

(** sample inputs: three albums, two albums, and environments in which
    every cover is there and loads, or none is there *)
Definition scenario_a : dict := [("A"%string, 10); ("B"%string, 1); ("C"%string, 5)].
Definition two_albums : dict := [("A"%string, 10); ("B"%string, 1)].
(** the three albums under other names *)
Definition scenario_a_renamed : dict := [("X"%string, 10); ("Y"%string, 1); ("Z"%string, 5)].
Definition no_covers : Env := {| path_exists := fun _ => false; open_image := fun _ _ => true |}.

(** the layout the placer makes of a 300 x 300 and a 50 x 50 image *)
Definition large_and_small : list Placement :=
  @place_all Exact
    [ {| i_path := "covers/A.jpg"; i_width := 300; i_height := 300 |};
      {| i_path := "covers/B.jpg"; i_width := 50; i_height := 50 |} ].

(** two squares side by side: nothing can move *)
Definition side_by_side : list Placement :=
  [ {| p_img := {| i_path := "a"; i_width := 10; i_height := 10 |};
       p_x := 0; p_y := 0; p_w := 10; p_h := 10 |};
    {| p_img := {| i_path := "b"; i_width := 10; i_height := 10 |};
       p_x := 10; p_y := 0; p_w := 10; p_h := 10 |} ].


(** a 10 x 10 image to place next to them *)
Definition small_image : Image := {| i_path := "c"; i_width := 10; i_height := 10 |}.

(** two squares far apart: more than one run is needed to bring them
    together *)
Definition far_apart : list Placement :=
  [ {| p_img := {| i_path := "a"; i_width := 10; i_height := 10 |};
       p_x := 0; p_y := 0; p_w := 10; p_h := 10 |};
    {| p_img := {| i_path := "b"; i_width := 10; i_height := 10 |};
       p_x := 10000; p_y := 0; p_w := 10; p_h := 10 |} ].

(** the messages that report an excluded album, and the album they name *)
Definition excluded_name (m : Message) : option string :=
  match m with
  | CoverNotFound album_name => Some album_name
  | ErrorLoading album_name => Some album_name
  | _ => None
  end.

(** the messages a build ends on when it saves nothing *)
Definition is_abort (m : Message) : bool :=
  match m with
  | NoAlbumsFound | NoAlbumCoversFound | NoImagesLoaded => true
  | _ => false
  end.

(** ** Vocabulary of the further properties *)

(** a rect that lies on a canvas of the given size *)
Definition inside (width height : Z) (r : Rect) : Prop :=
  let '(x, y, w, h) := r in 0 <= x /\ x + w <= width /\ 0 <= y /\ y + h <= height.

(** the edges of a rect *)
Definition left_edge (r : Rect) : Z := r.1.1.1.
Definition top_edge (r : Rect) : Z := r.1.1.2.
Definition right_edge (r : Rect) : Z := r.1.1.1 + r.1.2.
Definition bottom_edge (r : Rect) : Z := r.1.1.2 + r.2.

(** the image pasted by a triple (img, x, y) *)
Definition pasted_image (t : Image * Z * Z) : Image := t.1.1.

(** the position at which a key occurs for the first time in a list *)
Definition first_occurrence (l : list (Z * Z)) (i : nat) (key : Z * Z) : Prop :=
  l !! i = Some key /\ key ∉ take i l.

(** the names of the albums that resolve to no image, in the order of the
    input *)
Definition unresolved `{Double} `{Env} (albums : dict) (covers_dir : string) : list string :=
  omap (fun entry : string * Z =>
          match resolve albums covers_dir entry with
          | Some _ => None
          | None => Some entry.1
          end) albums.

(** what a build prints before its closing lines: the warnings of the
    loop over the albums, then the errors of the loading loop *)
Definition reports_of `{Double} `{Env} (albums : dict) (covers_dir : string) : list Message :=
  let scaled := scale_covers albums covers_dir
                  (min_of (map snd albums)) (max_of (map snd albums)) in
  scaled.2 ++ (load_images (sort_covers scaled.1)).2.

(** how far a rect has moved on either axis *)
Definition moved_by (d : Z) (p q : Placement) : Prop :=
  Z.abs (p_x q - p_x p) <= d /\ Z.abs (p_y q - p_y p) <= d.

(** a comparison that behaves as the comparison of a total preorder *)
Record order_compare {A : Type} (cmp : A -> A -> comparison) : Prop := {
  cmp_opp : forall a b, cmp b a = CompOpp (cmp a b);
  cmp_eq_l : forall a b c, cmp a b = Eq -> cmp a c = cmp b c;
  cmp_lt_trans : forall a b c, cmp a b = Lt -> cmp b c = Lt -> cmp a c = Lt
}.

(** the comparison of pairs, first components first *)
Definition pair_compare {A B : Type} (cmpA : A -> A -> comparison)
    (cmpB : B -> B -> comparison) (p q : A * B) : comparison :=
  lex (cmpA p.1 q.1) (cmpB p.2 q.2).

(** the entry the scoring loop makes for a free position *)
Definition scored_entry `{Double} (placements : list Placement) (iw ih : Z) (c : Z * Z)
    : Scored :=
  let touching := existsb (touches c.1 c.2 iw ih) placements in
  (negb touching, center_distance c.1 c.2 iw ih, c.1, c.2, touching).

(** a position at which a rect of size iw x ih overlaps no placed rect *)
Definition free_at (placements : list Placement) (iw ih : Z) (c : Z * Z) : bool :=
  negb (any_overlap (c.1, c.2, iw, ih) placements).

(** * The crawler of spotify-crawler

    A shallow embedding of [src/main.py]: the download of a cover, the
    crawl of the playlists and the index the script prints. *)

(** a track of a playlist: its title, and the name and the id of its album *)
Record Track := {
  track_name : string;
  track_album_name : string;
  track_album_id : string
}.

(** The Spotify service and the network are the environment of a crawl:
    [playlist_pages playlist_id] is the pages [sp.playlist_tracks] and then
    [sp.next] return for a playlist, an item whose track is [None] being
    [None]; [fetch_cover album_id file_path] is the content
    [download_album_cover] writes to [file_path], or [None] when one of its
    steps raises an exception. *)
Class Spotify := {
  playlist_pages : string -> list (list (option Track));
  fetch_cover : string -> string -> option string
}.

(** an entry of [songs_data] *)
Record Song := {
  song_title : string;
  song_album : string;
  song_cover : option string
}.

(** [d[k]] on a [defaultdict(int)] *)
Fixpoint dict_get (d : dict) (k : string) : Z :=
  match d with
  | [] => 0
  | (k', v) :: d' => if String.eqb k k' then v else dict_get d' k
  end.

(** the state of a crawl *)
Record Crawl := {
  files : gmap string string;     (* the files written so far: path and content *)
  songs_data : list Song;
  album_index : dict
}.

Section Crawler.
Context `{Spotify}.

(** the path returned, if the download went through, and the files after it *)
Definition download_album_cover (album_id album_name cover_dir : string) (fs : gmap string string)
    : option string * gmap string string :=
  let sanitized_name := sanitize album_name in
  let file_path := path_join cover_dir (sanitized_name +:+ ".jpg") in
  match fetch_cover album_id file_path with
  | Some content => (Some file_path, <[file_path := content]> fs)
  | None => (None, fs)
  end.

(** the body of [for item in results['items']] *)
Definition crawl_item (cover_dir : string) (st : Crawl) (item : option Track) : Crawl :=
  match item with
  | Some track =>
      let album_name := track_album_name track in
      let album_id := track_album_id track in
      (* album_index[album_name] += 1 *)
      let album_index := dict_set (album_index st) album_name
                           (dict_get (album_index st) album_name + 1) in
      let '(cover_path, fs) := download_album_cover album_id album_name cover_dir (files st) in
      {| files := fs;
         songs_data := songs_data st ++ [ {| song_title := track_name track;
                                             song_album := album_name;
                                             song_cover := cover_path |} ];
         album_index := album_index |}
  | None => st
  end.

(** [while results:] over the pages of one playlist *)
Definition crawl_playlist (cover_dir : string) (st : Crawl) (playlist_id : string) : Crawl :=
  fold_left (fun st page => fold_left (crawl_item cover_dir) page st)
    (playlist_pages playlist_id) st.

(** [crawl_playlists(playlist_ids, cover_dir)], from the files [fs] *)
Definition crawl_playlists (playlist_ids : list string) (cover_dir : string) (fs : gmap string string)
    : Crawl :=
  fold_left (crawl_playlist cover_dir) playlist_ids
    {| files := fs; songs_data := []; album_index := [] |}.
End Crawler.

(** ** The index the script prints *)

(** the decimal digit [d] *)
Definition digit_char (d : Z) : ascii := ascii_of_nat (48 + Z.to_nat d).

(** the decimal digits of a natural number before [acc]; the number has at
    most [fuel] digits *)
Fixpoint digits_of (fuel : nat) (n : Z) (acc : list ascii) : list ascii :=
  match fuel with
  | O => acc
  | S fuel' =>
      let acc := digit_char (n mod 10) :: acc in
      if n <? 10 then acc else digits_of fuel' (n / 10) acc
  end.

(** [str(n)] *)
Definition str_of_int (n : Z) : string :=
  if n <? 0 then String "-" (text (digits_of (S (Z.to_nat (Z.log2 (- n)))) (- n) []))
  else text (digits_of (S (Z.to_nat (Z.log2 n))) n []).

(** the order of [sorted] on the items of a dict: tuples (name, count),
    strings compared by code point *)
Definition item_le (a b : string * Z) : bool :=
  match String.compare a.1 b.1 with
  | Lt => true
  | Eq => a.2 <=? b.2
  | Gt => false
  end.

(** the line printed for one album *)
Definition album_line (item : string * Z) : string :=
  "  " +:+ item.1 +:+ ": " +:+ str_of_int item.2 +:+ " songs".

(** what the script prints after the crawl, every [print] ending its text
    with a newline *)
Definition print_index (albums : dict) (songs : list Song) : string :=
  line "Album Index:"
  +:+ String.concat "" (map (fun item => line (album_line item)) (sort item_le albums))
  +:+ line (String nl "Total songs: " +:+ str_of_int (Z.of_nat (length songs))).

(** a sample service: one playlist of two pages *)
Definition sample_service : Spotify :=
  {| playlist_pages := fun playlist_id =>
       if String.eqb playlist_id "p1"
       then [ [ Some {| track_name := "Come Together"; track_album_name := "Abbey Road";
                        track_album_id := "a1" |};
                None;
                Some {| track_name := "Thriller"; track_album_name := "Thriller";
                        track_album_id := "a2" |} ];
              [ Some {| track_name := "Something"; track_album_name := "Abbey Road";
                        track_album_id := "a1" |} ] ]
       else [];
     fetch_cover := fun album_id file_path =>
       if String.eqb album_id "a1" then Some "jpeg"%string else None |}.

(** a service whose covers all download: one playlist of two pages *)
Definition full_service : Spotify :=
  {| playlist_pages := @playlist_pages sample_service;
     fetch_cover := fun album_id file_path => Some "jpeg"%string |}.

(** * The script of the painter

    The [__main__] block of [src/cluster_painter.py]: what it prints, and
    the canvas the build saves if it saves one. *)

Inductive Printed : Type :=
| IndexNotFound                      (* "Error: index.txt not found" *)
| FoundAlbums (n : nat)              (* "Found n albums" *)
| NoAlbumsInIndexFile                (* "No albums found in index file" *)
| Build (m : Message).               (* a line of [build_cluster] *)

Definition cluster_painter_main `{Double} `{Env} (index_file : option string)
    : list Printed * option Canvas :=
  let '(albums, artists) := parse_index_file index_file in
  let errors := match index_file with Some _ => [] | None => [IndexNotFound] end in
  match albums with
  | _ :: _ =>
      let '(messages, canvas) := build_cluster albums "covers" "cluster.png" in
      (errors ++ FoundAlbums (length albums) :: map Build messages, canvas)
  | [] => (errors ++ [NoAlbumsInIndexFile], None)
  end.

(** ** Vocabulary of the crawler's properties *)

(** the sum of the counts of an index *)
Definition total_count (d : dict) : Z := foldr Z.add 0 (map snd d).

(** the songs of an album *)
Definition songs_of (album_name : string) (songs : list Song) : list Song :=
  List.filter (fun s => String.eqb (song_album s) album_name) songs.

(** what every state of a crawl into [cover_dir], begun on the files
    [fs], satisfies *)
Definition crawl_invariant `{Spotify} (cover_dir : string) (fs : gmap string string) (st : Crawl) : Prop :=
  NoDup (map fst (album_index st))
  /\ (forall album_name,
        dict_get (album_index st) album_name
        = Z.of_nat (length (songs_of album_name (songs_data st))))
  /\ (forall album_name, album_name ∈ map fst (album_index st)
        <-> album_name ∈ map song_album (songs_data st))
  /\ total_count (album_index st) = Z.of_nat (length (songs_data st))
  /\ (forall path, is_Some (fs !! path) -> is_Some (files st !! path))
  /\ (forall song path, song ∈ songs_data st -> song_cover song = Some path ->
        path = path_join cover_dir (sanitize (song_album song) +:+ ".jpg")
        /\ is_Some (files st !! path)).

(** the environment of a build that reads the files of a crawl *)
Definition files_env (fs : gmap string string) (opens : string -> Z -> bool) : Env :=
  {| path_exists := fun path => bool_decide (is_Some (fs !! path)); open_image := opens |}.

(** a name the index gives back as it is: not empty, without colon,
    newline and carriage return, not starting with a blank *)
Definition plain_name (album_name : string) : Prop :=
  match chars album_name with
  | [] => False
  | c :: _ => is_space c = false
  end
  /\ Forall (fun c => c <> ":"%char /\ c <> nl /\ c <> ascii_of_nat 13) (chars album_name).

(** lines joined by newlines, as [split] takes them apart *)
Fixpoint join_lines (lines : list (list ascii)) : list ascii :=
  match lines with
  | [] => []
  | [l] => l
  | l :: rest => l ++ nl :: join_lines rest
  end.

(** the characters printed for one album, without the two blanks before
    them *)
Definition album_row (item : string * Z) : list ascii :=
  chars item.1 ++ ":"%char :: " "%char :: chars (str_of_int item.2) ++ chars " songs".

(** a text in which every colon is followed by a blank *)
Definition colon_spaced (s : list ascii) : Prop :=
  forall i, s !! i = Some ":"%char -> s !! S i = Some " "%char.

(** whether a text begins with a word, and whether the word occurs in it *)
Fixpoint starts_with (w s : list ascii) : bool :=
  match w, s with
  | [], _ => true
  | c :: w', c' :: s' => Ascii.eqb c c' && starts_with w' s'
  | _ :: _, [] => false
  end.

Fixpoint occurs (w s : list ascii) : bool :=
  starts_with w s || match s with [] => false | _ :: s' => occurs w s' end.

(** ** Binary64 rounding

    Rounding to nearest, ties to even, of IEEE-754 binary64, with gradual
    underflow and without overflow: the doubles are the multiples of
    2^-1074 that have at most 53 significant bits. *)

(** nearest integer, ties to even *)
Definition round_half_even (q : Q) : Z :=
  let f := Qfloor q in
  match (q - inject_Z f ?= 1 # 2)%Q with
  | Lt => f
  | Gt => f + 1
  | Eq => if Z.even f then f else f + 1
  end.

(** a non-negative number counted in units of 2^-1074, rounded to 53
    significant bits: the exponent of its last place, and the result *)
Definition last_place (s : Q) : Z := Z.max 0 (Z.log2 (Qfloor s) - 52).

Definition round_units (s : Q) : Z :=
  let e := last_place s in
  round_half_even (s / inject_Z (2 ^ e)) * 2 ^ e.

Definition round_double (q : Q) : Q :=
  if Qle_bool 0 q
  then inject_Z (round_units (q * inject_Z (2 ^ 1074))) / inject_Z (2 ^ 1074)
  else - (inject_Z (round_units (- q * inject_Z (2 ^ 1074))) / inject_Z (2 ^ 1074)).

(** the number of units of 2^-1074 in 1 *)
Definition units : Q := inject_Z (2 ^ 1074).

(** the arithmetic of the interpreter: every operation rounds as binary64
    does; the sum, the square root, the cosine and the sine are those of
    the platform *)
Definition binary64 (sum : list Q -> Q) (sqrt cos sin : Q -> Q) : Double :=
  {| rnd := round_double; fsum := sum; fsqrt := sqrt; fcos := cos; fsin := sin |}.

(** * Properties *)

(** ** The overlap test *)

Lemma rects_overlap_false (ax ay aw ah bx b_y bw bh : Z) :
  rects_overlap (ax, ay, aw, ah) (bx, b_y, bw, bh) = false
  <-> ax + aw <= bx \/ bx + bw <= ax \/ ay + ah <= b_y \/ b_y + bh <= ay.
Proof.
  unfold rects_overlap. rewrite negb_false_iff, !orb_true_iff, !Z.leb_le. tauto.
Qed.

Lemma rects_overlap_true (ax ay aw ah bx b_y bw bh : Z) :
  rects_overlap (ax, ay, aw, ah) (bx, b_y, bw, bh) = true
  <-> bx < ax + aw /\ ax < bx + bw /\ b_y < ay + ah /\ ay < b_y + bh.
Proof.
  rewrite <- not_false_iff_true, rects_overlap_false. lia.
Qed.

Lemma rects_overlap_sym (a b : Rect) : rects_overlap a b = rects_overlap b a.
Proof.
  destruct a as [[[ax ay] aw] ah], b as [[[bx b_y] bw] bh].
  destruct (rects_overlap (bx, b_y, bw, bh) (ax, ay, aw, ah)) eqn:E.
  - apply rects_overlap_true in E. apply rects_overlap_true. lia.
  - apply rects_overlap_false in E. apply rects_overlap_false. lia.
Qed.

(** moving both rects by the same vector changes nothing *)
Lemma rects_overlap_translate (dx dy ax ay aw ah bx b_y bw bh : Z) :
  rects_overlap (ax - dx, ay - dy, aw, ah) (bx - dx, b_y - dy, bw, bh)
  = rects_overlap (ax, ay, aw, ah) (bx, b_y, bw, bh).
Proof.
  destruct (rects_overlap (ax, ay, aw, ah) (bx, b_y, bw, bh)) eqn:E.
  - apply rects_overlap_true in E. apply rects_overlap_true. lia.
  - apply rects_overlap_false in E. apply rects_overlap_false. lia.
Qed.

(** two rects of positive size overlap exactly when they share a pixel *)
Lemma rects_overlap_shared_pixel (ax ay aw ah bx b_y bw bh : Z) :
  0 < aw -> 0 < ah -> 0 < bw -> 0 < bh ->
  rects_overlap (ax, ay, aw, ah) (bx, b_y, bw, bh) = true
  <-> exists x y, covers (ax, ay, aw, ah) x y /\ covers (bx, b_y, bw, bh) x y.
Proof.
  intros Haw Hah Hbw Hbh. rewrite rects_overlap_true. unfold covers. split.
  - intros (H1 & H2 & H3 & H4). exists (Z.max ax bx), (Z.max ay b_y). lia.
  - intros (x & y & Ha & Hb). lia.
Qed.

(** ** Truncation and rounding *)

Lemma trunc_comp (a b : Q) : (a == b)%Q -> trunc a = trunc b.
Proof.
  intros E. unfold trunc. rewrite (Qleb_comp 0%Q 0%Q (Qeq_refl 0%Q) a b E).
  destruct (Qle_bool 0 b); [apply Qfloor_comp | apply Qceiling_comp]; exact E.
Qed.

Lemma trunc_inject (z : Z) : trunc (inject_Z z) = z.
Proof.
  unfold trunc. destruct (Qle_bool 0 (inject_Z z)); [apply Qfloor_Z | apply Qceiling_Z].
Qed.

Lemma trunc_mono (a b : Q) : (a <= b)%Q -> trunc a <= trunc b.
Proof.
  intros L. unfold trunc.
  destruct (Qle_bool 0 a) eqn:Ea; destruct (Qle_bool 0 b) eqn:Eb.
  - by apply Qfloor_resp_le.
  - apply Qle_bool_iff in Ea. exfalso.
    assert (Qle_bool 0 b = true) as Hb by (apply Qle_bool_iff; eapply Qle_trans; eauto).
    congruence.
  - apply Qle_bool_iff in Eb.
    assert (~ (0 <= a)%Q) as Na by (rewrite <- Qle_bool_iff; congruence).
    apply Qnot_le_lt in Na.
    assert (Qceiling a <= 0).
    { change 0 with (Qceiling (inject_Z 0)). apply Qceiling_resp_le. by apply Qlt_le_weak. }
    assert (0 <= Qfloor b).
    { rewrite <- (Qfloor_Z 0). by apply Qfloor_resp_le. }
    lia.
  - by apply Qceiling_resp_le.
Qed.

Section ScaleProofs.
Context `{Double} (Hs : rnd_sound).

Lemma rnd_comp (a b : Q) : (a == b)%Q -> (rnd a == rnd b)%Q.
Proof.
  intros E. apply Qle_antisym; apply rnd_mono; try done; rewrite E; apply Qle_refl.
Qed.

Lemma rnd_Z (q : Q) (z : Z) : Z.abs z <= 2 ^ 53 -> (q == inject_Z z)%Q -> (rnd q == inject_Z z)%Q.
Proof. intros B E. rewrite (rnd_comp _ _ E). by apply rnd_exact. Qed.

Lemma of_int_exact (z : Z) : Z.abs z <= 2 ^ 53 -> (of_int z == inject_Z z)%Q.
Proof. intros B. unfold of_int. by apply rnd_exact. Qed.

Lemma truediv_mono (a b d : Z) : 0 < d -> a <= b -> (truediv a d <= truediv b d)%Q.
Proof.
  intros Hd L. unfold truediv. apply rnd_mono; [done|].
  apply Qmult_le_compat_r.
  - rewrite <- Zle_Qle. done.
  - apply Qinv_le_0_compat. change 0%Q with (inject_Z 0). rewrite <- Zle_Qle. lia.
Qed.

Lemma truediv_zero (d : Z) : (truediv 0 d == 0)%Q.
Proof.
  unfold truediv. apply (rnd_Z _ 0); [lia|]. unfold Qdiv. by rewrite Qmult_0_l.
Qed.

Lemma truediv_one (d : Z) : 0 < d -> (truediv d d == 1)%Q.
Proof.
  intros Hd. unfold truediv. apply (rnd_Z _ 1); [lia|].
  unfold Qdiv. apply Qmult_inv_r. intros E.
  apply (inject_Z_injective d 0) in E. lia.
Qed.

Lemma scale_dimension_scaled count min_count max_count min_size max_size :
  min_count <> max_count ->
  scale_dimension count min_count max_count min_size max_size
  = trunc (scaled count min_count max_count min_size max_size).
Proof.
  intros Hne. unfold scale_dimension.
  destruct (Z.eqb_spec max_count min_count); [congruence | done].
Qed.

Lemma scaled_mono c1 c2 min_count max_count min_size max_size :
  min_count < max_count -> min_size <= max_size ->
  Z.abs (max_size - min_size) <= 2 ^ 53 ->
  c1 <= c2 ->
  (scaled c1 min_count max_count min_size max_size
   <= scaled c2 min_count max_count min_size max_size)%Q.
Proof.
  intros Hc Hsz Hb L. unfold scaled, fadd, fmul.
  apply rnd_mono; [done|].
  apply Qplus_le_r.
  apply rnd_mono; [done|].
  apply Qmult_le_compat_r.
  - apply truediv_mono; lia.
  - rewrite (of_int_exact _ Hb). change 0%Q with (inject_Z 0). rewrite <- Zle_Qle. lia.
Qed.

Lemma scaled_min min_count max_count min_size max_size :
  Z.abs min_size <= 2 ^ 53 ->
  (scaled min_count min_count max_count min_size max_size == inject_Z min_size)%Q.
Proof.
  intros Hb. unfold scaled, fadd, fmul.
  apply rnd_Z; [done|].
  rewrite Z.sub_diag.
  rewrite (rnd_Z (truediv 0 _ * _) 0); [|lia|].
  - rewrite (of_int_exact _ Hb). apply Qplus_0_r.
  - rewrite truediv_zero. apply Qmult_0_l.
Qed.

Lemma scaled_max min_count max_count min_size max_size :
  min_count < max_count ->
  Z.abs min_size <= 2 ^ 53 -> Z.abs max_size <= 2 ^ 53 ->
  Z.abs (max_size - min_size) <= 2 ^ 53 ->
  (scaled max_count min_count max_count min_size max_size == inject_Z max_size)%Q.
Proof.
  intros Hc Hb1 Hb2 Hb3. unfold scaled, fadd, fmul.
  apply rnd_Z; [done|].
  rewrite (rnd_Z (truediv _ _ * _) (max_size - min_size)); [|done|].
  - rewrite (of_int_exact _ Hb1). rewrite <- inject_Z_plus. f_equiv. lia.
  - rewrite truediv_one by lia. rewrite (of_int_exact _ Hb3). apply Qmult_1_l.
Qed.
End ScaleProofs.

Lemma exact_rnd_sound : @rnd_sound Exact.
Proof. split; [by intros a b L | intros z _; apply Qeq_refl | intros z _; apply Qeq_refl]. Qed.

(** C2, as stated for all integer sizes, fails for sizes that a double
    does not represent: in the arithmetic of binary64 the size 2^53 + 1
    becomes 2^53 when it is converted, so that the lowest weight is given
    2^53, which is not the minimum size and lies below it, and the highest
    weight is given 2^53 + 2, which is not the maximum size. *)
Lemma scale_dimension_large_size_endpoint :
  (0 <= 1 /\ 2 ^ 53 + 1 <= 2 ^ 53 + 3)
  /\ @scale_dimension (binary64 (@fsum Exact) exact_sqrt exact_cos exact_sin)
       0 0 1 (2 ^ 53 + 1) (2 ^ 53 + 3) = 2 ^ 53
  /\ @scale_dimension (binary64 (@fsum Exact) exact_sqrt exact_cos exact_sin)
       0 0 1 (2 ^ 53 + 1) (2 ^ 53 + 3) <> 2 ^ 53 + 1
  /\ ~ (2 ^ 53 + 1
        <= @scale_dimension (binary64 (@fsum Exact) exact_sqrt exact_cos exact_sin)
             0 0 1 (2 ^ 53 + 1) (2 ^ 53 + 3))
  /\ @scale_dimension (binary64 (@fsum Exact) exact_sqrt exact_cos exact_sin)
       1 0 1 (2 ^ 53 + 1) (2 ^ 53 + 3) <> 2 ^ 53 + 3.
Proof.
  assert (@scale_dimension (binary64 (@fsum Exact) exact_sqrt exact_cos exact_sin)
            0 0 1 (2 ^ 53 + 1) (2 ^ 53 + 3) = 2 ^ 53) as E0 by (by vm_compute).
  assert (@scale_dimension (binary64 (@fsum Exact) exact_sqrt exact_cos exact_sin)
            1 0 1 (2 ^ 53 + 1) (2 ^ 53 + 3) = 2 ^ 53 + 2) as E1 by (by vm_compute).
  rewrite E0, E1. repeat apply conj; lia.
Qed.

(** C2 (amended): for sizes that doubles represent exactly,
    [scale_dimension] is monotone in the weight, stays within
    [min_size, max_size], hits both end points exactly when the weights
    differ, and returns the midpoint when they coincide. *)
Theorem scale_dimension_contract `{Double} (Hs : rnd_sound)
    (min_count max_count min_size max_size : Z) :
  min_count <= max_count -> min_size <= max_size ->
  Z.abs min_size <= 2 ^ 53 -> Z.abs max_size <= 2 ^ 53 -> max_size - min_size <= 2 ^ 53 ->
  (forall c1 c2, min_count <= c1 -> c1 <= c2 -> c2 <= max_count ->
     scale_dimension c1 min_count max_count min_size max_size
     <= scale_dimension c2 min_count max_count min_size max_size)
  /\ (forall c, min_count <= c <= max_count ->
        min_size <= scale_dimension c min_count max_count min_size max_size <= max_size)
  /\ (min_count < max_count ->
        scale_dimension min_count min_count max_count min_size max_size = min_size
        /\ scale_dimension max_count min_count max_count min_size max_size = max_size)
  /\ (min_count = max_count ->
        forall c, scale_dimension c min_count max_count min_size max_size
                  = (min_size + max_size) / 2).
Proof.
  intros Hc Hsz B1 B2 B3.
  assert (Z.abs (max_size - min_size) <= 2 ^ 53) as B3' by lia.
  destruct (Z.eq_dec min_count max_count) as [-> | Hne].
  - assert (forall c, scale_dimension c max_count max_count min_size max_size
                      = (min_size + max_size) / 2) as Hmid.
    { intros c. unfold scale_dimension. by rewrite Z.eqb_refl. }
    assert (min_size <= (min_size + max_size) / 2 <= max_size) as Hr.
    { split; [apply Z.div_le_lower_bound | apply Z.div_le_upper_bound]; lia. }
    repeat split; intros; rewrite ?Hmid; try lia.
  - assert (min_count < max_count) as Hlt by lia.
    assert (scale_dimension min_count min_count max_count min_size max_size = min_size) as Hmin.
    { rewrite (scale_dimension_scaled _ _ _ _ _ Hne).
      rewrite (trunc_comp _ _ (scaled_min Hs _ _ _ _ B1)). apply trunc_inject. }
    assert (scale_dimension max_count min_count max_count min_size max_size = max_size) as Hmax.
    { rewrite (scale_dimension_scaled _ _ _ _ _ Hne).
      rewrite (trunc_comp _ _ (scaled_max Hs _ _ _ _ Hlt B1 B2 B3')). apply trunc_inject. }
    assert (forall c1 c2, c1 <= c2 ->
              scale_dimension c1 min_count max_count min_size max_size
              <= scale_dimension c2 min_count max_count min_size max_size) as Hmono.
    { intros c1 c2 L. rewrite !(scale_dimension_scaled _ _ _ _ _ Hne).
      apply trunc_mono. by apply scaled_mono. }
    repeat split.
    + intros c1 c2 _ L _. by apply Hmono.
    + rewrite <- Hmin at 1. apply Hmono. lia.
    + rewrite <- Hmax at 2. apply Hmono. lia.
    + done.
    + done.
    + lia.
Qed.

Lemma scale_dimension_contract_witness :
  (1 <= 10 /\ 50 <= 300)
  /\ @scale_dimension Exact 1 1 10 50 300 = 50
  /\ @scale_dimension Exact 10 1 10 50 300 = 300.
Proof.
  split; [lia|].
  apply (@scale_dimension_contract Exact exact_rnd_sound 1 10 50 300); lia.
Defined.

(** ** Adjacency candidates *)

(** C5, as stated, fails: a placed rect yields ten candidates, not eight. *)
Lemma candidates_around_not_eight :
  length (candidates_around 0 0 300 300 50 50) <> 8%nat.
Proof. by vm_compute. Qed.

(** C5 (amended): every placed rect yields exactly ten adjacency
    candidates: start-aligned, end-aligned and centered against its right
    and left sides, start-aligned and centered against its bottom and top
    sides; each of them is flush with the placed rect and does not
    overlap it. *)
Theorem candidates_around_ten (px py pw ph iw ih : Z) :
  length (candidates_around px py pw ph iw ih) = 10%nat
  /\ candidates_around px py pw ph iw ih
     = map (fun v => adjacent px py pw ph iw ih v.1 v.2) adjacency_variants
  /\ forall c, c ∈ candidates_around px py pw ph iw ih ->
       (c.1 = px + pw \/ c.1 + iw = px \/ c.2 = py + ph \/ c.2 + ih = py)
       /\ rects_overlap (c.1, c.2, iw, ih) (px, py, pw, ph) = false.
Proof.
  split; [done | split; [done |]].
  intros c Hc. unfold candidates_around in Hc.
  repeat (apply elem_of_cons in Hc as [-> | Hc]);
    try (by apply elem_of_nil in Hc);
    (split; [simpl; lia | apply rects_overlap_false; simpl; lia]).
Qed.

(** ** The index file *)

Example parse_albums_and_total :
  parse_index_file (Some (album_block +:+ total_line))
  = ([("Abbey Road"%string, 17); ("Thriller"%string, 9)], []).
Proof. by vm_compute. Qed.

Example parse_albums_and_artists :
  parse_index_file (Some (album_block +:+ artist_block))
  = ([("Abbey Road"%string, 17); ("Thriller"%string, 9)],
     [("The Beatles"%string, 17); ("Michael Jackson"%string, 9)]).
Proof. by vm_compute. Qed.

Example parse_albums_artists_and_total :
  parse_index_file (Some (album_block +:+ artist_block +:+ total_line))
  = ([("Abbey Road"%string, 17); ("Thriller"%string, 9)],
     [("The Beatles"%string, 17); ("Michael Jackson"%string, 9)]).
Proof. by vm_compute. Qed.

(** C8: an index file that holds the album block and neither the artist
    block nor the total line yields no album at all: the album pattern,
    unlike the artist pattern, does not accept the end of the text. *)
Theorem parse_index_file_album_block_alone :
  parse_index_file (Some album_block) = ([], []).
Proof. by vm_compute. Qed.

(** ** The tightener *)

Lemma map_alter_same {A B : Type} (g : A -> B) (f : A -> A) (i : nat) (l : list A) :
  (forall a, g (f a) = g a) -> map g (alter f i l) = map g l.
Proof.
  intros Hg. revert i. induction l as [|a l IH]; intros [|i]; simpl; try done.
  - by rewrite Hg.
  - f_equal. apply IH.
Qed.

Lemma frame_set_x (v : Z) (p : Placement) : frame (set_x v p) = frame p.
Proof. done. Qed.

Lemma frame_set_y (v : Z) (p : Placement) : frame (set_y v p) = frame p.
Proof. done. Qed.

Lemma can_place_from_true (j : nat) (others : list Placement) (idx : nat) (rect : Rect) :
  can_place_from j others idx rect = true
  <-> forall k q, others !! k = Some q -> (j + k)%nat <> idx ->
        rects_overlap rect (rect_of q) = false.
Proof.
  revert j. induction others as [|o rest IH]; intros j; simpl.
  - split; [intros _ k q Hk; by rewrite lookup_nil in Hk | done].
  - case_bool_decide as Hj.
    + rewrite IH. split; intros Hall k q Hk Hne.
      * destruct k as [|k]; simpl in Hk; [lia|].
        apply (Hall k q Hk). lia.
      * apply (Hall (S k) q); [done | lia].
    + destruct (rects_overlap rect (rect_of o)) eqn:Eo.
      * split; [done|]. intros Hall. rewrite (Hall O o) in Eo; [done | done | lia].
      * rewrite IH. split; intros Hall k q Hk Hne.
        -- destruct k as [|k]; simpl in Hk; [by simplify_eq|].
           apply (Hall k q Hk). lia.
        -- apply (Hall (S k) q); [done | lia].
Qed.

Lemma can_place_at_true (placements : list Placement) (idx : nat) (x y : Z) :
  can_place_at placements idx x y = true
  <-> exists p, placements !! idx = Some p
        /\ forall j q, placements !! j = Some q -> j <> idx ->
             rects_overlap (x, y, p_w p, p_h p) (rect_of q) = false.
Proof.
  unfold can_place_at. destruct (placements !! idx) as [p|] eqn:Ep.
  - rewrite can_place_from_true. split.
    + intros Hall. exists p. split; [done|]. intros j q Hj Hne. by apply (Hall j q).
    + intros (p' & Hp' & Hall). simplify_eq. intros k q Hk Hne. by apply (Hall k q).
  - split; [done | by intros (p & Hp & _)].
Qed.

(** moving one rect to a place [can_place_at] accepts keeps the list free
    of overlaps *)
Lemma no_overlap_move (placements : list Placement) (i : nat) (p : Placement) (x y : Z)
    (f : Placement -> Placement) :
  no_overlap placements ->
  placements !! i = Some p ->
  rect_of (f p) = (x, y, p_w p, p_h p) ->
  can_place_at placements i x y = true ->
  no_overlap (alter f i placements).
Proof.
  intros Hno Hi Hf Hcan a b pa pb Hab Ha Hb.
  apply can_place_at_true in Hcan as (p' & Hp' & Hall). simplify_eq.
  rewrite list_lookup_alter in Ha, Hb.
  destruct (decide (i = a)) as [Hia | Hia]; destruct (decide (i = b)) as [Hib | Hib].
  - congruence.
  - rewrite Hi in Ha. simpl in Ha. simplify_eq. rewrite Hf. by apply (Hall b).
  - rewrite Hi in Hb. simpl in Hb. simplify_eq. rewrite rects_overlap_sym, Hf.
    by apply (Hall a).
  - by apply (Hno a b).
Qed.

Section TightenerProofs.
Context `{Double}.

(** the properties of one rect's three steps, proved together: the
    frames stay, no overlap appears, and a pass that reports no move
    has changed nothing *)
Lemma nudge_spec (steps : nat) (center_x center_y : Q) (i : nat) (px py pw ph : Z)
    (placements : list Placement) (moved_any : bool) (p : Placement) :
  placements !! i = Some p ->
  p_x p = px -> p_y p = py -> p_w p = pw -> p_h p = ph ->
  let res := nudge steps center_x center_y i px py pw ph placements moved_any in
  map frame res.1 = map frame placements
  /\ (no_overlap placements -> no_overlap res.1)
  /\ (res.2 = false -> res.1 = placements /\ moved_any = false)
  /\ (moved_any = true -> res.2 = true).
Proof.
  revert px py placements moved_any p.
  induction steps as [|steps IH]; intros px py placements moved_any p Hi Hx Hy Hw Hh;
    simpl.
  { by repeat apply conj. }
  set (step_x := sign _). set (step_y := sign (fsub center_y _)).
  destruct (negb (step_x =? 0) && can_place_at placements i (px + step_x) py) eqn:Ex.
  - apply andb_true_iff in Ex as [_ Ex].
    set (pl1 := alter (set_x (px + step_x)) i placements).
    assert (pl1 !! i = Some (set_x (px + step_x) p)) as Hi1.
    { unfold pl1. by rewrite list_lookup_alter_eq, Hi. }
    assert (no_overlap placements -> no_overlap pl1) as Hno1.
    { intros Hno. eapply no_overlap_move; eauto. unfold rect_of; simpl. by rewrite Hy. }
    assert (map frame pl1 = map frame placements) as Hfr1.
    { apply map_alter_same, frame_set_x. }
    destruct (negb (step_y =? 0) && can_place_at pl1 i (px + step_x) (py + step_y)) eqn:Ey.
    + apply andb_true_iff in Ey as [_ Ey].
      set (pl2 := alter (set_y (py + step_y)) i pl1).
      assert (pl2 !! i = Some (set_y (py + step_y) (set_x (px + step_x) p))) as Hi2.
      { unfold pl2. by rewrite list_lookup_alter_eq, Hi1. }
      simpl.
      destruct (IH (px + step_x) (py + step_y) pl2 true _ Hi2 eq_refl eq_refl Hw Hh)
        as (F & N & U & M).
      repeat apply conj.
      * rewrite F. unfold pl2. rewrite map_alter_same by apply frame_set_y. done.
      * intros Hno. apply N. unfold pl2. eapply no_overlap_move; eauto.
      * intros E. rewrite M in E; done.
      * intros _. by apply M.
    + simpl.
      destruct (IH (px + step_x) py pl1 true _ Hi1 eq_refl Hy Hw Hh) as (F & N & U & M).
      repeat apply conj.
      * by rewrite F.
      * intros Hno. by apply N, Hno1.
      * intros E. rewrite M in E; done.
      * intros _. by apply M.
  - destruct (negb (step_y =? 0) && can_place_at placements i px (py + step_y)) eqn:Ey.
    + apply andb_true_iff in Ey as [_ Ey].
      set (pl2 := alter (set_y (py + step_y)) i placements).
      assert (pl2 !! i = Some (set_y (py + step_y) p)) as Hi2.
      { unfold pl2. by rewrite list_lookup_alter_eq, Hi. }
      simpl.
      destruct (IH px (py + step_y) pl2 true _ Hi2 Hx eq_refl Hw Hh) as (F & N & U & M).
      repeat apply conj.
      * rewrite F. unfold pl2. by rewrite map_alter_same by apply frame_set_y.
      * intros Hno. apply N. unfold pl2. eapply no_overlap_move; eauto.
        unfold rect_of; simpl. by rewrite Hx.
      * intros E. rewrite M in E; done.
      * intros _. by apply M.
    + simpl. by repeat apply conj.
Qed.

Lemma nudge_all_spec (order : list nat) (center_x center_y : Q)
    (placements : list Placement) (moved_any : bool) :
  let res := nudge_all order center_x center_y placements moved_any in
  map frame res.1 = map frame placements
  /\ (no_overlap placements -> no_overlap res.1)
  /\ (res.2 = false -> res.1 = placements /\ moved_any = false)
  /\ (moved_any = true -> res.2 = true).
Proof.
  revert placements moved_any.
  induction order as [|i rest IH]; intros placements moved_any; cbn [nudge_all].
  { by repeat apply conj. }
  destruct (placements !! i) as [p|] eqn:Hi; [|apply IH].
  pose proof (nudge_spec 3 center_x center_y i (p_x p) (p_y p) (p_w p) (p_h p)
                placements moved_any p Hi eq_refl eq_refl eq_refl eq_refl) as Hn.
  destruct (nudge 3 center_x center_y i (p_x p) (p_y p) (p_w p) (p_h p)
              placements moved_any) as [pl1 m1].
  simpl in Hn. destruct Hn as (F1 & N1 & U1 & M1).
  destruct (IH pl1 m1) as (F & N & U & M).
  repeat apply conj.
  - by rewrite F.
  - intros Hno. by apply N, N1.
  - intros E. destruct (U E) as [E1 E2]. destruct (U1 E2) as [E3 E4]. split; congruence.
  - intros E. by apply M, M1.
Qed.

Lemma tighten_pass_spec (placements : list Placement) :
  let res := tighten_pass placements in
  map frame res.1 = map frame placements
  /\ (no_overlap placements -> no_overlap res.1)
  /\ (res.2 = false -> res.1 = placements).
Proof.
  unfold tighten_pass. destruct (center_of placements) as [center_x center_y].
  destruct (nudge_all_spec (processing_order placements center_x center_y)
              center_x center_y placements false) as (F & N & U & _).
  repeat apply conj; try done. intros E. by apply U.
Qed.

Lemma tighten_placements_frame (placements : list Placement) (max_passes : nat) :
  map frame (tighten_placements placements max_passes) = map frame placements.
Proof.
  revert placements. induction max_passes as [|n IH]; intros placements; simpl; [done|].
  destruct (tighten_pass_spec placements) as (F & _).
  destruct (tighten_pass placements) as [pl moved]. simpl in F.
  destruct moved; [by rewrite IH | done].
Qed.

Lemma tighten_placements_no_overlap (placements : list Placement) (max_passes : nat) :
  no_overlap placements -> no_overlap (tighten_placements placements max_passes).
Proof.
  revert placements. induction max_passes as [|n IH]; intros placements Hno; simpl; [done|].
  destruct (tighten_pass_spec placements) as (_ & N & _).
  destruct (tighten_pass placements) as [pl moved]. simpl in N.
  destruct moved; [apply IH|]; by apply N.
Qed.

Lemma tighten_placements_fixed (placements : list Placement) (max_passes : nat) :
  (tighten_pass placements).2 = false ->
  tighten_placements placements max_passes = placements.
Proof.
  intros Hfix. destruct max_passes as [|n]; simpl; [done|].
  destruct (tighten_pass_spec placements) as (_ & _ & U).
  destruct (tighten_pass placements) as [pl moved]. simpl in *. subst moved. by apply U.
Qed.
End TightenerProofs.

(** ** Sorting, minima and maxima *)

Section SortProofs.
Context {A : Type} (leb : A -> A -> bool).

Lemma insert_sorted_perm (a : A) (l : list A) : insert_sorted leb a l ≡ₚ a :: l.
Proof.
  induction l as [|b l IH]; simpl; [done|].
  destruct (leb a b); [done|]. rewrite IH. apply Permutation_swap.
Qed.

Lemma sort_perm (l : list A) : sort leb l ≡ₚ l.
Proof.
  induction l as [|a l IH]; simpl; [done|]. by rewrite insert_sorted_perm, IH.
Qed.
End SortProofs.

Lemma fold_left_max_ge (l : list Z) (a : Z) :
  a <= fold_left Z.max l a /\ forall x, x ∈ l -> x <= fold_left Z.max l a.
Proof.
  revert a. induction l as [|b l IH]; intros a; simpl.
  - split; [lia | intros x Hx; by apply elem_of_nil in Hx].
  - destruct (IH (Z.max a b)) as [H1 H2]. split; [lia|].
    intros x Hx. apply elem_of_cons in Hx as [-> | Hx]; [lia | by apply H2].
Qed.

Lemma fold_left_min_le (l : list Z) (a : Z) :
  fold_left Z.min l a <= a /\ forall x, x ∈ l -> fold_left Z.min l a <= x.
Proof.
  revert a. induction l as [|b l IH]; intros a; simpl.
  - split; [lia | intros x Hx; by apply elem_of_nil in Hx].
  - destruct (IH (Z.min a b)) as [H1 H2]. split; [lia|].
    intros x Hx. apply elem_of_cons in Hx as [-> | Hx]; [lia | by apply H2].
Qed.

Lemma max_of_ge (l : list Z) (x : Z) : x ∈ l -> x <= max_of l.
Proof.
  destruct l as [|a l]; simpl; intros Hx; [by apply elem_of_nil in Hx|].
  destruct (fold_left_max_ge l a) as [H1 H2].
  apply elem_of_cons in Hx as [-> | Hx]; [done | by apply H2].
Qed.

Lemma min_of_le (l : list Z) (x : Z) : x ∈ l -> min_of l <= x.
Proof.
  destruct l as [|a l]; simpl; intros Hx; [by apply elem_of_nil in Hx|].
  destruct (fold_left_min_le l a) as [H1 H2].
  apply elem_of_cons in Hx as [-> | Hx]; [done | by apply H2].
Qed.

(** ** The placer *)

Lemma any_overlap_false (rect : Rect) (placements : list Placement) :
  any_overlap rect placements = false
  <-> forall q, q ∈ placements -> rects_overlap rect (rect_of q) = false.
Proof.
  unfold any_overlap. induction placements as [|p ps IH]; simpl.
  - split; [intros _ q Hq; by apply elem_of_nil in Hq | done].
  - rewrite orb_false_iff, IH. split.
    + intros [Hp Hps] q Hq. apply elem_of_cons in Hq as [-> | Hq]; [done | by apply Hps].
    + intros Hall. split; [apply Hall; left | intros q Hq; apply Hall; by right].
Qed.

Lemma no_overlap_singleton (p : Placement) : no_overlap [p].
Proof.
  intros i j a b Hij Hi Hj. apply lookup_lt_Some in Hi, Hj. simpl in *. lia.
Qed.

Lemma no_overlap_snoc (placements : list Placement) (p : Placement) :
  no_overlap placements ->
  any_overlap (rect_of p) placements = false ->
  no_overlap (placements ++ [p]).
Proof.
  intros Hno Hfree i j a b Hij Hi Hj.
  rewrite any_overlap_false in Hfree.
  apply lookup_snoc_Some in Hi as [[Hil Hi] | [Hil <-]];
    apply lookup_snoc_Some in Hj as [[Hjl Hj] | [Hjl <-]].
  - by apply (Hno i j).
  - rewrite rects_overlap_sym. apply Hfree. by eapply list_elem_of_lookup_2.
  - apply Hfree. by eapply list_elem_of_lookup_2.
  - lia.
Qed.

Lemma scan_placed_overlap (cx cy iw ih : Z) (placements : list Placement) (touching : bool) :
  (scan_placed cx cy iw ih placements touching).1 = any_overlap (cx, cy, iw, ih) placements.
Proof.
  revert touching. unfold any_overlap.
  induction placements as [|p ps IH]; intros touching; cbn [scan_placed existsb]; [done|].
  destruct (rects_overlap (cx, cy, iw, ih) (rect_of p)); simpl; [done | apply IH].
Qed.

(** the rect placed beyond the right edge of the bounding box is free *)
Lemma fallback_free (placements : list Placement) (iw ih : Z) :
  any_overlap ((bbox placements).1.2 + 1, (bbox placements).1.1.2, iw, ih) placements = false.
Proof.
  apply any_overlap_false. intros q Hq. unfold rect_of. apply rects_overlap_false.
  right. left. unfold bbox. simpl.
  assert (p_x q + p_w q <= max_of (map (fun p => p_x p + p_w p) placements)).
  { apply max_of_ge. apply (list_elem_of_fmap_2 (fun p => p_x p + p_w p)) in Hq. done. }
  lia.
Qed.

Section PlacerProofs.
Context `{Double}.

Lemma score_free (placements : list Placement) (iw ih : Z) (candidates : list (Z * Z))
    (s : Scored) :
  s ∈ score placements iw ih candidates ->
  any_overlap (s.1.1.2, s.1.2, iw, ih) placements = false
  /\ (s.1.1.2, s.1.2) ∈ candidates.
Proof.
  induction candidates as [|[cx cy] rest IH]; cbn [score]; intros Hs.
  - by apply elem_of_nil in Hs.
  - pose proof (scan_placed_overlap cx cy iw ih placements false) as Ho.
    destruct (scan_placed cx cy iw ih placements false) as [overlap touching].
    simpl in Ho. destruct overlap.
    + destruct (IH Hs) as [H1 H2]. split; [done | by right].
    + apply elem_of_cons in Hs as [-> | Hs].
      * simpl. split; [done | left].
      * destruct (IH Hs) as [H1 H2]. split; [done | by right].
Qed.

Lemma scan_angles_free (placements : list Placement) (center_x center_y : Q)
    (r iw ih : Z) (angles : list Z) (c : Z * Z) :
  scan_angles placements center_x center_y r iw ih angles = Some c ->
  any_overlap (c.1, c.2, iw, ih) placements = false.
Proof.
  induction angles as [|a rest IH]; cbn [scan_angles]; [done|].
  destruct (spiral_point center_x center_y r a) as [cx cy].
  destruct (any_overlap (cx, cy, iw, ih) placements) eqn:E; [done|].
  intros [= <-]. done.
Qed.

Lemma spiral_loop_free (fuel : nat) (placements : list Placement) (center_x center_y : Q)
    (max_radius step iw ih r : Z) (c : Z * Z) :
  spiral_loop fuel placements center_x center_y max_radius step iw ih r = Some c ->
  any_overlap (c.1, c.2, iw, ih) placements = false.
Proof.
  revert r. induction fuel as [|fuel IH]; intros r; cbn [spiral_loop]; [done|].
  destruct (r <? max_radius); [|done].
  destruct (scan_angles _ _ _ _ _ _ _) as [c'|] eqn:E.
  - intros [= <-]. by eapply scan_angles_free.
  - apply IH.
Qed.

Lemma spiral_search_free (placements : list Placement) (iw ih : Z) (c : Z * Z) :
  spiral_search placements iw ih = Some c ->
  any_overlap (c.1, c.2, iw, ih) placements = false.
Proof.
  unfold spiral_search. destruct (bbox placements) as [[[min_x min_y] max_x] max_y].
  apply spiral_loop_free.
Qed.

(** what [place_image] appends: the image at its own size, on a free spot *)
Lemma place_image_spec (placements : list Placement) (img : Image) :
  let p := place_image placements img in
  p_img p = img /\ p_w p = i_width img /\ p_h p = i_height img
  /\ any_overlap (rect_of p) placements = false.
Proof.
  unfold place_image.
  destruct (sort scored_le _) as [|[[[[n d] x] y] t] rest] eqn:Es.
  - destruct (spiral_search placements (i_width img) (i_height img)) as [[cx cy]|] eqn:E.
    + repeat apply conj; try done. by apply spiral_search_free in E.
    + pose proof (fallback_free placements (i_width img) (i_height img)) as Hf.
      destruct (bbox placements) as [[[min_x min_y] max_x] max_y].
      by repeat apply conj.
  - repeat apply conj; try done.
    assert ((n, d, x, y, t) ∈ sort scored_le
              (score placements (i_width img) (i_height img)
                 (candidates_of placements (i_width img) (i_height img)))) as Hin.
    { rewrite Es. left. }
    rewrite sort_perm in Hin. by apply score_free in Hin as [Hin _].
Qed.

Lemma place_fold_spec (others : list Image) (placements : list Placement) :
  let res := fold_left (fun placements img => placements ++ [place_image placements img])
               others placements in
  map p_img res = map p_img placements ++ others
  /\ (Forall (fun p => p_w p = i_width (p_img p) /\ p_h p = i_height (p_img p)) placements ->
      Forall (fun p => p_w p = i_width (p_img p) /\ p_h p = i_height (p_img p)) res)
  /\ (no_overlap placements -> no_overlap res)
  /\ head res = match placements with [] => head res | p :: _ => Some p end.
Proof.
  revert placements. induction others as [|img others IH]; intros placements; simpl.
  - rewrite app_nil_r. repeat apply conj; try done. by destruct placements.
  - destruct (IH (placements ++ [place_image placements img])) as (M & S & N & Hd).
    destruct (place_image_spec placements img) as (Pi & Pw & Ph & Pf).
    repeat apply conj.
    + rewrite M, map_app. simpl. rewrite Pi. by rewrite <- app_assoc.
    + intros Hs. apply S. apply Forall_app. split; [done|].
      apply Forall_singleton. by rewrite Pi.
    + intros Hno. apply N. by apply no_overlap_snoc.
    + destruct placements as [|p ps]; [done|]. simpl in Hd. done.
Qed.

(** the layout the placer hands to the tightener *)
Lemma place_all_spec (images : list Image) :
  map p_img (place_all images) = images
  /\ Forall (fun p => p_w p = i_width (p_img p) /\ p_h p = i_height (p_img p))
       (place_all images)
  /\ no_overlap (place_all images)
  /\ head (place_all images) = (fun img => new_placement img 0 0) <$> head images.
Proof.
  destruct images as [|first_img others]; simpl.
  - by repeat apply conj.
  - destruct (place_fold_spec others [new_placement first_img 0 0]) as (M & S & N & Hd).
    repeat apply conj; try done.
    + apply S. by apply Forall_singleton.
    + apply N, no_overlap_singleton.
Qed.
End PlacerProofs.

(** ** Sorting by a key, largest first *)

Section KeySort.
Context {A : Type} (key : A -> Z).

Lemma insert_sorted_dominated (a : A) (l : list A) :
  Forall ((dominates key) a) l -> insert_sorted (key_ge key) a l = a :: l.
Proof.
  destruct l as [|b l]; simpl; [done|]. intros Hd.
  apply Forall_cons in Hd as [Hb _]. unfold key_ge, dominates in *.
  destruct (Z.leb_spec (key b) (key a)); [done | lia].
Qed.

Lemma insert_sorted_sorted (a : A) (l : list A) :
  StronglySorted (dominates key) l -> StronglySorted (dominates key) (insert_sorted (key_ge key) a l).
Proof.
  induction l as [|b l IH]; simpl; intros Hs.
  - constructor; [constructor | constructor].
  - apply StronglySorted_inv in Hs as [Hs Hb]. unfold key_ge.
    destruct (Z.leb_spec (key b) (key a)).
    + constructor; [by constructor|].
      constructor; [done|]. eapply Forall_impl; [exact Hb|].
      unfold dominates. intros; simpl in *; lia.
    + constructor; [by apply IH|].
      rewrite insert_sorted_perm. constructor; [unfold dominates; lia | done].
Qed.

Lemma sort_sorted (l : list A) : StronglySorted (dominates key) (sort (key_ge key) l).
Proof.
  induction l as [|a l IH]; simpl; [constructor | by apply insert_sorted_sorted].
Qed.

(** the head of the sorted list is the first of the largest elements *)
Lemma sort_head (l : list A) (a : A) (rest : list A) :
  sort (key_ge key) l = a :: rest ->
  exists pre post, l = pre ++ a :: post
    /\ Forall (fun x => key x < key a) pre
    /\ Forall (fun x => key x <= key a) post.
Proof.
  revert a rest. induction l as [|x l IH]; intros a rest; simpl; [done|].
  destruct (sort (key_ge key) l) as [|b rest'] eqn:Es; simpl.
  - intros [= <- <-]. exists [], l. split; [done|]. split; [constructor|].
    assert (l = []) as ->; [|constructor].
    apply Permutation_nil. by rewrite <- (sort_perm (key_ge key) l), Es.
  - destruct (IH b rest' eq_refl) as (pre & post & -> & Hpre & Hpost).
    unfold key_ge. destruct (Z.leb_spec (key b) (key x)).
    + intros [= <- <-]. exists [], (pre ++ b :: post). split; [done|].
      split; [constructor|]. apply Forall_app. split.
      * eapply Forall_impl; [exact Hpre|]. intros; simpl in *; lia.
      * constructor; [done|]. eapply Forall_impl; [exact Hpost|]. intros; simpl in *; lia.
    + intros [= <- <-]. exists (x :: pre), post. split; [done|].
      split; [by constructor | done].
Qed.
End KeySort.

(** what a filter keeps of a sorted list is the sorted list of what it
    keeps *)
Section SortFilter.
Context {A B : Type} (ka : A -> Z) (kb : B -> Z) (f : A -> option B).
Hypothesis f_key : forall a b, f a = Some b -> kb b = ka a.

Lemma omap_cons (a : A) (l : list A) :
  omap f (a :: l) = match f a with Some b => b :: omap f l | None => omap f l end.
Proof. done. Qed.

Lemma omap_dominated (a : A) (b : B) (l : list A) :
  f a = Some b -> Forall (dominates ka a) l -> Forall (dominates kb b) (omap f l).
Proof.
  intros Ea Hl. apply Forall_forall. intros z Hz.
  apply list_elem_of_omap in Hz as (w & Hw & Ew).
  rewrite Forall_forall in Hl. specialize (Hl w Hw).
  unfold dominates in *. by rewrite (f_key _ _ Ew), (f_key _ _ Ea).
Qed.

Lemma omap_insert_sorted (a : A) (l : list A) :
  StronglySorted (dominates ka) l ->
  omap f (insert_sorted (key_ge ka) a l)
  = match f a with
    | Some b => insert_sorted (key_ge kb) b (omap f l)
    | None => omap f l
    end.
Proof.
  induction l as [|x l IH]; intros Hs.
  - simpl. by destruct (f a).
  - apply StronglySorted_inv in Hs as [Hs Hx]. cbn [insert_sorted]. unfold key_ge at 1.
    destruct (Z.leb_spec (ka x) (ka a)) as [Hle | Hlt].
    + rewrite (omap_cons a). destruct (f a) as [b|] eqn:Ea; [|done].
      symmetry. apply insert_sorted_dominated.
      apply (omap_dominated a b (x :: l) Ea). constructor; [done|].
      eapply Forall_impl; [exact Hx|]. unfold dominates. intros; simpl in *; lia.
    + rewrite (omap_cons x (insert_sorted _ _ _)), (IH Hs), (omap_cons x l).
      destruct (f x) as [y|] eqn:Ex; [|done].
      destruct (f a) as [b|] eqn:Ea; [|done].
      cbn [insert_sorted]. unfold key_ge at 2. rewrite (f_key _ _ Ex), (f_key _ _ Ea).
      destruct (Z.leb_spec (ka x) (ka a)); [lia | done].
Qed.

Lemma omap_sort (l : list A) :
  omap f (sort (key_ge ka) l) = sort (key_ge kb) (omap f l).
Proof.
  induction l as [|a l IH]; [done|].
  cbn [sort]. rewrite omap_insert_sorted by apply sort_sorted.
  rewrite IH, omap_cons. by destruct (f a).
Qed.
End SortFilter.

(** ** The stages of a build *)

Lemma no_overlap_rects_map (placements : list Placement) :
  no_overlap placements <-> no_overlap_rects (map rect_of placements).
Proof.
  unfold no_overlap, no_overlap_rects. split.
  - intros Hno i j a b Hij Hi Hj.
    apply list_lookup_fmap_Some_1 in Hi as (p & -> & Hi).
    apply list_lookup_fmap_Some_1 in Hj as (q & -> & Hj).
    by apply (Hno i j).
  - intros Hno i j p q Hij Hi Hj. apply (Hno i j); [done | |].
    + change (map rect_of placements) with (rect_of <$> placements).
      by rewrite list_lookup_fmap, Hi.
    + change (map rect_of placements) with (rect_of <$> placements).
      by rewrite list_lookup_fmap, Hj.
Qed.

Section BuildProofs.
Context `{Double} `{Env}.

Lemma scale_covers_covers (albums : dict) (covers_dir : string) (min_count max_count : Z) :
  (scale_covers albums covers_dir min_count max_count).1
  = omap (cover_of covers_dir min_count max_count) albums.
Proof.
  induction albums as [|[album_name count] rest IH]; [done|].
  cbn [scale_covers]. rewrite omap_cons. unfold cover_of at 1. simpl.
  destruct (scale_covers rest covers_dir min_count max_count) as [cs ws]. simpl in IH.
  destruct (get_cover_path album_name covers_dir); simpl; by rewrite IH.
Qed.

Lemma load_images_images (scaled_covers : list Cover) :
  (load_images scaled_covers).1 = omap image_of scaled_covers.
Proof.
  induction scaled_covers as [|c rest IH]; [done|].
  cbn [load_images]. rewrite omap_cons. unfold image_of at 1.
  destruct (load_images rest) as [imgs errs]. simpl in IH.
  destruct (open_image (c_path c) (c_size c)); simpl; by rewrite IH.
Qed.

Lemma image_of_width (c : Cover) (img : Image) :
  image_of c = Some img -> i_width img = c_size c.
Proof. unfold image_of. destruct (open_image _ _); [by intros [= <-] | done]. Qed.

Lemma omap_omap {A B C : Type} (f : A -> option B) (g : B -> option C) (l : list A) :
  omap g (omap f l) = omap (fun a => f a ≫= g) l.
Proof.
  induction l as [|a l IH]; [done|].
  rewrite (omap_cons f a l), (omap_cons (fun a => f a ≫= g) a l).
  destruct (f a) as [b|]; [|done].
  rewrite (omap_cons g b). simpl. destruct (g b); by rewrite IH.
Qed.

(** the images that are placed are the images the albums resolve to,
    the largest first and otherwise in the order of the input *)
Lemma loaded_images_sorted (albums : dict) (covers_dir : string) :
  loaded_images albums covers_dir
  = sort (key_ge i_width) (resolved_images albums covers_dir).
Proof.
  unfold loaded_images, resolved_images, resolve.
  rewrite load_images_images, scale_covers_covers.
  unfold sort_covers.
  change (fun a b : Cover => c_size b <=? c_size a) with (key_ge c_size).
  rewrite (omap_sort c_size i_width image_of).
  - by rewrite omap_omap.
  - intros c img E. by apply image_of_width.
Qed.

Lemma loaded_images_perm (albums : dict) (covers_dir : string) :
  loaded_images albums covers_dir ≡ₚ resolved_images albums covers_dir.
Proof. rewrite loaded_images_sorted. apply sort_perm. Qed.

Lemma loaded_images_nil (albums : dict) (covers_dir : string) :
  loaded_images albums covers_dir = [] <-> resolved_images albums covers_dir = [].
Proof.
  split; intros E.
  - apply Permutation_nil. rewrite <- E. apply loaded_images_perm.
  - apply Permutation_nil. rewrite <- E. symmetry. apply loaded_images_perm.
Qed.

Lemma build_cluster_saves (albums : dict) (covers_dir output_file : string) :
  loaded_images albums covers_dir <> [] ->
  (build_cluster albums covers_dir output_file).2
  = Some (canvas_of (final_placements albums covers_dir) output_file).
Proof.
  unfold final_placements, loaded_images, build_cluster, canvas_of.
  destruct albums as [|e albums']; [done|].
  set (albums := e :: albums').
  destruct (scale_covers albums covers_dir _ _) as [[|c cs] ws]; [done|].
  cbn [fst].
  destruct (load_images (sort_covers (c :: cs))) as [[|img imgs] errs]; [done|].
  intros _. cbn [fst].
  by destruct (bbox _) as [[[min_x min_y] max_x] max_y].
Qed.

Lemma build_cluster_aborts (albums : dict) (covers_dir output_file : string) :
  loaded_images albums covers_dir = [] ->
  (build_cluster albums covers_dir output_file).2 = None.
Proof.
  unfold loaded_images, build_cluster.
  destruct albums as [|e albums']; [done|].
  set (albums := e :: albums').
  destruct (scale_covers albums covers_dir _ _) as [[|c cs] ws]; [done|].
  cbn [fst].
  destruct (load_images (sort_covers (c :: cs))) as [[|img imgs] errs]; [done|].
  done.
Qed.

Lemma same_frame_img (l1 l2 : list Placement) :
  map frame l1 = map frame l2 -> map p_img l1 = map p_img l2.
Proof.
  revert l2. induction l1 as [|p l1 IH]; intros [|q l2]; simpl; try done.
  intros [= E1 E2 E3 E4]. f_equal; [done | by apply IH].
Qed.

Lemma same_frame_sizes (l1 l2 : list Placement) :
  map frame l1 = map frame l2 ->
  Forall (fun p => p_w p = i_width (p_img p) /\ p_h p = i_height (p_img p)) l2 ->
  Forall (fun p => p_w p = i_width (p_img p) /\ p_h p = i_height (p_img p)) l1.
Proof.
  revert l2. induction l1 as [|p l1 IH]; intros [|q l2]; simpl; try done.
  intros [= E1 E2 E3 E4] Hq. apply Forall_cons in Hq as [Hq Hl2].
  constructor; [by rewrite E1, E2, E3 | by eapply IH].
Qed.

(** the final placements: the images in order, each at its own size, no
    two overlapping *)
Lemma final_placements_spec (albums : dict) (covers_dir : string) :
  map p_img (final_placements albums covers_dir) = loaded_images albums covers_dir
  /\ Forall (fun p => p_w p = i_width (p_img p) /\ p_h p = i_height (p_img p))
       (final_placements albums covers_dir)
  /\ no_overlap (final_placements albums covers_dir).
Proof.
  unfold final_placements.
  destruct (place_all_spec (loaded_images albums covers_dir)) as (M & S & N & _).
  pose proof (tighten_placements_frame (place_all (loaded_images albums covers_dir)) 100)
    as F.
  repeat apply conj.
  - rewrite <- M at 2. by apply same_frame_img.
  - by eapply same_frame_sizes.
  - by apply tighten_placements_no_overlap.
Qed.
End BuildProofs.

(** ** The layout of a build *)


Section LayoutProofs.
Context `{Double} `{Env}.

Lemma pasted_rects_translated (placements : list Placement) (min_x min_y : Z) :
  Forall (fun p => p_w p = i_width (p_img p) /\ p_h p = i_height (p_img p)) placements ->
  map pasted_rect (normalize placements min_x min_y)
  = map (fun p => (p_x p - min_x, p_y p - min_y, p_w p, p_h p)) placements.
Proof.
  intros Hs. unfold normalize. rewrite map_map.
  induction Hs as [|p l [Hw Hh] Hl IH]; simpl; [done|].
  f_equal; [|done]. unfold pasted_rect. simpl. by rewrite Hw, Hh.
Qed.

Lemma no_overlap_translated (placements : list Placement) (min_x min_y : Z) :
  no_overlap placements ->
  no_overlap_rects
    (map (fun p => (p_x p - min_x, p_y p - min_y, p_w p, p_h p)) placements).
Proof.
  intros Hno i j a b Hij Hi Hj.
  apply list_lookup_fmap_Some_1 in Hi as (p & -> & Hi).
  apply list_lookup_fmap_Some_1 in Hj as (q & -> & Hj).
  rewrite rects_overlap_translate. by apply (Hno i j).
Qed.

Lemma pasted_canvas_of (placements : list Placement) (output_file : string) :
  pasted (canvas_of placements output_file)
  = normalize placements (bbox placements).1.1.1 (bbox placements).1.1.2.
Proof.
  unfold canvas_of. by destruct (bbox placements) as [[[min_x min_y] max_x] max_y].
Qed.

Lemma pasted_images (placements : list Placement) (min_x min_y : Z) :
  map (fun t : Image * Z * Z => t.1.1) (normalize placements min_x min_y)
  = map p_img placements.
Proof. unfold normalize. by rewrite map_map. Qed.
End LayoutProofs.

(** C1: a build that has at least one resolvable album saves a canvas on
    which no two pasted rects overlap, and the pasted images are exactly
    the images of the resolvable albums, one rect each. *)
Theorem build_cluster_no_overlap `{Double} `{Env}
    (albums : dict) (covers_dir output_file : string) :
  resolved_images albums covers_dir <> [] ->
  exists canvas,
    (build_cluster albums covers_dir output_file).2 = Some canvas
    /\ no_overlap_rects (map pasted_rect (pasted canvas))
    /\ map (fun t : Image * Z * Z => t.1.1) (pasted canvas)
       ≡ₚ resolved_images albums covers_dir.
Proof.
  intros Hres.
  assert (loaded_images albums covers_dir <> []) as Hl.
  { intros E. by apply loaded_images_nil in E. }
  exists (canvas_of (final_placements albums covers_dir) output_file).
  destruct (final_placements_spec albums covers_dir) as (M & S & N).
  split; [by apply build_cluster_saves|].
  rewrite pasted_canvas_of. split.
  - rewrite pasted_rects_translated by done. by apply no_overlap_translated.
  - rewrite pasted_images, M. apply loaded_images_perm.
Qed.

Lemma build_cluster_no_overlap_witness :
  exists canvas,
    (@build_cluster Exact all_covers scenario_a "covers" "cluster.png").2 = Some canvas
    /\ no_overlap_rects (map pasted_rect (pasted canvas))
    /\ map (fun t : Image * Z * Z => t.1.1) (pasted canvas)
       ≡ₚ @resolved_images Exact all_covers scenario_a "covers".
Proof.
  apply (@build_cluster_no_overlap Exact all_covers scenario_a "covers" "cluster.png").
  by vm_compute.
Defined.

(** C3, as stated, fails: with a large and a small album the small one is
    put to the left of the large one, so that the normalised position of
    the first rect is (50, 0). *)
Lemma first_rect_off_origin :
  exists canvas img,
    (@build_cluster Exact all_covers two_albums "covers" "cluster.png").2 = Some canvas
    /\ head (pasted canvas) = Some (img, 50, 0)
    /\ (50, 0) <> (0, 0).
Proof.
  eexists _, _. split; [by vm_compute|]. split; [by vm_compute | done].
Qed.

(** C3 (amended): the first pasted image is the image of the resolvable
    album with the largest dimension, the first of them in the order of
    the input when several are as large; the placer puts it at (0, 0) of
    its own frame; on the canvas it stands where the tightener left it,
    moved by the minimum corner of the bounding box. *)
Theorem first_rect_is_largest `{Double} `{Env}
    (albums : dict) (covers_dir output_file : string) :
  resolved_images albums covers_dir <> [] ->
  exists canvas img p0 others pre post,
    (build_cluster albums covers_dir output_file).2 = Some canvas
    /\ pasted canvas
       = (img, p_x p0 - (bbox (final_placements albums covers_dir)).1.1.1,
               p_y p0 - (bbox (final_placements albums covers_dir)).1.1.2) :: others
    /\ head (final_placements albums covers_dir) = Some p0
    /\ resolved_images albums covers_dir = pre ++ img :: post
    /\ Forall (fun i => i_width i < i_width img) pre
    /\ Forall (fun i => i_width i <= i_width img) post
    /\ head (place_all (loaded_images albums covers_dir)) = Some (new_placement img 0 0).
Proof.
  intros Hres.
  assert (loaded_images albums covers_dir <> []) as Hl.
  { intros E. by apply loaded_images_nil in E. }
  destruct (final_placements_spec albums covers_dir) as (M & S & N).
  destruct (loaded_images albums covers_dir) as [|img imgs] eqn:El; [done|].
  destruct (final_placements albums covers_dir) as [|p0 ps] eqn:Ef; [done|].
  simpl in M. injection M as M0 Ms.
  pose proof (loaded_images_sorted albums covers_dir) as Hsort. rewrite El in Hsort.
  symmetry in Hsort. apply sort_head in Hsort as (pre & post & Hr & Hpre & Hpost).
  exists (canvas_of (p0 :: ps) output_file), img, p0,
    (normalize ps (bbox (p0 :: ps)).1.1.1 (bbox (p0 :: ps)).1.1.2), pre, post.
  repeat apply conj; try done.
  - rewrite <- Ef. apply build_cluster_saves. by rewrite El.
  - rewrite pasted_canvas_of. simpl. by rewrite M0.
  - destruct (place_all_spec (img :: imgs)) as (_ & _ & _ & Hd). by rewrite Hd.
Qed.

Lemma first_rect_is_largest_witness :
  exists canvas img p0 others pre post,
    (@build_cluster Exact all_covers scenario_a "covers" "cluster.png").2 = Some canvas
    /\ pasted canvas
       = (img, p_x p0 - (bbox (@final_placements Exact all_covers scenario_a "covers")).1.1.1,
               p_y p0 - (bbox (@final_placements Exact all_covers scenario_a "covers")).1.1.2)
           :: others
    /\ head (@final_placements Exact all_covers scenario_a "covers") = Some p0
    /\ @resolved_images Exact all_covers scenario_a "covers" = pre ++ img :: post
    /\ Forall (fun i => i_width i < i_width img) pre
    /\ Forall (fun i => i_width i <= i_width img) post
    /\ head (place_all (@loaded_images Exact all_covers scenario_a "covers"))
       = Some (new_placement img 0 0).
Proof.
  apply (@first_rect_is_largest Exact all_covers scenario_a "covers" "cluster.png").
  by vm_compute.
Defined.

(** ** The messages of a build *)


Section LogProofs.
Context `{Double} `{Env}.

Lemma scale_covers_log (albums : dict) (covers_dir : string) (min_count max_count : Z) :
  let res := scale_covers albums covers_dir min_count max_count in
  Forall (fun m => is_Some (excluded_name m)) res.2
  /\ omap excluded_name res.2 ++ map c_name res.1 ≡ₚ map fst albums.
Proof.
  induction albums as [|[album_name count] rest IH]; [done|].
  cbn [scale_covers].
  destruct (scale_covers rest covers_dir min_count max_count) as [cs ws].
  destruct IH as [IH1 IH2].
  destruct (get_cover_path album_name covers_dir).
  - split; [done|]. cbn [fst snd map]. rewrite <- IH2. symmetry. apply Permutation_middle.
  - split; [constructor; [by eexists | done] |].
    cbn [fst snd map]. rewrite (omap_cons excluded_name). simpl.
    apply Permutation_skip. exact IH2.
Qed.

Lemma load_images_log (scaled_covers : list Cover) :
  (load_images scaled_covers).1 = [] ->
  Forall (fun m => is_Some (excluded_name m)) (load_images scaled_covers).2
  /\ omap excluded_name (load_images scaled_covers).2 = map c_name scaled_covers.
Proof.
  induction scaled_covers as [|c rest IH]; [done|].
  cbn [load_images]. destruct (load_images rest) as [imgs errs].
  destruct (open_image (c_path c) (c_size c)); cbn [fst snd]; [done|].
  intros E. destruct (IH E) as [IH1 IH2].
  split; [constructor; [by eexists | done] |].
  rewrite (omap_cons excluded_name). simpl. f_equal. exact IH2.
Qed.

Lemma resolved_images_none (albums : dict) (covers_dir : string) :
  Forall (fun entry => resolve albums covers_dir entry = None) albums ->
  resolved_images albums covers_dir = [].
Proof.
  unfold resolved_images. generalize (resolve albums covers_dir). intros f Hf.
  induction Hf as [|e l He Hl IH]; [done|].
  simpl. rewrite He. exact IH.
Qed.
End LogProofs.

(** C9: when no album resolves to an image, the build saves nothing, its
    last message is one of the three that announce the abort, and the
    messages before it report every album of the input as excluded, once
    each. *)
Theorem build_cluster_without_images `{Double} `{Env}
    (albums : dict) (covers_dir output_file : string) :
  Forall (fun entry => resolve albums covers_dir entry = None) albums ->
  exists msgs abort,
    build_cluster albums covers_dir output_file = (msgs ++ [abort], None)
    /\ is_abort abort = true
    /\ Forall (fun m => is_Some (excluded_name m)) msgs
    /\ omap excluded_name msgs ≡ₚ map fst albums.
Proof.
  intros Hnone. apply resolved_images_none in Hnone.
  apply loaded_images_nil in Hnone. unfold loaded_images in Hnone.
  unfold build_cluster.
  destruct albums as [|e albums'].
  { exists [], NoAlbumsFound. by repeat apply conj. }
  set (albums := e :: albums') in *.
  pose proof (scale_covers_log albums covers_dir
                (min_of (map snd albums)) (max_of (map snd albums))) as Hlog.
  destruct (scale_covers albums covers_dir _ _) as [cs ws]. cbn [fst snd] in Hlog, Hnone.
  destruct Hlog as [Hw Hp].
  destruct cs as [|c cs'].
  { exists ws, NoAlbumCoversFound. repeat apply conj; try done.
    by rewrite app_nil_r in Hp. }
  set (cs := c :: cs') in *.
  pose proof (load_images_log (sort_covers cs) Hnone) as [He Hn].
  destruct (load_images (sort_covers cs)) as [imgs errs]. cbn [fst snd] in *. subst imgs.
  exists (ws ++ errs), NoImagesLoaded. repeat apply conj.
  - by rewrite <- app_assoc.
  - done.
  - by apply Forall_app.
  - rewrite omap_app, Hn, <- Hp. apply Permutation_app_head.
    change (c_name <$> sort_covers cs ≡ₚ c_name <$> cs). f_equiv. apply sort_perm.
Qed.

Lemma build_cluster_without_images_witness :
  exists msgs abort,
    @build_cluster Exact no_covers scenario_a "covers" "cluster.png" = (msgs ++ [abort], None)
    /\ is_abort abort = true
    /\ Forall (fun m => is_Some (excluded_name m)) msgs
    /\ omap excluded_name msgs ≡ₚ map fst scenario_a.
Proof.
  apply (@build_cluster_without_images Exact no_covers scenario_a "covers" "cluster.png").
  repeat constructor.
Defined.

(** ** The frame of the rects *)

Section FrameProofs.
Context `{Double} `{Env}.

Lemma resolve_size (albums : dict) (covers_dir : string) (entry : string * Z) (img : Image) :
  resolve albums covers_dir entry = Some img ->
  i_width img
  = scale_dimension entry.2 (min_of (map snd albums)) (max_of (map snd albums)) 50 300
  /\ i_height img = i_width img.
Proof.
  unfold resolve, cover_of. destruct (get_cover_path entry.1 covers_dir); [|done].
  simpl. unfold image_of. simpl. destruct (open_image _ _); [|done].
  by intros [= <-].
Qed.

Lemma place_all_snoc (images : list Image) (img : Image) :
  images <> [] ->
  place_all (images ++ [img])
  = place_all images ++ [place_image (place_all images) img].
Proof.
  destruct images as [|first_img others]; [done|]. intros _.
  simpl. by rewrite fold_left_app.
Qed.
End FrameProofs.

(** C10: every rect the placer creates is a square whose side is the
    scaled dimension of the album its image comes from; placing a further
    image leaves the rects already placed as they are; and the tightener
    changes no image, no width and no height, in a list of the same
    length and order. *)
Theorem placed_rect_frame `{Double} `{Env} :
  (forall albums covers_dir,
     Forall (fun p =>
               exists entry, entry ∈ albums
                 /\ resolve albums covers_dir entry = Some (p_img p)
                 /\ p_w p = scale_dimension entry.2 (min_of (map snd albums))
                              (max_of (map snd albums)) 50 300
                 /\ p_h p = p_w p)
       (place_all (loaded_images albums covers_dir)))
  /\ (forall images img, images <> [] ->
        place_all (images ++ [img])
        = place_all images ++ [place_image (place_all images) img])
  /\ (forall placements max_passes,
        map frame (tighten_placements placements max_passes) = map frame placements).
Proof.
  repeat apply conj.
  - intros albums covers_dir.
    destruct (place_all_spec (loaded_images albums covers_dir)) as (M & S & _).
    apply Forall_forall. intros p Hp.
    rewrite Forall_forall in S. destruct (S p Hp) as [Hw Hh].
    assert (p_img p ∈ resolved_images albums covers_dir) as Hin.
    { rewrite <- loaded_images_perm, <- M. by apply list_elem_of_fmap_2. }
    apply list_elem_of_omap in Hin as (entry & He & Hr).
    destruct (resolve_size _ _ _ _ Hr) as [Hsz Hsq].
    exists entry. repeat apply conj; try done; congruence.
  - intros images img. apply place_all_snoc.
  - intros placements max_passes. apply tighten_placements_frame.
Qed.

(** ** Running the tightener again *)

(** C4, as stated, fails: the first run stops after its hundred passes,
    each of which moves both squares by three pixels, and the second run
    goes on from there. *)
Lemma tighten_twice_moves_again :
  map rect_of (@tighten_placements Exact far_apart 100)
    = [(300, 0, 10, 10); (9700, 0, 10, 10)]
  /\ map rect_of (@tighten_placements Exact (@tighten_placements Exact far_apart 100) 100)
    = [(600, 0, 10, 10); (9400, 0, 10, 10)]
  /\ @tighten_placements Exact (@tighten_placements Exact far_apart 100) 100
     <> @tighten_placements Exact far_apart 100.
Proof. split; [by vm_compute | split; by vm_compute]. Qed.

(** the layout of the placer itself need not settle: the two rects keep
    swinging by one pixel around each other, and a pass over the result of
    the first run moves them again *)
Example tighten_large_and_small_swings :
  (@tighten_pass Exact (@tighten_placements Exact large_and_small 100)).2 = true
  /\ map rect_of (@tighten_placements Exact large_and_small 100)
     = [(0, -62, 300, 300); (-50, 62, 50, 50)]
  /\ map rect_of (@tighten_placements Exact large_and_small 101)
     = [(0, -63, 300, 300); (-50, 63, 50, 50)].
Proof. split; [by vm_compute | split; by vm_compute]. Qed.

(** C4 (amended): when the first run ends at a fixed point, that is when
    a pass over its result moves no rect, a second run returns that result
    unchanged, whatever its number of passes. *)
Theorem tighten_twice_at_fixed_point `{Double}
    (placements : list Placement) (max_passes again : nat) :
  (tighten_pass (tighten_placements placements max_passes)).2 = false ->
  tighten_placements (tighten_placements placements max_passes) again
  = tighten_placements placements max_passes.
Proof. intros Hfix. by apply tighten_placements_fixed. Qed.

Lemma tighten_twice_at_fixed_point_witness :
  @tighten_placements Exact (@tighten_placements Exact side_by_side 100) 100
  = @tighten_placements Exact side_by_side 100.
Proof.
  apply (@tighten_twice_at_fixed_point Exact side_by_side 100 100). by vm_compute.
Defined.

(** ** The spiral search *)





Section SpiralProofs.
Context `{Double}.





End SpiralProofs.



(** the bound of the code is the tighter of the two: around a 300 x 300
    bounding box and for a 50 x 50 image the radii go by 25 up to 775, as
    they stay below 300 + 500; 800 lies below the diagonal plus 500 and is
    not tried. *)
Lemma spiral_radius_bound_not_diagonal :
  @spiral_step Exact 50 50 = 25
  /\ spiral_max_radius 0 0 300 300 50 50 = 800
  /\ within_claimed_bound 0 0 300 300 50 50 800 = true
  /\ (800 ∉ range_step (@spiral_step Exact 50 50) (spiral_max_radius 0 0 300 300 50 50)
             (@spiral_step Exact 50 50))
  /\ last (range_step (@spiral_step Exact 50 50) (spiral_max_radius 0 0 300 300 50 50)
             (@spiral_step Exact 50 50)) = Some 775.
Proof.
  split; [by vm_compute|]. split; [by vm_compute|]. split; [by vm_compute|].
  split; [|by vm_compute].
  intros Hin. apply list_elem_of_In in Hin. vm_compute in Hin.
  repeat (destruct Hin as [Hin | Hin]; [discriminate Hin|]). exact Hin.
Qed.



(** ** What the layout depends on *)

Lemma same_rect_fields (p q : Placement) :
  same_rect p q -> p_x p = p_x q /\ p_y p = p_y q /\ p_w p = p_w q /\ p_h p = p_h q.
Proof. unfold same_rect, rect_of. by intros [= -> -> -> ->]. Qed.

Lemma same_rects_map (ps qs : list Placement) :
  same_rects ps qs -> map rect_of ps = map rect_of qs.
Proof. induction 1 as [|p q ps qs Hpq _ IH]; simpl; [done | by rewrite Hpq, IH]. Qed.

Lemma same_rects_field {A : Type} (f : Rect -> A) (ps qs : list Placement) :
  same_rects ps qs -> map (fun p => f (rect_of p)) ps = map (fun p => f (rect_of p)) qs.
Proof. induction 1 as [|p q ps qs Hpq _ IH]; simpl; [done | by rewrite Hpq, IH]. Qed.

Lemma same_rects_bbox (ps qs : list Placement) : same_rects ps qs -> bbox ps = bbox qs.
Proof.
  intros Hs. unfold bbox.
  assert (map p_x ps = map p_x qs) as Hx
    by exact (same_rects_field (fun r => r.1.1.1) ps qs Hs).
  assert (map p_y ps = map p_y qs) as Hy
    by exact (same_rects_field (fun r => r.1.1.2) ps qs Hs).
  assert (map (fun p => p_x p + p_w p) ps = map (fun p => p_x p + p_w p) qs) as Hxw
    by exact (same_rects_field (fun r => r.1.1.1 + r.1.2) ps qs Hs).
  assert (map (fun p => p_y p + p_h p) ps = map (fun p => p_y p + p_h p) qs) as Hyh
    by exact (same_rects_field (fun r => r.1.1.2 + r.2) ps qs Hs).
  by rewrite Hx, Hy, Hxw, Hyh.
Qed.

Lemma same_rects_any_overlap (rect : Rect) (ps qs : list Placement) :
  same_rects ps qs -> any_overlap rect ps = any_overlap rect qs.
Proof.
  unfold any_overlap. induction 1 as [|p q ps qs Hpq _ IH]; [done|].
  cbn [existsb]. by rewrite Hpq, IH.
Qed.

Lemma same_rect_touches (cx cy iw ih : Z) (p q : Placement) :
  same_rect p q -> touches cx cy iw ih p = touches cx cy iw ih q.
Proof.
  intros Hpq. apply same_rect_fields in Hpq as (Hx & Hy & Hw & Hh).
  unfold touches. by rewrite Hx, Hy, Hw, Hh.
Qed.

Lemma same_rects_scan_placed (cx cy iw ih : Z) (ps qs : list Placement) (touching : bool) :
  same_rects ps qs ->
  scan_placed cx cy iw ih ps touching = scan_placed cx cy iw ih qs touching.
Proof.
  intros Hs. revert touching. induction Hs as [|p q ps qs Hpq _ IH]; intros touching; [done|].
  cbn [scan_placed]. rewrite Hpq, (same_rect_touches _ _ _ _ p q Hpq).
  destruct (rects_overlap _ _); [done | apply IH].
Qed.

Lemma same_rects_around (iw ih : Z) (ps qs : list Placement) :
  same_rects ps qs ->
  flat_map (fun p => candidates_around (p_x p) (p_y p) (p_w p) (p_h p) iw ih) ps
  = flat_map (fun p => candidates_around (p_x p) (p_y p) (p_w p) (p_h p) iw ih) qs.
Proof.
  induction 1 as [|p q ps qs Hpq _ IH]; [done|].
  apply same_rect_fields in Hpq as (Hx & Hy & Hw & Hh).
  cbn [flat_map]. by rewrite Hx, Hy, Hw, Hh, IH.
Qed.

Lemma same_rects_can_place_from (j : nat) (ps qs : list Placement) (idx : nat) (rect : Rect) :
  same_rects ps qs -> can_place_from j ps idx rect = can_place_from j qs idx rect.
Proof.
  intros Hs. revert j. induction Hs as [|p q ps qs Hpq _ IH]; intros j; [done|].
  cbn [can_place_from]. by rewrite Hpq, !IH.
Qed.

Lemma same_rects_can_place_at (ps qs : list Placement) (idx : nat) (x y : Z) :
  same_rects ps qs -> can_place_at ps idx x y = can_place_at qs idx x y.
Proof.
  intros Hs. unfold can_place_at.
  destruct (ps !! idx) as [p|] eqn:Ep.
  - destruct (Forall2_lookup_l _ _ _ _ _ Hs Ep) as (q & -> & Hpq).
    apply same_rect_fields in Hpq as (_ & _ & -> & ->).
    by apply same_rects_can_place_from.
  - destruct (qs !! idx) as [q|] eqn:Eq; [|done].
    destruct (Forall2_lookup_r _ _ _ _ _ Hs Eq) as (p & Ep' & _). congruence.
Qed.

Lemma same_rects_alter (f : Placement -> Placement) (i : nat) (ps qs : list Placement) :
  (forall p q, same_rect p q -> same_rect (f p) (f q)) ->
  same_rects ps qs -> same_rects (alter f i ps) (alter f i qs).
Proof. intros Hf Hs. apply Forall2_alter; [done|]. intros p q _ _. apply Hf. Qed.

Lemma same_rect_set_x (v : Z) (p q : Placement) :
  same_rect p q -> same_rect (set_x v p) (set_x v q).
Proof.
  intros Hpq. apply same_rect_fields in Hpq as (Hx & Hy & Hw & Hh).
  unfold same_rect, rect_of. simpl. by rewrite Hy, Hw, Hh.
Qed.

Lemma same_rect_set_y (v : Z) (p q : Placement) :
  same_rect p q -> same_rect (set_y v p) (set_y v q).
Proof.
  intros Hpq. apply same_rect_fields in Hpq as (Hx & Hy & Hw & Hh).
  unfold same_rect, rect_of. simpl. by rewrite Hx, Hw, Hh.
Qed.

Lemma imap_ext_rel {A B C : Type} (R : A -> B -> Prop) (f : nat -> A -> C) (g : nat -> B -> C)
    (l1 : list A) (l2 : list B) :
  Forall2 R l1 l2 -> (forall i a b, R a b -> f i a = g i b) -> imap f l1 = imap g l2.
Proof.
  intros HR. revert f g. induction HR as [|a b l1 l2 Hab _ IH]; intros f g Hfg; [done|].
  simpl. f_equal; [by apply Hfg|]. apply IH. intros i a' b' Hr. by apply Hfg.
Qed.

Section SameRects.
Context `{Double}.

Lemma same_rects_score (ps qs : list Placement) (iw ih : Z) (candidates : list (Z * Z)) :
  same_rects ps qs -> score ps iw ih candidates = score qs iw ih candidates.
Proof.
  intros Hs. induction candidates as [|[cx cy] rest IH]; [done|].
  cbn [score]. rewrite (same_rects_scan_placed cx cy iw ih ps qs false Hs).
  destruct (scan_placed cx cy iw ih qs false) as [overlap touching].
  destruct overlap; by rewrite IH.
Qed.

Lemma same_rects_scan_angles (ps qs : list Placement) (center_x center_y : Q)
    (r iw ih : Z) (angles : list Z) :
  same_rects ps qs ->
  scan_angles ps center_x center_y r iw ih angles
  = scan_angles qs center_x center_y r iw ih angles.
Proof.
  intros Hs. induction angles as [|a rest IH]; [done|].
  cbn [scan_angles]. destruct (spiral_point center_x center_y r a) as [cx cy].
  rewrite (same_rects_any_overlap _ ps qs Hs). by rewrite IH.
Qed.

Lemma same_rects_spiral_loop (fuel : nat) (ps qs : list Placement) (center_x center_y : Q)
    (max_radius step iw ih r : Z) :
  same_rects ps qs ->
  spiral_loop fuel ps center_x center_y max_radius step iw ih r
  = spiral_loop fuel qs center_x center_y max_radius step iw ih r.
Proof.
  intros Hs. revert r. induction fuel as [|fuel IH]; intros r; [done|].
  cbn [spiral_loop]. rewrite (same_rects_scan_angles ps qs _ _ _ _ _ _ Hs).
  by rewrite IH.
Qed.

Lemma same_rects_spiral_search (ps qs : list Placement) (iw ih : Z) :
  same_rects ps qs -> spiral_search ps iw ih = spiral_search qs iw ih.
Proof.
  intros Hs. unfold spiral_search. rewrite (same_rects_bbox ps qs Hs).
  destruct (bbox qs) as [[[min_x min_y] max_x] max_y].
  by apply same_rects_spiral_loop.
Qed.

Lemma same_rects_candidates_of (ps qs : list Placement) (iw ih : Z) :
  same_rects ps qs -> candidates_of ps iw ih = candidates_of qs iw ih.
Proof.
  intros Hs. unfold candidates_of.
  by rewrite (same_rects_bbox ps qs Hs), (same_rects_around iw ih ps qs Hs).
Qed.

Lemma same_rects_place_image (ps qs : list Placement) (img1 img2 : Image) :
  same_rects ps qs -> same_size img1 img2 ->
  same_rect (place_image ps img1) (place_image qs img2).
Proof.
  intros Hs [Hw Hh]. unfold place_image. rewrite <- Hw, <- Hh.
  rewrite (same_rects_candidates_of ps qs _ _ Hs), (same_rects_score ps qs _ _ _ Hs).
  rewrite (same_rects_spiral_search ps qs _ _ Hs), (same_rects_bbox ps qs Hs).
  destruct (sort scored_le _) as [|[[[[n d] x] y] t] rest].
  - destruct (spiral_search qs (i_width img1) (i_height img1)) as [[cx cy]|].
    + unfold same_rect, rect_of. simpl. by rewrite Hw, Hh.
    + destruct (bbox qs) as [[[min_x min_y] max_x] max_y].
      unfold same_rect, rect_of. simpl. by rewrite Hw, Hh.
  - unfold same_rect, rect_of. simpl. by rewrite Hw, Hh.
Qed.

Lemma same_rects_place_all (images1 images2 : list Image) :
  Forall2 same_size images1 images2 ->
  same_rects (place_all images1) (place_all images2).
Proof.
  intros Hs. destruct Hs as [|img1 img2 rest1 rest2 [Hw Hh] Hrest]; [constructor|].
  simpl.
  assert (same_rects [new_placement img1 0 0] [new_placement img2 0 0]) as Hacc.
  { constructor; [|constructor]. unfold same_rect, rect_of. simpl. by rewrite Hw, Hh. }
  revert Hacc. generalize [new_placement img1 0 0], [new_placement img2 0 0].
  induction Hrest as [|a b l1 l2 Hab _ IH]; intros ps qs Hacc; [done|].
  simpl. apply IH. apply Forall2_app; [done|].
  constructor; [|constructor]. by apply same_rects_place_image.
Qed.

Lemma same_rects_nudge (steps : nat) (center_x center_y : Q) (i : nat) (px py pw ph : Z)
    (ps qs : list Placement) (moved_any : bool) :
  same_rects ps qs ->
  same_rects (nudge steps center_x center_y i px py pw ph ps moved_any).1
             (nudge steps center_x center_y i px py pw ph qs moved_any).1
  /\ (nudge steps center_x center_y i px py pw ph ps moved_any).2
     = (nudge steps center_x center_y i px py pw ph qs moved_any).2.
Proof.
  revert px py ps qs moved_any.
  induction steps as [|steps IH]; intros px py ps qs moved_any Hs; [done|].
  cbn [nudge].
  set (step_x := sign _). set (step_y := sign (fsub center_y _)).
  rewrite (same_rects_can_place_at ps qs i _ _ Hs).
  destruct (negb (step_x =? 0) && can_place_at qs i (px + step_x) py).
  - pose proof (same_rects_alter (set_x (px + step_x)) i ps qs
                  (same_rect_set_x _) Hs) as Hs1.
    rewrite (same_rects_can_place_at _ _ i _ _ Hs1).
    destruct (negb (step_y =? 0) && can_place_at _ i (px + step_x) (py + step_y)).
    + cbn [orb]. apply IH. by apply same_rects_alter; [apply same_rect_set_y|].
    + cbn [orb]. by apply IH.
  - rewrite (same_rects_can_place_at ps qs i _ _ Hs).
    destruct (negb (step_y =? 0) && can_place_at qs i px (py + step_y)).
    + cbn [orb]. apply IH. by apply same_rects_alter; [apply same_rect_set_y|].
    + done.
Qed.

Lemma same_rects_nudge_all (order : list nat) (center_x center_y : Q)
    (ps qs : list Placement) (moved_any : bool) :
  same_rects ps qs ->
  same_rects (nudge_all order center_x center_y ps moved_any).1
             (nudge_all order center_x center_y qs moved_any).1
  /\ (nudge_all order center_x center_y ps moved_any).2
     = (nudge_all order center_x center_y qs moved_any).2.
Proof.
  revert ps qs moved_any.
  induction order as [|i rest IH]; intros ps qs moved_any Hs; [done|].
  cbn [nudge_all].
  destruct (ps !! i) as [p|] eqn:Ep.
  - destruct (Forall2_lookup_l _ _ _ _ _ Hs Ep) as (q & -> & Hpq).
    apply same_rect_fields in Hpq as (-> & -> & -> & ->).
    pose proof (same_rects_nudge 3 center_x center_y i (p_x q) (p_y q) (p_w q) (p_h q)
                  ps qs moved_any Hs) as [Hl Hm].
    destruct (nudge 3 center_x center_y i (p_x q) (p_y q) (p_w q) (p_h q) ps moved_any)
      as [ps' m1].
    destruct (nudge 3 center_x center_y i (p_x q) (p_y q) (p_w q) (p_h q) qs moved_any)
      as [qs' m2].
    cbn [fst snd] in *. subst m2. by apply IH.
  - destruct (qs !! i) as [q|] eqn:Eq.
    + destruct (Forall2_lookup_r _ _ _ _ _ Hs Eq) as (p & Ep' & _). congruence.
    + by apply IH.
Qed.

Lemma same_rects_center_of (ps qs : list Placement) :
  same_rects ps qs -> center_of ps = center_of qs.
Proof.
  intros Hs. unfold center_of.
  assert (map (fun p => fadd (of_int (p_x p)) (fdiv (of_int (p_w p)) 2)) ps
          = map (fun p => fadd (of_int (p_x p)) (fdiv (of_int (p_w p)) 2)) qs) as Hx
    by exact (same_rects_field
                (fun r => fadd (of_int r.1.1.1) (fdiv (of_int r.1.2) 2)) ps qs Hs).
  assert (map (fun p => fadd (of_int (p_y p)) (fdiv (of_int (p_h p)) 2)) ps
          = map (fun p => fadd (of_int (p_y p)) (fdiv (of_int (p_h p)) 2)) qs) as Hy
    by exact (same_rects_field
                (fun r => fadd (of_int r.1.1.2) (fdiv (of_int r.2) 2)) ps qs Hs).
  by rewrite Hx, Hy.
Qed.

Lemma same_rects_processing_order (ps qs : list Placement) (center_x center_y : Q) :
  same_rects ps qs ->
  processing_order ps center_x center_y = processing_order qs center_x center_y.
Proof.
  intros Hs. unfold processing_order. do 2 f_equal.
  apply (imap_ext_rel same_rect); [done|].
  intros i p q Hpq. apply same_rect_fields in Hpq as (-> & -> & -> & ->). done.
Qed.

Lemma same_rects_tighten_pass (ps qs : list Placement) :
  same_rects ps qs ->
  same_rects (tighten_pass ps).1 (tighten_pass qs).1
  /\ (tighten_pass ps).2 = (tighten_pass qs).2.
Proof.
  intros Hs. unfold tighten_pass. rewrite (same_rects_center_of ps qs Hs).
  destruct (center_of qs) as [center_x center_y].
  rewrite (same_rects_processing_order ps qs _ _ Hs).
  by apply same_rects_nudge_all.
Qed.

Lemma same_rects_tighten (ps qs : list Placement) (max_passes : nat) :
  same_rects ps qs ->
  same_rects (tighten_placements ps max_passes) (tighten_placements qs max_passes).
Proof.
  revert ps qs. induction max_passes as [|n IH]; intros ps qs Hs; [done|].
  cbn [tighten_placements].
  destruct (same_rects_tighten_pass ps qs Hs) as [Hl Hm].
  destruct (tighten_pass ps) as [ps' m1], (tighten_pass qs) as [qs' m2].
  cbn [fst snd] in *. subst m2. destruct m1; [by apply IH | done].
Qed.
End SameRects.

(** ** Two runs *)

Lemma same_size_insert_sorted (a b : Image) (l1 l2 : list Image) :
  same_size a b -> Forall2 same_size l1 l2 ->
  Forall2 same_size (insert_sorted (key_ge i_width) a l1)
                    (insert_sorted (key_ge i_width) b l2).
Proof.
  intros Hab Hl. induction Hl as [|x y l1 l2 Hxy Hl IH]; simpl.
  - constructor; [done | constructor].
  - unfold key_ge. rewrite (proj1 Hab), (proj1 Hxy).
    destruct (i_width y <=? i_width b).
    + constructor; [done|]. by constructor.
    + constructor; [done | apply IH].
Qed.

Lemma same_size_sort (l1 l2 : list Image) :
  Forall2 same_size l1 l2 ->
  Forall2 same_size (sort (key_ge i_width) l1) (sort (key_ge i_width) l2).
Proof.
  induction 1 as [|a b l1 l2 Hab _ IH]; simpl; [constructor|].
  by apply same_size_insert_sorted.
Qed.

Lemma Forall2_omap_rel {A B C D : Type} (R : A -> B -> Prop) (S : C -> D -> Prop)
    (f : A -> option C) (g : B -> option D) (l1 : list A) (l2 : list B) :
  Forall2 R l1 l2 ->
  (forall a b, R a b -> option_Forall2 S (f a) (g b)) ->
  Forall2 S (omap f l1) (omap g l2).
Proof.
  intros HR Hfg. induction HR as [|a b l1 l2 Hab _ IH]; [constructor|].
  rewrite (omap_cons f a l1), (omap_cons g b l2).
  destruct (Hfg a b Hab); [by constructor | done].
Qed.

Lemma Forall2_with_snd {A B : Type} (R : A * B -> A * B -> Prop) (l1 l2 : list (A * B)) :
  map snd l1 = map snd l2 -> Forall2 R l1 l2 ->
  Forall2 (fun e1 e2 => e1.2 = e2.2 /\ R e1 e2) l1 l2.
Proof.
  intros Hm HR. induction HR as [|a b l1 l2 Hab _ IH]; [constructor|].
  simpl in Hm. injection Hm as H1 H2. constructor; [done | by apply IH].
Qed.

Section TwoRuns.
Context `{Double} (E1 E2 : Env).

Lemma resolved_same_size (albums1 albums2 : dict) (dir1 dir2 : string) :
  map snd albums1 = map snd albums2 ->
  Forall2 (fun e1 e2 => is_Some (@resolve _ E1 albums1 dir1 e1)
                        <-> is_Some (@resolve _ E2 albums2 dir2 e2)) albums1 albums2 ->
  Forall2 same_size (@resolved_images _ E1 albums1 dir1) (@resolved_images _ E2 albums2 dir2).
Proof.
  intros Hm HR. unfold resolved_images.
  eapply Forall2_omap_rel; [exact (Forall2_with_snd _ _ _ Hm HR)|].
  intros e1 e2 [Hc Hiff]. simpl in Hiff.
  destruct (@resolve _ E1 albums1 dir1 e1) as [img1|] eqn:R1;
    destruct (@resolve _ E2 albums2 dir2 e2) as [img2|] eqn:R2.
  - constructor.
    destruct (@resolve_size _ E1 _ _ _ _ R1) as [W1 H1].
    destruct (@resolve_size _ E2 _ _ _ _ R2) as [W2 H2].
    unfold same_size. rewrite H1, H2, W1, W2, Hm, Hc. done.
  - destruct Hiff as [Hiff _]. destruct Hiff as [x Hx]; [by eexists | done].
  - destruct Hiff as [_ Hiff]. destruct Hiff as [x Hx]; [by eexists | done].
  - constructor.
Qed.

Lemma geometry_canvas_of (ps qs : list Placement) (out1 out2 : string) :
  Forall (fun p => p_w p = i_width (p_img p) /\ p_h p = i_height (p_img p)) ps ->
  Forall (fun p => p_w p = i_width (p_img p) /\ p_h p = i_height (p_img p)) qs ->
  same_rects ps qs ->
  geometry (canvas_of ps out1) = geometry (canvas_of qs out2).
Proof.
  intros Hp Hq Hs. unfold geometry, canvas_of. rewrite (same_rects_bbox ps qs Hs).
  destruct (bbox qs) as [[[min_x min_y] max_x] max_y]. simpl.
  rewrite !pasted_rects_translated by done. f_equal.
  exact (same_rects_field
           (fun r => (r.1.1.1 - min_x, r.1.1.2 - min_y, r.1.2, r.2)) ps qs Hs).
Qed.
End TwoRuns.

(** C7: the geometry of what a build saves, the size of the canvas and
    the sequence of the rects with their positions and sizes, is a
    function of the weights in their order and of which albums resolve to
    an image: two runs that agree on these save the same geometry, or both
    save nothing; in particular two runs on the same input. *)
Theorem build_cluster_deterministic `{Double} (E1 E2 : Env)
    (albums1 albums2 : dict) (dir1 dir2 out1 out2 : string) :
  map snd albums1 = map snd albums2 ->
  Forall2 (fun e1 e2 => is_Some (@resolve _ E1 albums1 dir1 e1)
                        <-> is_Some (@resolve _ E2 albums2 dir2 e2)) albums1 albums2 ->
  geometry <$> (@build_cluster _ E1 albums1 dir1 out1).2
  = geometry <$> (@build_cluster _ E2 albums2 dir2 out2).2.
Proof.
  intros Hm HR.
  pose proof (resolved_same_size E1 E2 albums1 albums2 dir1 dir2 Hm HR) as Hres.
  apply same_size_sort in Hres.
  rewrite <- (@loaded_images_sorted _ E1), <- (@loaded_images_sorted _ E2) in Hres.
  destruct (@loaded_images _ E1 albums1 dir1) as [|img1 imgs1] eqn:L1.
  - apply Forall2_nil_inv_l in Hres.
    by rewrite (@build_cluster_aborts _ E1), (@build_cluster_aborts _ E2).
  - destruct (@loaded_images _ E2 albums2 dir2) as [|img2 imgs2] eqn:L2.
    { by apply Forall2_nil_inv_r in Hres. }
    rewrite (@build_cluster_saves _ E1), (@build_cluster_saves _ E2) by congruence.
    simpl. f_equal.
    destruct (@final_placements_spec _ E1 albums1 dir1) as (_ & S1 & _).
    destruct (@final_placements_spec _ E2 albums2 dir2) as (_ & S2 & _).
    apply geometry_canvas_of; try done.
    unfold final_placements. rewrite L1, L2.
    by apply same_rects_tighten, same_rects_place_all.
Qed.

Lemma build_cluster_deterministic_witness :
  geometry <$> (@build_cluster Exact all_covers scenario_a "covers" "cluster.png").2
  = geometry <$> (@build_cluster Exact all_covers scenario_a_renamed "art" "out.png").2.
Proof.
  apply (@build_cluster_deterministic Exact all_covers all_covers
           scenario_a scenario_a_renamed "covers" "art" "cluster.png" "out.png").
  - reflexivity.
  - repeat constructor; intros _; vm_compute; by eexists.
Defined.

(** ** Further properties of the geometry *)

(** X1: two rects of positive size overlap, for [rects_overlap], exactly
    when some pixel lies in both, a rect covering the pixels from its corner
    up to, not including, corner plus size. *)
Theorem rects_overlap_iff_shared_pixel (ax ay aw ah bx b_y bw bh : Z) :
  0 < aw -> 0 < ah -> 0 < bw -> 0 < bh ->
  rects_overlap (ax, ay, aw, ah) (bx, b_y, bw, bh) = true
  <-> exists x y, covers (ax, ay, aw, ah) x y /\ covers (bx, b_y, bw, bh) x y.
Proof. apply rects_overlap_shared_pixel. Qed.

Lemma rects_overlap_iff_shared_pixel_witness :
  rects_overlap (0, 0, 10, 10) (5, 5, 10, 10) = true
  <-> exists x y, covers (0, 0, 10, 10) x y /\ covers (5, 5, 10, 10) x y.
Proof. apply (rects_overlap_iff_shared_pixel 0 0 10 10 5 5 10 10); lia. Defined.

(** X2: for a rect of the list, [can_place_at] accepts a position exactly
    when the rect, put there at its own size, overlaps none of the other
    rects; its own present position plays no part. *)
Theorem can_place_at_iff (placements : list Placement) (idx : nat) (p : Placement) (x y : Z) :
  placements !! idx = Some p ->
  can_place_at placements idx x y = true
  <-> forall j q, j <> idx -> placements !! j = Some q ->
        rects_overlap (x, y, p_w p, p_h p) (rect_of q) = false.
Proof.
  intros Hp. rewrite can_place_at_true. split.
  - intros (p' & Hp' & Hall) j q Hj Hq. simplify_eq. exact (Hall j q Hq Hj).
  - intros Hall. exists p. split; [done|]. intros j q Hq Hj. exact (Hall j q Hj Hq).
Qed.

Lemma can_place_at_iff_witness :
  can_place_at side_by_side 1 11 0 = true
  <-> forall j q, j <> 1%nat -> side_by_side !! j = Some q ->
        rects_overlap (11, 0, 10, 10) (rect_of q) = false.
Proof.
  pose proof (can_place_at_iff side_by_side 1
                {| p_img := {| i_path := "b"; i_width := 10; i_height := 10 |};
                   p_x := 10; p_y := 0; p_w := 10; p_h := 10 |} 11 0 eq_refl) as Hiff.
  exact Hiff.
Defined.

(** X3: the tightener never makes two rects overlap: a list of rects, not
    empty and free of overlaps, is free of overlaps after any number of
    passes. *)
Theorem tighten_placements_keeps_no_overlap `{Double}
    (placements : list Placement) (max_passes : nat) :
  placements <> [] ->
  no_overlap placements -> no_overlap (tighten_placements placements max_passes).
Proof. intros _. apply tighten_placements_no_overlap. Qed.

Lemma tighten_placements_keeps_no_overlap_witness :
  no_overlap (@tighten_placements Exact far_apart 100).
Proof.
  apply (@tighten_placements_keeps_no_overlap Exact far_apart 100); [done|].
  intros i j p q Hij Hi Hj.
  destruct i as [|[|i]], j as [|[|j]]; simpl in Hi, Hj; simplify_eq; try done;
    by vm_compute.
Defined.

(** ** The candidates of the placer *)

Lemma dedupe_elem (cand_set : list (Z * Z)) (seen : gset (Z * Z)) (key : Z * Z) :
  key ∈ dedupe cand_set seen <-> key ∈ cand_set /\ key ∉ seen.
Proof.
  revert seen. induction cand_set as [|c rest IH]; intros seen; simpl.
  - rewrite !elem_of_nil. tauto.
  - case_bool_decide as Hc.
    + rewrite IH, elem_of_cons. split; [tauto|].
      intros [[-> | Hin] Hn]; [done | tauto].
    + rewrite !elem_of_cons, IH. split.
      * intros [-> | [Hin Hn]]; [tauto|]. split; [tauto | set_solver].
      * intros [[-> | Hin] Hn]; [tauto|].
        destruct (decide (key = c)) as [-> | Hne]; [tauto|]. right. split; [done | set_solver].
Qed.

Lemma dedupe_NoDup (cand_set : list (Z * Z)) (seen : gset (Z * Z)) :
  NoDup (dedupe cand_set seen).
Proof.
  revert seen. induction cand_set as [|c rest IH]; intros seen; simpl.
  - constructor.
  - case_bool_decide as Hc; [apply IH|].
    constructor; [|apply IH]. rewrite dedupe_elem. set_solver.
Qed.

(** the first occurrences, in their order *)
Lemma dedupe_sublist (cand_set : list (Z * Z)) (seen : gset (Z * Z)) :
  sublist (dedupe cand_set seen) cand_set.
Proof.
  revert seen. induction cand_set as [|c rest IH]; intros seen; simpl.
  - constructor.
  - case_bool_decide as Hc; [apply sublist_cons, IH | apply sublist_skip, IH].
Qed.

(** a key that is kept stands where it occurs for the first time, and
    was not seen before *)
Lemma dedupe_first (cand_set : list (Z * Z)) (seen : gset (Z * Z)) (n : nat) (y : Z * Z) :
  dedupe cand_set seen !! n = Some y ->
  exists j, first_occurrence cand_set j y /\ y ∉ seen.
Proof.
  revert seen n. induction cand_set as [|c rest IH]; intros seen n; cbn [dedupe]; [done|].
  case_bool_decide as Hc.
  - intros Hn. destruct (IH _ _ Hn) as (j & [Hj Hfirst] & Hseen).
    exists (S j). split; [|done]. split; [done|].
    cbn [take]. rewrite not_elem_of_cons. split; [|done]. by intros ->.
  - destruct n as [|n]; cbn [lookup list_lookup].
    + intros [= <-]. exists 0%nat. split; [|done]. split; [done|]. cbn [take]. set_solver.
    + intros Hn. destruct (IH _ _ Hn) as (j & [Hj Hfirst] & Hseen).
      exists (S j). split; [|set_solver]. split; [done|].
      cbn [take]. rewrite not_elem_of_cons. split; [set_solver | done].
Qed.

(** the keys that are kept stand in the order of their first occurrences *)
Lemma dedupe_order (cand_set : list (Z * Z)) (seen : gset (Z * Z)) (m n : nat)
    (x y : Z * Z) :
  (m < n)%nat ->
  dedupe cand_set seen !! m = Some x -> dedupe cand_set seen !! n = Some y ->
  exists i j, (i < j)%nat /\ first_occurrence cand_set i x /\ first_occurrence cand_set j y.
Proof.
  revert seen m n. induction cand_set as [|c rest IH]; intros seen m n Hmn; cbn [dedupe];
    [done|].
  assert (forall (i : nat) (z : Z * Z),
            z <> c -> first_occurrence rest i z -> first_occurrence (c :: rest) (S i) z)
    as Hshift.
  { intros i z Hz [Hi Hfirst]. split; [done|].
    cbn [take]. rewrite not_elem_of_cons. by split. }
  case_bool_decide as Hc.
  - intros Hm Hn. destruct (IH _ _ _ Hmn Hm Hn) as (i & j & Hij & Hi & Hj).
    destruct (dedupe_first _ _ _ _ Hm) as (_ & _ & Hx).
    destruct (dedupe_first _ _ _ _ Hn) as (_ & _ & Hy).
    exists (S i), (S j). split; [lia|]. split; apply Hshift; try done; by intros ->.
  - destruct n as [|n]; [lia|]. destruct m as [|m]; cbn [lookup list_lookup].
    + intros [= <-] Hn. destruct (dedupe_first _ _ _ _ Hn) as (j & Hj & Hy).
      exists 0%nat, (S j). split; [lia|]. split.
      * split; [done|]. cbn [take]. set_solver.
      * apply Hshift; [set_solver | done].
    + intros Hm Hn. assert (m < n)%nat as Hmn' by lia.
      destruct (IH _ _ _ Hmn' Hm Hn) as (i & j & Hij & Hi & Hj).
      destruct (dedupe_first _ _ _ _ Hm) as (_ & _ & Hx).
      destruct (dedupe_first _ _ _ _ Hn) as (_ & _ & Hy).
      exists (S i), (S j). split; [lia|]. split; apply Hshift; try done; set_solver.
Qed.

(** X5: the de-duplication keeps every candidate once, where it occurs for
    the first time: the result has no repetition, has exactly the
    positions of the input, is a sublist of the input, and lists its
    members in the order of their first occurrences in the input: of two
    members the one that stands first in the result is the one whose
    first occurrence comes first. *)
Theorem dedupe_spec (cand_set : list (Z * Z)) :
  NoDup (dedupe cand_set ∅)
  /\ (forall key, key ∈ dedupe cand_set ∅ <-> key ∈ cand_set)
  /\ sublist (dedupe cand_set ∅) cand_set
  /\ (forall n y, dedupe cand_set ∅ !! n = Some y -> exists j, first_occurrence cand_set j y)
  /\ (forall m n x y, (m < n)%nat ->
        dedupe cand_set ∅ !! m = Some x -> dedupe cand_set ∅ !! n = Some y ->
        exists i j, (i < j)%nat
          /\ first_occurrence cand_set i x /\ first_occurrence cand_set j y).
Proof.
  repeat apply conj.
  - apply dedupe_NoDup.
  - intros key. rewrite dedupe_elem. set_solver.
  - apply dedupe_sublist.
  - intros n y Hn. destruct (dedupe_first _ _ _ _ Hn) as (j & Hj & _). by exists j.
  - intros m n x y. apply dedupe_order.
Qed.

(** on the list of the example the first occurrences are kept, in their
    order *)
Example dedupe_first_occurrences :
  dedupe [(1, 1); (2, 2); (1, 1)] ∅ = [(1, 1); (2, 2)].
Proof. by vm_compute. Qed.

Lemma range_step_five : range_step (-2) 3 1 = [-2; -1; 0; 1; 2].
Proof. done. Qed.

Lemma bbox_corner_candidate (placements : list Placement) (iw ih : Z) :
  ((bbox placements).1.2, (bbox placements).1.1.2) ∈ candidates_of placements iw ih.
Proof.
  unfold candidates_of.
  destruct (bbox placements) as [[[min_x min_y] max_x] max_y]. cbn [fst snd].
  apply dedupe_elem. split; [|set_solver]. apply elem_of_app. right.
  unfold bbox_candidates. rewrite range_step_five.
  apply list_elem_of_In. apply in_flat_map. exists 0. split; [simpl; tauto|].
  simpl. right. left. f_equal; lia.
Qed.

Lemma corner_free (placements : list Placement) (iw ih : Z) :
  any_overlap ((bbox placements).1.2, (bbox placements).1.1.2, iw, ih) placements = false.
Proof.
  apply any_overlap_false. intros q Hq. unfold rect_of. apply rects_overlap_false.
  right. left. unfold bbox. simpl.
  apply max_of_ge. by apply (list_elem_of_fmap_2 (fun p => p_x p + p_w p)) in Hq.
Qed.

Section CandidateProofs.
Context `{Double}.

Lemma score_complete (placements : list Placement) (iw ih : Z) (candidates : list (Z * Z))
  (c : Z * Z) :
c ∈ candidates -> any_overlap (c.1, c.2, iw, ih) placements = false ->
exists n d t, (n, d, c.1, c.2, t) ∈ score placements iw ih candidates.
Proof.
intros Hin Hfree. induction candidates as [|[cx cy] rest IH]; [by apply elem_of_nil in Hin|].
cbn [score].
pose proof (scan_placed_overlap cx cy iw ih placements false) as Ho.
destruct (scan_placed cx cy iw ih placements false) as [overlap touching]. simpl in Ho.
apply elem_of_cons in Hin as [-> | Hin].
- simpl in Hfree. rewrite Hfree in Ho. subst overlap.
  eexists _, _, _. left.
- destruct (IH Hin) as (n & d & t & Hs). exists n, d, t.
  destruct overlap; [done | by right].
Qed.

Lemma score_nonempty (placements : list Placement) (iw ih : Z) :
score placements iw ih (candidates_of placements iw ih) <> [].
Proof.
destruct (score_complete placements iw ih (candidates_of placements iw ih)
            ((bbox placements).1.2, (bbox placements).1.1.2)
            (bbox_corner_candidate placements iw ih) (corner_free placements iw ih))
  as (n & d & t & Hs).
intros E. rewrite E in Hs. by apply elem_of_nil in Hs.
Qed.
End CandidateProofs.

(** *** The order of the scored candidates *)

Lemma pair_compare_order {A B : Type} (cmpA : A -> A -> comparison)
    (cmpB : B -> B -> comparison) :
  order_compare cmpA -> order_compare cmpB -> order_compare (pair_compare cmpA cmpB).
Proof.
  intros [OA EA TA] [OB EB TB]. split; unfold pair_compare, lex.
  - intros [a1 a2] [b1 b2]. simpl. rewrite (OA a1 b1), (OB a2 b2).
    by destruct (cmpA a1 b1).
  - intros [a1 a2] [b1 b2] [c1 c2]. simpl.
    destruct (cmpA a1 b1) eqn:E1; try done. intros E2.
    rewrite (EA _ _ c1 E1). destruct (cmpA b1 c1); try done. by apply EB.
  - intros [a1 a2] [b1 b2] [c1 c2]. simpl.
    destruct (cmpA a1 b1) eqn:E1; try done.
    + intros E2. rewrite (EA _ _ c1 E1). destruct (cmpA b1 c1); try done.
      intros E3. by apply (TB a2 b2 c2).
    + intros _. destruct (cmpA b1 c1) eqn:E2; try done.
      * intros _. assert (cmpA a1 c1 = Lt) as ->; [|done].
        assert (cmpA c1 b1 = Eq) as E3 by (rewrite OA, E2; done).
        assert (cmpA c1 a1 = cmpA b1 a1) as E4 by (by apply EA).
        rewrite (OA a1 b1), E1 in E4. rewrite OA, E4. done.
      * intros _. by rewrite (TA a1 b1 c1).
Qed.

Lemma bool_compare_order : order_compare bool_compare.
Proof.
  split; [intros [] [] | intros [] [] [] | intros [] [] []]; by cbv.
Qed.

Lemma Z_compare_order : order_compare Z.compare.
Proof.
  split.
  - intros a b. apply Z.compare_antisym.
  - intros a b c E. apply Z.compare_eq in E. by subst.
  - intros a b c. rewrite !Z.compare_lt_iff. lia.
Qed.

Lemma Q_compare_order : order_compare Qcompare.
Proof.
  split.
  - intros a b. symmetry. apply Qcompare_antisym.
  - intros a b c E. apply Qeq_alt in E. by rewrite E.
  - intros a b c. rewrite <- !Qlt_alt. apply Qlt_trans.
Qed.

Lemma scored_compare_pairs (a b : Scored) :
  scored_compare a b
  = pair_compare
      (pair_compare (pair_compare (pair_compare bool_compare Qcompare) Z.compare) Z.compare)
      bool_compare a b.
Proof.
  destruct a as [[[[n1 d1] x1] y1] t1], b as [[[[n2 d2] x2] y2] t2].
  unfold scored_compare, pair_compare, lex. simpl.
  by destruct (bool_compare n1 n2), (d1 ?= d2)%Q, (x1 ?= x2), (y1 ?= y2).
Qed.

Lemma scored_compare_order : order_compare scored_compare.
Proof.
  pose proof (pair_compare_order _ _
                (pair_compare_order _ _
                   (pair_compare_order _ _
                      (pair_compare_order _ _ bool_compare_order Q_compare_order)
                      Z_compare_order)
                   Z_compare_order)
                bool_compare_order) as [O E T].
  split; intros a b; [|intros c..]; rewrite !scored_compare_pairs; eauto.
Qed.

Lemma scored_le_total (a b : Scored) : scored_le a b = false -> scored_le b a = true.
Proof.
  unfold scored_le. rewrite (cmp_opp _ scored_compare_order a b).
  by destruct (scored_compare a b).
Qed.

Lemma scored_le_trans (a b c : Scored) :
  scored_le a b = true -> scored_le b c = true -> scored_le a c = true.
Proof.
  pose proof scored_compare_order as [O E T]. unfold scored_le.
  destruct (scored_compare a b) eqn:E1; try done; intros _.
  - by rewrite (E a b c E1).
  - destruct (scored_compare b c) eqn:E2; try done; intros _.
    + assert (scored_compare c b = Eq) as E3 by (rewrite O, E2; done).
      assert (scored_compare c a = scored_compare b a) as E4 by (by apply E).
      rewrite (O a b), E1 in E4. by rewrite O, E4.
    + by rewrite (T a b c).
Qed.

(** the head of a sorted list comes before all the others *)
Lemma sort_head_least {A : Type} (leb : A -> A -> bool) (l : list A) (a : A) (rest : list A) :
  (forall x y, leb x y = false -> leb y x = true) ->
  (forall x y z, leb x y = true -> leb y z = true -> leb x z = true) ->
  sort leb l = a :: rest -> Forall (fun x => leb a x = true) rest.
Proof.
  intros Htot Htrans. revert a rest.
  induction l as [|x l IH]; intros a rest; simpl; [done|].
  destruct (sort leb l) as [|h tl] eqn:Es; simpl.
  - intros [= <- <-]. constructor.
  - specialize (IH h tl eq_refl). destruct (leb x h) eqn:Ex.
    + intros [= <- <-]. constructor; [done|].
      eapply Forall_impl; [exact IH|]. intros y Hy. by eapply Htrans.
    + intros [= <- <-]. rewrite insert_sorted_perm.
      constructor; [by apply Htot | done].
Qed.

(** the rect appended for an image is at the least of the scored candidates *)
Lemma place_image_chosen `{Double} (placements : list Placement) (img : Image) :
  exists s rest,
    sort scored_le (score placements (i_width img) (i_height img)
                      (candidates_of placements (i_width img) (i_height img))) = s :: rest
    /\ place_image placements img = new_placement img s.1.1.2 s.1.2
    /\ (s.1.1.2, s.1.2) ∈ candidates_of placements (i_width img) (i_height img)
    /\ Forall (fun s' => scored_le s s' = true) rest.
Proof.
  pose proof (score_nonempty placements (i_width img) (i_height img)) as Hne.
  unfold place_image.
  set (scored := score placements (i_width img) (i_height img)
                   (candidates_of placements (i_width img) (i_height img))) in *.
  destruct (sort scored_le scored) as [|s rest] eqn:Es.
  - exfalso. apply Hne. apply Permutation_nil. rewrite <- Es. apply sort_perm.
  - exists s, rest. destruct s as [[[[n d] x] y] t]. repeat apply conj; try done.
    + assert ((n, d, x, y, t) ∈ scored) as Hin.
      { rewrite <- (sort_perm scored_le scored), Es. left. }
      by apply score_free in Hin as [_ Hin].
    + eapply sort_head_least; [apply scored_le_total | apply scored_le_trans | exact Es].
Qed.

(** X6: the placer always finds its position among the candidates: the
    position at the top right corner of the bounding box is a candidate
    and is free, so that the list of scored candidates is never empty,
    and neither the spiral search nor the last resort is ever used; the
    position taken is that of the least scored candidate, a position of
    [candidates_of], and every other scored candidate comes after it in
    the order (not touching, distance, x, y). *)
Theorem place_image_takes_candidate `{Double} (placements : list Placement) (img : Image) :
  placements <> [] ->
  exists s rest,
    sort scored_le (score placements (i_width img) (i_height img)
                      (candidates_of placements (i_width img) (i_height img))) = s :: rest
    /\ place_image placements img = new_placement img s.1.1.2 s.1.2
    /\ (s.1.1.2, s.1.2) ∈ candidates_of placements (i_width img) (i_height img)
    /\ Forall (fun s' => scored_le s s' = true) rest.
Proof. intros _. apply place_image_chosen. Qed.

Lemma place_image_takes_candidate_witness :
  exists s rest,
    sort scored_le (@score Exact side_by_side (i_width small_image) (i_height small_image)
                      (candidates_of side_by_side (i_width small_image) (i_height small_image)))
    = s :: rest
    /\ @place_image Exact side_by_side small_image = new_placement small_image s.1.1.2 s.1.2
    /\ (s.1.1.2, s.1.2)
       ∈ candidates_of side_by_side (i_width small_image) (i_height small_image)
    /\ Forall (fun s' => scored_le s s' = true) rest.
Proof. apply (@place_image_takes_candidate Exact side_by_side small_image). done. Defined.

(** ** The canvas of a build *)

Lemma fold_left_min_elem (l : list Z) (a : Z) : fold_left Z.min l a ∈ a :: l.
Proof.
  revert a. induction l as [|b l IH]; intros a; simpl; [left|].
  specialize (IH (Z.min a b)). apply elem_of_cons in IH as [-> | IH].
  - destruct (Z.min_spec a b) as [[_ ->] | [_ ->]]; [left | right; left].
  - right. by right.
Qed.

Lemma fold_left_max_elem (l : list Z) (a : Z) : fold_left Z.max l a ∈ a :: l.
Proof.
  revert a. induction l as [|b l IH]; intros a; simpl; [left|].
  specialize (IH (Z.max a b)). apply elem_of_cons in IH as [-> | IH].
  - destruct (Z.max_spec a b) as [[_ ->] | [_ ->]]; [right; left | left].
  - right. by right.
Qed.

Lemma min_of_elem (l : list Z) : l <> [] -> min_of l ∈ l.
Proof. destruct l as [|a l]; [done|]. intros _. apply fold_left_min_elem. Qed.

Lemma max_of_elem (l : list Z) : l <> [] -> max_of l ∈ l.
Proof. destruct l as [|a l]; [done|]. intros _. apply fold_left_max_elem. Qed.

(** the bounding box bounds every rect and is reached on its four sides *)
Lemma bbox_spec (placements : list Placement) :
  placements <> [] ->
  let '(min_x, min_y, max_x, max_y) := bbox placements in
  Forall (fun p => min_x <= p_x p /\ p_x p + p_w p <= max_x
                   /\ min_y <= p_y p /\ p_y p + p_h p <= max_y) placements
  /\ (exists p, p ∈ placements /\ p_x p = min_x)
  /\ (exists p, p ∈ placements /\ p_y p = min_y)
  /\ (exists p, p ∈ placements /\ p_x p + p_w p = max_x)
  /\ (exists p, p ∈ placements /\ p_y p + p_h p = max_y).
Proof.
  intros Hne. unfold bbox.
  assert (forall f : Placement -> Z, map f placements <> []) as Hm.
  { intros f E. apply map_eq_nil in E. done. }
  repeat apply conj.
  - apply Forall_forall. intros p Hp. repeat apply conj.
    + apply min_of_le. by apply (list_elem_of_fmap_2 p_x).
    + apply max_of_ge. by apply (list_elem_of_fmap_2 (fun p => p_x p + p_w p)).
    + apply min_of_le. by apply (list_elem_of_fmap_2 p_y).
    + apply max_of_ge. by apply (list_elem_of_fmap_2 (fun p => p_y p + p_h p)).
  - pose proof (min_of_elem _ (Hm p_x)) as Hin.
    apply list_elem_of_fmap in Hin as (p & E & Hp). eauto.
  - pose proof (min_of_elem _ (Hm p_y)) as Hin.
    apply list_elem_of_fmap in Hin as (p & E & Hp). eauto.
  - pose proof (max_of_elem _ (Hm (fun p => p_x p + p_w p))) as Hin.
    apply list_elem_of_fmap in Hin as (p & E & Hp). eauto.
  - pose proof (max_of_elem _ (Hm (fun p => p_y p + p_h p))) as Hin.
    apply list_elem_of_fmap in Hin as (p & E & Hp). eauto.
Qed.

(** the rect a placement is pasted at *)
Lemma pasted_rect_normalize (placements : list Placement) (min_x min_y : Z) :
  Forall (fun p => p_w p = i_width (p_img p) /\ p_h p = i_height (p_img p)) placements ->
  map pasted_rect (normalize placements min_x min_y)
  = map (fun p => (p_x p - min_x, p_y p - min_y, p_w p, p_h p)) placements.
Proof.
  intros Hs. unfold normalize. rewrite map_map. apply map_ext_Forall.
  eapply Forall_impl; [exact Hs|]. intros p [Hw Hh]. unfold pasted_rect. simpl.
  by rewrite Hw, Hh.
Qed.

Section CanvasProofs.
Context `{Double} `{Env}.

Lemma build_cluster_saved (albums : dict) (covers_dir output_file : string) (canvas : Canvas) :
  (build_cluster albums covers_dir output_file).2 = Some canvas ->
  loaded_images albums covers_dir <> []
  /\ canvas = canvas_of (final_placements albums covers_dir) output_file.
Proof.
  intros Hb. destruct (loaded_images albums covers_dir) as [|img imgs] eqn:E.
  - by rewrite (build_cluster_aborts albums covers_dir output_file E) in Hb.
  - split; [done|].
    rewrite (build_cluster_saves albums covers_dir output_file) in Hb; [|by rewrite E].
    by injection Hb.
Qed.

Lemma final_placements_nonempty (albums : dict) (covers_dir : string) :
  loaded_images albums covers_dir <> [] -> final_placements albums covers_dir <> [].
Proof.
  intros Hne E. destruct (final_placements_spec albums covers_dir) as (M & _).
  rewrite E in M. by rewrite <- M in Hne.
Qed.
End CanvasProofs.

Lemma pasted_rects_inside `{Double} `{Env}
    (albums : dict) (covers_dir output_file : string) (canvas : Canvas) :
  (build_cluster albums covers_dir output_file).2 = Some canvas ->
  Forall (inside (canvas_width canvas) (canvas_height canvas)) (map pasted_rect (pasted canvas))
  /\ (exists r, r ∈ map pasted_rect (pasted canvas) /\ left_edge r = 0)
  /\ (exists r, r ∈ map pasted_rect (pasted canvas) /\ top_edge r = 0)
  /\ (exists r, r ∈ map pasted_rect (pasted canvas) /\ right_edge r = canvas_width canvas)
  /\ (exists r, r ∈ map pasted_rect (pasted canvas) /\ bottom_edge r = canvas_height canvas).
Proof.
  intros Hb. apply build_cluster_saved in Hb as [Hne ->].
  apply final_placements_nonempty in Hne.
  destruct (final_placements_spec albums covers_dir) as (_ & Hs & _).
  pose proof (bbox_spec _ Hne) as Hbox. unfold canvas_of.
  destruct (bbox (final_placements albums covers_dir)) as [[[min_x min_y] max_x] max_y].
  cbn [canvas_width canvas_height pasted].
  rewrite (pasted_rect_normalize _ _ _ Hs).
  destruct Hbox as (Hall & (p1 & Hp1 & E1) & (p2 & Hp2 & E2) & (p3 & Hp3 & E3) & (p4 & Hp4 & E4)).
  set (g := fun p : Placement => (p_x p - min_x, p_y p - min_y, p_w p, p_h p)).
  repeat apply conj.
  - apply Forall_fmap. eapply Forall_impl; [exact Hall|]. intros p Hp. unfold inside, compose, g. simpl in *. lia.
  - exists (g p1). split; [by apply (list_elem_of_fmap_2 g) | unfold left_edge; simpl; lia].
  - exists (g p2). split; [by apply (list_elem_of_fmap_2 g) | unfold top_edge; simpl; lia].
  - exists (g p3). split; [by apply (list_elem_of_fmap_2 g) | unfold right_edge; simpl; lia].
  - exists (g p4). split; [by apply (list_elem_of_fmap_2 g) | unfold bottom_edge; simpl; lia].
Qed.

(** X7: the canvas of a build is the bounding box of what is pasted on it:
    every pasted rect lies on the canvas, and a rect touches each of the
    four sides: one has x = 0, one has y = 0, one ends at the width and
    one ends at the height. *)
Theorem pasted_rects_fill_canvas `{Double} `{Env}
    (albums : dict) (covers_dir output_file : string) (canvas : Canvas) :
  (build_cluster albums covers_dir output_file).2 = Some canvas ->
  Forall (inside (canvas_width canvas) (canvas_height canvas)) (map pasted_rect (pasted canvas))
  /\ (exists r, r ∈ map pasted_rect (pasted canvas) /\ left_edge r = 0)
  /\ (exists r, r ∈ map pasted_rect (pasted canvas) /\ top_edge r = 0)
  /\ (exists r, r ∈ map pasted_rect (pasted canvas) /\ right_edge r = canvas_width canvas)
  /\ (exists r, r ∈ map pasted_rect (pasted canvas) /\ bottom_edge r = canvas_height canvas).
Proof. apply pasted_rects_inside. Qed.

Lemma pasted_rects_fill_canvas_witness :
  exists canvas,
    (@build_cluster Exact all_covers two_albums "covers" "cluster.png").2 = Some canvas
    /\ Forall (inside (canvas_width canvas) (canvas_height canvas))
         (map pasted_rect (pasted canvas)).
Proof.
  eexists. split; [by vm_compute|].
  apply (@pasted_rects_fill_canvas Exact all_covers two_albums "covers" "cluster.png").
  by vm_compute.
Defined.

(** ** The sizes of a build *)

Section SizeProofs.
Context `{Double} `{Env} (Hs : rnd_sound).

(** with the sizes 50 and 300 of [build_cluster] *)
Lemma scale_dimension_range (count min_count max_count : Z) :
  min_count <= count <= max_count ->
  50 <= scale_dimension count min_count max_count 50 300 <= 300.
Proof.
  intros Hc. destruct (Z.eq_dec min_count max_count) as [-> | Hne].
  - unfold scale_dimension. rewrite Z.eqb_refl. by vm_compute.
  - assert (min_count < max_count) as Hlt by lia.
    rewrite (scale_dimension_scaled _ _ _ _ _ Hne).
    assert (Z.abs 50 <= 2 ^ 53) as B1 by (by vm_compute).
    assert (Z.abs 300 <= 2 ^ 53) as B2 by (by vm_compute).
    assert (Z.abs (300 - 50) <= 2 ^ 53) as B3 by (by vm_compute).
    assert (50 <= 300) as Hsz by lia.
    assert (trunc (scaled min_count min_count max_count 50 300) = 50) as Hmin.
    { rewrite (trunc_comp _ _ (scaled_min Hs _ _ _ _ B1)). apply trunc_inject. }
    assert (trunc (scaled max_count min_count max_count 50 300) = 300) as Hmax.
    { rewrite (trunc_comp _ _ (scaled_max Hs _ _ _ _ Hlt B1 B2 B3)). apply trunc_inject. }
    split.
    + apply Z.le_trans with (trunc (scaled min_count min_count max_count 50 300)).
      * by rewrite Hmin.
      * apply trunc_mono. apply (scaled_mono Hs); [done.. | lia].
    + apply Z.le_trans with (trunc (scaled max_count min_count max_count 50 300)).
      * apply trunc_mono. apply (scaled_mono Hs); [done.. | lia].
      * by rewrite Hmax.
Qed.

Lemma resolved_image_size (albums : dict) (covers_dir : string) (img : Image) :
  img ∈ resolved_images albums covers_dir ->
  i_height img = i_width img /\ 50 <= i_width img <= 300.
Proof.
  intros Hin. apply list_elem_of_omap in Hin as (entry & He & Hr).
  destruct (resolve_size _ _ _ _ Hr) as [Hsz Hsq]. split; [done|].
  rewrite Hsz. apply scale_dimension_range.
  apply (list_elem_of_fmap_2 snd) in He.
  split; [by apply min_of_le | by apply max_of_ge].
Qed.
End SizeProofs.

Section OrderProofs.
Context `{Double} `{Env}.

Lemma pasted_images_loaded (albums : dict) (covers_dir output_file : string) :
  map pasted_image (pasted (canvas_of (final_placements albums covers_dir) output_file))
  = loaded_images albums covers_dir.
Proof.
  destruct (final_placements_spec albums covers_dir) as (M & _).
  unfold canvas_of.
  destruct (bbox (final_placements albums covers_dir)) as [[[min_x min_y] max_x] max_y].
  cbn [pasted]. unfold normalize. by rewrite map_map.
Qed.
End OrderProofs.

(** X8: when the rounding of the floats is sound, every image a build
    pastes is a square whose side lies between 50 and 300, and the canvas
    is at least 50 wide and 50 high. *)
Theorem pasted_images_square `{Double} `{Env} (Hs : rnd_sound)
    (albums : dict) (covers_dir output_file : string) (canvas : Canvas) :
  (build_cluster albums covers_dir output_file).2 = Some canvas ->
  Forall (fun img => i_height img = i_width img /\ 50 <= i_width img <= 300)
    (map pasted_image (pasted canvas))
  /\ 50 <= canvas_width canvas /\ 50 <= canvas_height canvas.
Proof.
  intros Hb.
  destruct (pasted_rects_inside _ _ _ _ Hb) as (Hin & (r & Hr & Hl) & (r' & Hr' & Ht) & _).
  apply build_cluster_saved in Hb as [Hne ->].
  assert (Forall (fun img => i_height img = i_width img /\ 50 <= i_width img <= 300)
            (map pasted_image
               (pasted (canvas_of (final_placements albums covers_dir) output_file)))) as Hsq.
  { rewrite pasted_images_loaded. apply Forall_forall. intros img Himg.
    apply (resolved_image_size Hs albums covers_dir).
    by rewrite <- loaded_images_perm. }
  split; [exact Hsq|].
  rewrite Forall_forall in Hin. rewrite Forall_forall in Hsq.
  split.
  - pose proof (Hin r Hr) as Hi.
    apply list_elem_of_fmap in Hr as (t & -> & Ht').
    specialize (Hsq (pasted_image t) (list_elem_of_fmap_2 pasted_image _ _ Ht')).
    unfold inside, pasted_rect, left_edge, pasted_image in *. simpl in *. lia.
  - pose proof (Hin r' Hr') as Hi.
    apply list_elem_of_fmap in Hr' as (t & -> & Ht').
    specialize (Hsq (pasted_image t) (list_elem_of_fmap_2 pasted_image _ _ Ht')).
    unfold inside, pasted_rect, top_edge, pasted_image in *. simpl in *. lia.
Qed.

Lemma pasted_images_square_witness :
  exists canvas,
    (@build_cluster Exact all_covers two_albums "covers" "cluster.png").2 = Some canvas
    /\ 50 <= canvas_width canvas /\ 50 <= canvas_height canvas.
Proof.
  eexists. split; [by vm_compute|].
  apply (@pasted_images_square Exact all_covers exact_rnd_sound
           two_albums "covers" "cluster.png").
  by vm_compute.
Defined.

(** X9: the images are pasted in the order of the stable sort by size,
    largest first, of the images the albums resolve to: along the list of
    pasted images the width never grows. *)
Theorem pasted_in_size_order `{Double} `{Env}
    (albums : dict) (covers_dir output_file : string) (canvas : Canvas) :
  (build_cluster albums covers_dir output_file).2 = Some canvas ->
  map pasted_image (pasted canvas)
  = sort (key_ge i_width) (resolved_images albums covers_dir)
  /\ StronglySorted (dominates i_width) (map pasted_image (pasted canvas)).
Proof.
  intros Hb. apply build_cluster_saved in Hb as [Hne ->].
  rewrite pasted_images_loaded, loaded_images_sorted. split; [done | apply sort_sorted].
Qed.

Lemma pasted_in_size_order_witness :
  exists canvas,
    (@build_cluster Exact all_covers scenario_a "covers" "cluster.png").2 = Some canvas
    /\ StronglySorted (dominates i_width) (map pasted_image (pasted canvas)).
Proof.
  eexists. split; [by vm_compute|].
  apply (@pasted_in_size_order Exact all_covers scenario_a "covers" "cluster.png").
  by vm_compute.
Defined.

(** ** The messages of any build *)

Lemma omap_split {A B : Type} (f g h : A -> option B) (l : list A) :
  (forall a, match h a with
             | Some b => (f a = Some b /\ g a = None) \/ (f a = None /\ g a = Some b)
             | None => f a = None /\ g a = None
             end) ->
  omap f l ++ omap g l ≡ₚ omap h l.
Proof.
  intros Hfg. induction l as [|a l IH]; [done|].
  rewrite !omap_cons. specialize (Hfg a).
  destruct (h a) as [b|].
  - destruct Hfg as [[-> ->] | [-> ->]].
    + simpl. by apply Permutation_skip.
    + rewrite <- IH. symmetry. apply Permutation_middle.
  - destruct Hfg as [-> ->]. exact IH.
Qed.

Lemma omap_length_is_Some {A B : Type} (f : A -> option B) (l : list A) :
  Forall (fun a => is_Some (f a)) l -> length (omap f l) = length l.
Proof.
  induction 1 as [|a l [b Hb] Hl IH]; [done|].
  rewrite omap_cons, Hb. simpl. by rewrite IH.
Qed.

Lemma omap_length_complement {A B C : Type} (f : A -> option B) (g : A -> option C)
    (l : list A) :
  (forall a, is_Some (f a) <-> g a = None) ->
  (length (omap f l) + length (omap g l) = length l)%nat.
Proof.
  intros Hfg. induction l as [|a l IH]; [done|].
  rewrite !omap_cons. specialize (Hfg a).
  destruct (f a) as [b|], (g a) as [c|]; simpl.
  - destruct Hfg as [Hfg _]. by specialize (Hfg (mk_is_Some _ _ eq_refl)).
  - lia.
  - lia.
  - destruct Hfg as [_ Hfg]. specialize (Hfg eq_refl). by destruct Hfg.
Qed.

Section ReportProofs.
Context `{Double} `{Env}.

(** the warnings: the albums without a cover file, in the order of the
    input *)
Lemma scale_covers_warnings (albums : dict) (covers_dir : string) (min_count max_count : Z) :
  (scale_covers albums covers_dir min_count max_count).2
  = omap (fun entry : string * Z =>
            match get_cover_path entry.1 covers_dir with
            | Some _ => None
            | None => Some (CoverNotFound entry.1)
            end) albums.
Proof.
  induction albums as [|[album_name count] rest IH]; [done|].
  cbn [scale_covers]. rewrite omap_cons.
  destruct (scale_covers rest covers_dir min_count max_count) as [cs ws].
  cbn [fst snd] in *. destruct (get_cover_path album_name covers_dir); simpl; by rewrite IH.
Qed.

(** the errors: the covers that fail to load, in the order of the list *)
Lemma load_images_errors (scaled_covers : list Cover) :
  (load_images scaled_covers).2
  = omap (fun c => match image_of c with
                   | Some _ => None
                   | None => Some (ErrorLoading (c_name c))
                   end) scaled_covers.
Proof.
  induction scaled_covers as [|c rest IH]; [done|].
  cbn [load_images]. rewrite omap_cons. unfold image_of at 1.
  destruct (load_images rest) as [imgs errs]. cbn [snd] in IH.
  destruct (open_image (c_path c) (c_size c)); simpl; by rewrite IH.
Qed.

Lemma reports_excluded (albums : dict) (covers_dir : string) :
  Forall (fun m => is_Some (excluded_name m)) (reports_of albums covers_dir).
Proof.
  unfold reports_of. rewrite scale_covers_warnings, load_images_errors.
  apply Forall_app. split; apply Forall_forall; intros m Hm;
    apply list_elem_of_omap in Hm as (a & _ & Ha).
  - destruct (get_cover_path a.1 covers_dir); [done|]. injection Ha as <-. by eexists.
  - destruct (image_of a); [done|]. injection Ha as <-. by eexists.
Qed.

Lemma reports_unresolved (albums : dict) (covers_dir : string) :
  omap excluded_name (reports_of albums covers_dir) ≡ₚ unresolved albums covers_dir.
Proof.
  unfold reports_of. rewrite scale_covers_warnings, load_images_errors, scale_covers_covers.
  rewrite omap_app, !omap_omap.
  assert (sort_covers (omap (cover_of covers_dir (min_of (map snd albums))
                               (max_of (map snd albums))) albums)
          ≡ₚ omap (cover_of covers_dir (min_of (map snd albums))
                     (max_of (map snd albums))) albums) as Hp by apply sort_perm.
  rewrite Hp, omap_omap. unfold unresolved, resolve.
  apply omap_split. intros entry. unfold cover_of.
  destruct (get_cover_path entry.1 covers_dir) as [cover_path|]; simpl; [|by left].
  destruct (image_of _); simpl; [done | by right].
Qed.

Lemma build_cluster_messages (albums : dict) (covers_dir output_file : string) :
  (build_cluster albums covers_dir output_file).1
  = reports_of albums covers_dir
    ++ match (build_cluster albums covers_dir output_file).2 with
       | Some canvas =>
           [ClusterSaved output_file; TotalAlbums (length (pasted canvas));
            CanvasSize (canvas_width canvas) (canvas_height canvas)]
       | None =>
           match albums with
           | [] => [NoAlbumsFound]
           | _ :: _ =>
               match (scale_covers albums covers_dir (min_of (map snd albums))
                        (max_of (map snd albums))).1 with
               | [] => [NoAlbumCoversFound]
               | _ :: _ => [NoImagesLoaded]
               end
           end
       end.
Proof.
  unfold reports_of, build_cluster.
  destruct albums as [|e albums']; [done|].
  set (albums := e :: albums').
  destruct (scale_covers albums covers_dir _ _) as [[|c cs] ws]; cbn [fst snd].
  { by rewrite app_nil_r. }
  destruct (load_images (sort_covers (c :: cs))) as [[|img imgs] errs]; cbn [fst snd].
  { by rewrite app_assoc. }
  destruct (bbox _) as [[[min_x min_y] max_x] max_y]. cbn [fst snd].
  by rewrite app_assoc.
Qed.
End ReportProofs.

(** X10: whatever the outcome, a build reports the albums it leaves out,
    and only those: its messages are reports of excluded albums followed
    by the closing lines; the albums reported are, each once, those that
    resolve to no image; a build that saves closes on the three lines of
    the saved cluster, the count it prints being the number of pasted
    images, and reported and pasted albums together are all the albums; a
    build that saves nothing closes on one of the three abort messages. *)
Theorem build_cluster_reports `{Double} `{Env}
    (albums : dict) (covers_dir output_file : string) :
  exists reports closing,
    (build_cluster albums covers_dir output_file).1 = reports ++ closing
    /\ Forall (fun m => is_Some (excluded_name m)) reports
    /\ omap excluded_name reports ≡ₚ unresolved albums covers_dir
    /\ match (build_cluster albums covers_dir output_file).2 with
       | Some canvas =>
           closing = [ClusterSaved output_file; TotalAlbums (length (pasted canvas));
                      CanvasSize (canvas_width canvas) (canvas_height canvas)]
           /\ (length reports + length (pasted canvas) = length albums)%nat
       | None => exists abort, closing = [abort] /\ is_abort abort = true
       end.
Proof.
  eexists (reports_of albums covers_dir), _.
  split; [apply build_cluster_messages|].
  split; [apply reports_excluded|].
  split; [apply reports_unresolved|].
  destruct (build_cluster albums covers_dir output_file).2 as [canvas|] eqn:Hb.
  - split; [done|].
    apply build_cluster_saved in Hb as [Hne ->].
    rewrite <- (omap_length_is_Some excluded_name _ (reports_excluded albums covers_dir)).
    rewrite (Permutation_length (reports_unresolved albums covers_dir)).
    rewrite <- (length_map pasted_image), pasted_images_loaded.
    rewrite (Permutation_length (loaded_images_perm albums covers_dir)).
    unfold unresolved, resolved_images. apply omap_length_complement.
    intros entry. destruct (resolve albums covers_dir entry); split; try done.
  - destruct albums as [|e albums']; [by exists NoAlbumsFound|].
    destruct (scale_covers _ _ _ _).1; by eexists.
Qed.

(** X11: when exactly one album resolves to an image, the canvas has the
    size of that image and the image is pasted at (0, 0), wherever the
    tightener may have taken its rect. *)
Theorem single_image_canvas `{Double} `{Env}
    (albums : dict) (covers_dir output_file : string) (img : Image) :
  resolved_images albums covers_dir = [img] ->
  (build_cluster albums covers_dir output_file).2
  = Some {| canvas_file := output_file;
            canvas_width := i_width img;
            canvas_height := i_height img;
            pasted := [(img, 0, 0)] |}.
Proof.
  intros Hr.
  assert (loaded_images albums covers_dir = [img]) as Hl.
  { by rewrite loaded_images_sorted, Hr. }
  rewrite build_cluster_saves by (by rewrite Hl).
  destruct (final_placements_spec albums covers_dir) as (M & S & _).
  rewrite Hl in M.
  destruct (final_placements albums covers_dir) as [|p [|q l]]; try done.
  injection M as M. apply Forall_inv in S as [Hw Hh]. subst img.
  unfold canvas_of, bbox, normalize. simpl.
  do 2 f_equal; [rewrite Hw; lia | rewrite Hh; lia |].
  by rewrite !Z.sub_diag.
Qed.

Lemma single_image_canvas_witness :
  (@build_cluster Exact all_covers [("A"%string, 7)] "covers" "cluster.png").2
  = Some {| canvas_file := "cluster.png";
            canvas_width := 175;
            canvas_height := 175;
            pasted := [({| i_path := "covers/A.jpg"; i_width := 175; i_height := 175 |}, 0, 0)] |}.
Proof.
  apply (@single_image_canvas Exact all_covers [("A"%string, 7)] "covers" "cluster.png"
           {| i_path := "covers/A.jpg"; i_width := 175; i_height := 175 |}).
  by vm_compute.
Defined.

(** ** How far the tightener moves a rect *)

Lemma sign_unit (q : Q) : -1 <= sign q <= 1.
Proof. unfold sign. destruct (q ?= 0)%Q; lia. Qed.

Lemma moved_by_refl (d : Z) (p : Placement) : 0 <= d -> moved_by d p p.
Proof. unfold moved_by. lia. Qed.

Lemma moved_by_trans (d1 d2 : Z) (p q r : Placement) :
  moved_by d1 p q -> moved_by d2 q r -> moved_by (d1 + d2) p r.
Proof. unfold moved_by. lia. Qed.

Lemma imap_snd_seq {A B : Type} (f : nat -> A -> B * nat) (l : list A) (k : nat) :
  (forall i a, (f i a).2 = (k + i)%nat) ->
  map snd (imap f l) = seq k (length l).
Proof.
  revert f k. induction l as [|a l IH]; intros f k Hf; [done|].
  cbn [imap map seq length]. rewrite Hf, Nat.add_0_r. f_equal.
  apply IH. intros i x. unfold compose. rewrite Hf. lia.
Qed.

Section MoveProofs.
Context `{Double}.

(** the three steps of one rect move that rect alone, by at most one
    pixel a step on either axis *)
Lemma nudge_moves (steps : nat) (center_x center_y : Q) (i : nat) (px py pw ph : Z)
    (placements : list Placement) (moved_any : bool) (p : Placement) :
  placements !! i = Some p -> p_x p = px -> p_y p = py ->
  let res := (nudge steps center_x center_y i px py pw ph placements moved_any).1 in
  (forall j, j <> i -> res !! j = placements !! j)
  /\ exists q, res !! i = Some q /\ moved_by (Z.of_nat steps) p q.
Proof.
  revert px py placements moved_any p.
  induction steps as [|steps IH]; intros px py placements moved_any p Hi Hx Hy.
  { simpl. split; [done|]. exists p. split; [done | by apply moved_by_refl]. }
  cbn [nudge].
  set (step_x := sign _). set (step_y := sign (fsub center_y _)).
  assert (-1 <= step_x <= 1) as Bx by apply sign_unit.
  assert (-1 <= step_y <= 1) as By by apply sign_unit.
  (* the x move *)
  assert (exists px1 pl1 mx p1,
            (if negb (step_x =? 0) && can_place_at placements i (px + step_x) py
             then (px + step_x, alter (set_x (px + step_x)) i placements, true)
             else (px, placements, false)) = (px1, pl1, mx)
            /\ pl1 !! i = Some p1 /\ p_x p1 = px1 /\ p_y p1 = py
            /\ Z.abs (px1 - px) <= 1
            /\ forall j, j <> i -> pl1 !! j = placements !! j)
    as (px1 & pl1 & mx & p1 & -> & Hi1 & Hx1 & Hy1 & Dx & O1).
  { destruct (negb (step_x =? 0) && can_place_at placements i (px + step_x) py).
    - eexists _, _, _, (set_x (px + step_x) p). split; [done|].
      rewrite list_lookup_alter_eq, Hi. repeat apply conj; try done; [lia|].
      intros j Hj. by rewrite list_lookup_alter_ne.
    - eexists _, _, _, p. repeat apply conj; try done. lia. }
  assert (exists py1 pl2 my p2,
            (if negb (step_y =? 0) && can_place_at pl1 i px1 (py + step_y)
             then (py + step_y, alter (set_y (py + step_y)) i pl1, true)
             else (py, pl1, false)) = (py1, pl2, my)
            /\ pl2 !! i = Some p2 /\ p_x p2 = px1 /\ p_y p2 = py1
            /\ Z.abs (py1 - py) <= 1
            /\ forall j, j <> i -> pl2 !! j = pl1 !! j)
    as (py1 & pl2 & my & p2 & -> & Hi2 & Hx2 & Hy2 & Dy & O2).
  { destruct (negb (step_y =? 0) && can_place_at pl1 i px1 (py + step_y)).
    - eexists _, _, _, (set_y (py + step_y) p1). split; [done|].
      rewrite list_lookup_alter_eq, Hi1. repeat apply conj; try done; [lia|].
      intros j Hj. by rewrite list_lookup_alter_ne.
    - eexists _, _, _, p1. repeat apply conj; try done. lia. }
  assert (moved_by 1 p p2) as M1 by (unfold moved_by; lia).
  destruct (mx || my).
  - destruct (IH px1 py1 pl2 true p2 Hi2 Hx2 Hy2) as (O & q & Hq & Mq).
    split.
    + intros j Hj. rewrite (O j Hj), (O2 j Hj). by apply O1.
    + exists q. split; [done|].
      replace (Z.of_nat (S steps)) with (1 + Z.of_nat steps) by lia.
      by eapply moved_by_trans.
  - cbn [fst]. split.
    + intros j Hj. rewrite (O2 j Hj). by apply O1.
    + exists p2. split; [done|]. unfold moved_by in *. lia.
Qed.

(** a turn over distinct indices moves every rect by at most three
    pixels on either axis *)
Lemma nudge_all_moves (order : list nat) (center_x center_y : Q)
    (placements : list Placement) (moved_any : bool) :
  NoDup order ->
  let res := (nudge_all order center_x center_y placements moved_any).1 in
  forall j p, placements !! j = Some p ->
    exists q, res !! j = Some q /\ moved_by 3 p q /\ (j ∉ order -> q = p).
Proof.
  revert placements moved_any.
  induction order as [|i rest IH]; intros placements moved_any Hnd; cbn [nudge_all].
  { intros j p Hj. exists p. split; [done|]. split; [by apply moved_by_refl | done]. }
  apply NoDup_cons in Hnd as [Hi Hnd].
  destruct (placements !! i) as [pi|] eqn:Hpi.
  - pose proof (nudge_moves 3 center_x center_y i (p_x pi) (p_y pi) (p_w pi) (p_h pi)
                  placements moved_any pi Hpi eq_refl eq_refl) as Hn.
    destruct (nudge 3 center_x center_y i (p_x pi) (p_y pi) (p_w pi) (p_h pi)
                placements moved_any) as [pl1 m1].
    cbn [fst] in Hn. destruct Hn as (O & qi & Hqi & Mqi).
    intros j p Hj. destruct (decide (j = i)) as [-> | Hne].
    + simplify_eq. destruct (IH pl1 m1 Hnd i qi Hqi) as (q & Hq & _ & Eq).
      rewrite (Eq Hi) in Hq. exists qi. split; [done|]. split; [done|].
      intros Hnot. exfalso. apply Hnot. left.
    + rewrite <- (O j Hne) in Hj.
      destruct (IH pl1 m1 Hnd j p Hj) as (q & Hq & Mq & Eq).
      exists q. split; [done|]. split; [done|].
      intros Hnot. apply Eq. intros Hin. apply Hnot. by right.
  - intros j p Hj. destruct (IH placements moved_any Hnd j p Hj) as (q & Hq & Mq & Eq).
    exists q. split; [done|]. split; [done|].
    intros Hnot. apply Eq. intros Hin. apply Hnot. by right.
Qed.

(** every index is processed once in a pass *)
Lemma processing_order_perm (placements : list Placement) (center_x center_y : Q) :
  processing_order placements center_x center_y ≡ₚ seq 0 (length placements).
Proof.
  unfold processing_order. rewrite sort_perm.
  by rewrite (imap_snd_seq _ placements 0).
Qed.

Lemma same_length_frame (l1 l2 : list Placement) :
  map frame l1 = map frame l2 -> length l1 = length l2.
Proof. intros E. by rewrite <- (length_map frame l1), E, length_map. Qed.

Lemma tighten_pass_moves (placements : list Placement) :
  Forall2 (moved_by 3) placements (tighten_pass placements).1.
Proof.
  destruct (tighten_pass_spec placements) as (F & _).
  apply same_length_frame in F. revert F.
  unfold tighten_pass. destruct (center_of placements) as [center_x center_y].
  intros F.
  assert (NoDup (processing_order placements center_x center_y)) as Hnd.
  { rewrite processing_order_perm. apply NoDup_seq. }
  pose proof (nudge_all_moves _ center_x center_y placements false Hnd) as Hm.
  cbn zeta in Hm.
  apply Forall2_same_length_lookup_2; [done|].
  intros j p q Hp Hq. destruct (Hm j p Hp) as (q' & Hq' & M & _). congruence.
Qed.

Lemma tighten_placements_moves (placements : list Placement) (max_passes : nat) :
  Forall2 (moved_by (3 * Z.of_nat max_passes)) placements
    (tighten_placements placements max_passes).
Proof.
  revert placements. induction max_passes as [|n IH]; intros placements.
  { simpl. apply Forall2_same_length_lookup_2; [done|].
    intros j p q Hp Hq. simplify_eq. by apply moved_by_refl. }
  cbn [tighten_placements].
  pose proof (tighten_pass_moves placements) as M1.
  destruct (tighten_pass placements) as [pl moved]. cbn [fst] in M1.
  assert (forall p q, moved_by 3 p q -> moved_by (3 * Z.of_nat (S n)) p q) as Hw.
  { unfold moved_by. lia. }
  destruct moved.
  - specialize (IH pl).
    apply Forall2_same_length_lookup_2.
    { by rewrite (Forall2_length _ _ _ M1), (Forall2_length _ _ _ IH). }
    intros j p r Hp Hr.
    destruct (Forall2_lookup_l _ _ _ _ _ M1 Hp) as (q & Hq & Mq).
    destruct (Forall2_lookup_l _ _ _ _ _ IH Hq) as (r' & Hr' & Mr).
    simplify_eq. replace (3 * Z.of_nat (S n)) with (3 + 3 * Z.of_nat n) by lia.
    by eapply moved_by_trans.
  - eapply Forall2_impl; [exact M1 | exact Hw].
Qed.
End MoveProofs.

(** X4: the tightener moves no rect by more than three pixels a pass on
    either axis: of a list that is not empty, every rect is, after at most
    [max_passes] passes, within 3 * max_passes pixels, on each axis, of
    where it started, in a list of the same length and order. *)
Theorem tighten_placements_displacement `{Double}
    (placements : list Placement) (max_passes : nat) :
  placements <> [] ->
  Forall2 (moved_by (3 * Z.of_nat max_passes)) placements
    (tighten_placements placements max_passes)
  /\ Forall2 (moved_by 3) placements (tighten_pass placements).1.
Proof. intros _. split; [apply tighten_placements_moves | apply tighten_pass_moves]. Qed.

Lemma tighten_placements_displacement_witness :
  Forall2 (moved_by (3 * Z.of_nat 100)) far_apart (@tighten_placements Exact far_apart 100)
  /\ Forall2 (moved_by 3) far_apart (@tighten_pass Exact far_apart).1.
Proof. apply (@tighten_placements_displacement Exact far_apart 100). done. Defined.

(** ** The names of the cover files *)

Lemma text_chars (s : string) : text (chars s) = s.
Proof. apply string_of_list_ascii_of_string. Qed.

Lemma chars_text (l : list ascii) : chars (text l) = l.
Proof. apply list_ascii_of_string_of_list_ascii. Qed.

Lemma chars_sanitize (album_name : string) :
  chars (sanitize album_name)
  = map (fun c => if is_alnum c then c else "_"%char) (chars album_name).
Proof. unfold sanitize. apply chars_text. Qed.

(** X12: the sanitized name of an album has the length of the name, holds
    only characters that are alphanumeric or the underscore, keeps the
    alphanumeric characters where they are, and is left as it is by a
    second sanitization, so that an album and its sanitized name have the
    same cover path. *)
Theorem sanitize_spec (album_name : string) :
  length (chars (sanitize album_name)) = length (chars album_name)
  /\ Forall (fun c => is_alnum c = true \/ c = "_"%char) (chars (sanitize album_name))
  /\ (forall i c, chars album_name !! i = Some c -> is_alnum c = true ->
        chars (sanitize album_name) !! i = Some c)
  /\ sanitize (sanitize album_name) = sanitize album_name
  /\ (forall (E : Env) covers_dir,
        get_cover_path (sanitize album_name) covers_dir = get_cover_path album_name covers_dir).
Proof.
  assert (sanitize (sanitize album_name) = sanitize album_name) as Hidem.
  { unfold sanitize at 1. rewrite chars_sanitize. unfold sanitize. f_equal.
    rewrite map_map. apply map_ext. intros c.
    destruct (is_alnum c) eqn:E; [by rewrite E | done]. }
  rewrite chars_sanitize. repeat apply conj.
  - apply length_map.
  - apply Forall_fmap, Forall_forall. intros c _. simpl.
    destruct (is_alnum c) eqn:E; [by left | by right].
  - intros i c Hi Hc. rewrite list_lookup_fmap, Hi. simpl. by rewrite Hc.
  - exact Hidem.
  - intros E covers_dir. unfold get_cover_path. by rewrite Hidem.
Qed.

(** ** The crawl *)

Lemma fold_left_invariant {A B : Type} (P : A -> Prop) (f : A -> B -> A) (l : list B) (a : A) :
  P a -> (forall a b, P a -> P (f a b)) -> P (fold_left f l a).
Proof. revert a. induction l as [|b l IH]; intros a Ha Hf; simpl; [done|]. apply IH; auto. Qed.

Lemma dict_get_set (d : dict) (k k' : string) (v : Z) :
  dict_get (dict_set d k v) k' = if String.eqb k' k then v else dict_get d k'.
Proof.
  induction d as [|[k0 v0] d IH]; simpl.
  - done.
  - destruct (String.eqb k k0) eqn:E; simpl.
    + apply String.eqb_eq in E as ->. by destruct (String.eqb k' k0).
    + destruct (String.eqb k' k0) eqn:E'; [|exact IH].
      apply String.eqb_eq in E' as ->.
      rewrite String.eqb_sym in E. by rewrite E.
Qed.

Lemma total_count_set (d : dict) (k : string) :
  total_count (dict_set d k (dict_get d k + 1)) = total_count d + 1.
Proof.
  unfold total_count. induction d as [|[k0 v0] d IH]; simpl; [done|].
  destruct (String.eqb k k0); simpl; lia.
Qed.

Lemma dict_set_keys (d : dict) (k : string) (v : Z) :
  map fst (dict_set d k v) = if bool_decide (k ∈ map fst d) then map fst d else map fst d ++ [k].
Proof.
  induction d as [|[k0 v0] d IH]; simpl; [done|].
  destruct (String.eqb k k0) eqn:E; simpl.
  - apply String.eqb_eq in E as ->. rewrite bool_decide_eq_true_2; [done | left].
  - apply String.eqb_neq in E. rewrite IH.
    destruct (bool_decide (k ∈ map fst d)) eqn:Ek.
    + rewrite bool_decide_eq_true_2; [done|]. right. by apply bool_decide_eq_true in Ek.
    + rewrite bool_decide_eq_false_2; [done|]. apply bool_decide_eq_false in Ek.
      rewrite elem_of_cons. tauto.
Qed.

Lemma dict_get_elem (d : dict) (k : string) (v : Z) :
  NoDup (map fst d) -> (k, v) ∈ d -> dict_get d k = v.
Proof.
  induction d as [|[k0 v0] d IH]; simpl; intros Hnd Hin; [by apply elem_of_nil in Hin|].
  apply NoDup_cons in Hnd as [Hk0 Hnd].
  apply elem_of_cons in Hin as [[= -> ->] | Hin].
  - by rewrite String.eqb_refl.
  - destruct (String.eqb k k0) eqn:E; [|by apply IH].
    apply String.eqb_eq in E as ->. exfalso. apply Hk0.
    by apply (list_elem_of_fmap_2 fst) in Hin.
Qed.

Lemma dict_get_absent (d : dict) (k : string) : k ∉ map fst d -> dict_get d k = 0.
Proof.
  induction d as [|[k0 v0] d IH]; simpl; [done|]. rewrite not_elem_of_cons. intros [Hne Hd].
  destruct (String.eqb k k0) eqn:E; [|by apply IH]. by apply String.eqb_eq in E.
Qed.

Lemma songs_of_app (album_name : string) (l1 l2 : list Song) :
  songs_of album_name (l1 ++ l2) = songs_of album_name l1 ++ songs_of album_name l2.
Proof. unfold songs_of. apply List.filter_app. Qed.

Section CrawlProofs.
Context `{Spotify}.

Lemma crawl_item_invariant (cover_dir : string) (fs : gmap string string) (st : Crawl)
    (item : option Track) :
  crawl_invariant cover_dir fs st -> crawl_invariant cover_dir fs (crawl_item cover_dir st item).
Proof.
  intros (Hnd & Hget & Hkeys & Htot & Hfs & Hcov).
  destruct item as [track|]; [|by repeat apply conj].
  unfold crawl_item, download_album_cover.
  set (album_name := track_album_name track).
  set (file_path := path_join cover_dir (sanitize album_name +:+ ".jpg")).
  assert (exists cover_path fs',
            (match fetch_cover (track_album_id track) file_path with
             | Some content => (Some file_path, <[file_path := content]> (files st))
             | None => (None, files st)
             end) = (cover_path, fs')
            /\ (forall path, is_Some (files st !! path) -> is_Some (fs' !! path))
            /\ (forall path, cover_path = Some path ->
                  path = file_path /\ is_Some (fs' !! path)))
    as (cover_path & fs' & -> & Hgrow & Hnew).
  { destruct (fetch_cover (track_album_id track) file_path) as [content|].
    - eexists _, _. split; [done|]. split.
      + intros path Hp. destruct (decide (path = file_path)) as [-> | Hne].
        * rewrite lookup_insert_eq. by eexists.
        * by rewrite lookup_insert_ne.
      + intros path [= <-]. split; [done|]. rewrite lookup_insert_eq. by eexists.
    - eexists _, _. split; [done|]. split; [done | by intros path [=]]. }
  unfold crawl_invariant. cbn [files songs_data album_index].
  repeat apply conj.
  - rewrite dict_set_keys. case_bool_decide as Hk; [done|].
    apply NoDup_app. repeat apply conj; [done | | apply NoDup_singleton].
    intros x Hx Hx'. apply list_elem_of_singleton in Hx' as ->. done.
  - intros name. rewrite dict_get_set, songs_of_app, length_app.
    unfold songs_of at 2. cbn [List.filter song_album].
    rewrite !Hget, (String.eqb_sym album_name name).
    destruct (String.eqb name album_name) eqn:E.
    + apply String.eqb_eq in E. rewrite E. cbn [length]. lia.
    + cbn [length]. lia.
  - intros name. rewrite dict_set_keys, map_app, elem_of_app. cbn [map song_album].
    rewrite list_elem_of_singleton, <- Hkeys.
    case_bool_decide as Hk.
    + split; [tauto|]. intros [Hn | ->]; done.
    + rewrite elem_of_app, list_elem_of_singleton. tauto.
  - rewrite total_count_set, length_app, Htot. simpl. lia.
  - intros path Hp. by apply Hgrow, Hfs.
  - intros song path Hs Hc. apply elem_of_app in Hs as [Hs | Hs].
    + destruct (Hcov song path Hs Hc) as [-> Hp]. split; [done | by apply Hgrow].
    + apply list_elem_of_singleton in Hs as ->. cbn [song_cover song_album] in *.
      by apply Hnew.
Qed.

Lemma crawl_playlists_invariant (playlist_ids : list string) (cover_dir : string) (fs : gmap string string) :
  crawl_invariant cover_dir fs (crawl_playlists playlist_ids cover_dir fs).
Proof.
  unfold crawl_playlists. apply fold_left_invariant.
  - unfold crawl_invariant. cbn [files songs_data album_index].
    repeat apply conj; try done.
    + constructor.
    + intros song path Hs. by apply elem_of_nil in Hs.
  - intros st playlist_id Hst. unfold crawl_playlist.
    apply fold_left_invariant; [done|]. intros st' page Hst'.
    apply fold_left_invariant; [done|]. intros st'' item. apply crawl_item_invariant.
Qed.
End CrawlProofs.

(** X13: the index of a crawl counts its songs: the album names of the
    index are distinct and are those of the songs; the count of an album
    is the number of songs recorded for it, at least one; and the counts
    add up to the number of songs. *)
Theorem crawl_playlists_counts `{Spotify}
    (playlist_ids : list string) (cover_dir : string) (fs : gmap string string) :
  let st := crawl_playlists playlist_ids cover_dir fs in
  NoDup (map fst (album_index st))
  /\ (forall album_name, album_name ∈ map fst (album_index st)
        <-> album_name ∈ map song_album (songs_data st))
  /\ (forall album_name count, (album_name, count) ∈ album_index st ->
        count = Z.of_nat (length (songs_of album_name (songs_data st))) /\ 1 <= count)
  /\ total_count (album_index st) = Z.of_nat (length (songs_data st)).
Proof.
  destruct (crawl_playlists_invariant playlist_ids cover_dir fs)
    as (Hnd & Hget & Hkeys & Htot & _).
  cbn zeta. repeat apply conj; try done.
  intros album_name count Hin.
  pose proof (dict_get_elem _ _ _ Hnd Hin) as Hc. rewrite Hget in Hc. subst count.
  split; [done|].
  apply (list_elem_of_fmap_2 fst) in Hin. cbn [fst] in Hin. apply Hkeys in Hin.
  apply list_elem_of_fmap in Hin as (song & -> & Hs).
  set (songs := songs_data (crawl_playlists playlist_ids cover_dir fs)) in *.
  assert (song ∈ songs_of (song_album song) songs) as Hin'.
  { unfold songs_of. apply list_elem_of_In, filter_In. split; [by apply list_elem_of_In|].
    apply String.eqb_refl. }
  destruct (songs_of (song_album song) songs); [by apply elem_of_nil in Hin'|].
  simpl. lia.
Qed.

(** X14: the painter finds the covers the crawler wrote: the cover path of
    a song of the crawl is the path [get_cover_path] computes for the
    album of that song in the same directory, and a build that reads the
    files the crawl has left finds the cover there. *)
Theorem crawled_cover_found `{Spotify}
    (playlist_ids : list string) (cover_dir : string) (fs : gmap string string)
    (opens : string -> Z -> bool) (song : Song) (path : string) :
  song ∈ songs_data (crawl_playlists playlist_ids cover_dir fs) ->
  song_cover song = Some path ->
  @get_cover_path (files_env (files (crawl_playlists playlist_ids cover_dir fs)) opens)
    (song_album song) cover_dir = Some path.
Proof.
  intros Hs Hc.
  destruct (crawl_playlists_invariant playlist_ids cover_dir fs) as (_ & _ & _ & _ & _ & Hcov).
  destruct (Hcov song path Hs Hc) as [-> Hp].
  unfold get_cover_path, files_env. cbn [path_exists].
  by rewrite bool_decide_eq_true_2.
Qed.

Lemma crawled_cover_found_witness :
  @get_cover_path
    (files_env (files (@crawl_playlists sample_service ["p1"%string] "covers" ∅))
       (fun _ _ => true))
    "Abbey Road" "covers"
  = Some "covers/Abbey_Road.jpg"%string.
Proof.
  apply (@crawled_cover_found sample_service ["p1"%string] "covers" ∅ (fun _ _ => true)
           {| song_title := "Come Together"; song_album := "Abbey Road";
              song_cover := Some "covers/Abbey_Road.jpg"%string |}
           "covers/Abbey_Road.jpg").
  - vm_compute. left.
  - reflexivity.
Defined.

(** ** The index printed by the crawler, read by the painter *)

Lemma chars_app (s1 s2 : string) : chars (s1 +:+ s2) = chars s1 ++ chars s2.
Proof. unfold chars. induction s1 as [|c s1 IH]; simpl; [done | by rewrite IH]. Qed.

Lemma chars_line (s : string) : chars (line s) = chars s ++ [nl].
Proof. unfold line. by rewrite chars_app. Qed.

Lemma chars_concat (l : list string) :
  chars (String.concat "" l) = concat (map chars l).
Proof.
  induction l as [|s l IH]; [done|].
  cbn [map concat]. rewrite <- IH. destruct l as [|s' l]; simpl.
  - by rewrite app_nil_r.
  - change (chars (s +:+ String.concat "" (s' :: l))
            = chars s ++ chars (String.concat "" (s' :: l))).
    apply chars_app.
Qed.

(** *** The matcher on the shapes the index has *)

Section MatcherProofs.
Context {R : Type}.

Lemma rmatch_lit_chars (l : list ascii) (r : regex) (s : list ascii) (caps : captures)
    (k : list ascii -> captures -> option R) :
  rmatch (lit_chars l r) (l ++ s) caps k = rmatch r s caps k.
Proof.
  induction l as [|c l IH]; [done|].
  cbn [lit_chars app rmatch]. by rewrite Ascii.eqb_refl.
Qed.

(** a greedy repetition takes all the characters of the class when what
    follows matches the rest of the pattern *)
Lemma rep_greedy_all (lo : nat) (p : ascii -> bool) (ws s : list ascii)
    (k : list ascii -> option R) (res : R) :
  Forall (fun c => p c = true) ws -> (lo <= length ws)%nat ->
  match s with c :: _ => p c = false | [] => True end ->
  k s = Some res ->
  rep true lo p (ws ++ s) k = Some res.
Proof.
  intros Hws. revert lo. induction Hws as [|c ws Hc Hws IH]; intros lo Hlo Hs Hk.
  - destruct lo; [|simpl in Hlo; lia]. simpl.
    destruct s as [|c s]; [done|]. simpl. by rewrite Hs.
  - destruct lo as [|lo]; cbn [app rep]; rewrite Hc.
    + rewrite (IH 0%nat); [done | lia | done | done].
    + apply IH; [simpl in Hlo; lia | done | done].
Qed.

(** a lazy repetition stops at the first position at which what follows
    matches the rest of the pattern *)
Lemma rep_lazy_first (p : ascii -> bool) (pre s : list ascii)
    (k : list ascii -> option R) (res : R) :
  Forall (fun c => p c = true) pre ->
  (forall a c b, pre = a ++ c :: b -> k (c :: b ++ s) = None) ->
  k s = Some res ->
  rep false 0 p (pre ++ s) k = Some res.
Proof.
  intros Hpre. induction Hpre as [|c pre Hc Hpre IH]; intros Hfail Hk.
  - simpl. destruct s as [|c s]; [done|]. simpl. by rewrite Hk.
  - cbn [app rep]. rewrite (Hfail [] c pre eq_refl), Hc.
    apply IH; [|done]. intros a c' b E. apply (Hfail (c :: a) c' b). by rewrite E.
Qed.
End MatcherProofs.

(** *** Decimal numerals *)

Lemma digit_char_spec (d : Z) :
  0 <= d < 10 ->
  is_digit (digit_char d) = true /\ Z.of_nat (code (digit_char d)) - 48 = d.
Proof.
  intros Hd.
  assert (d = 0 \/ d = 1 \/ d = 2 \/ d = 3 \/ d = 4 \/ d = 5 \/ d = 6 \/ d = 7 \/ d = 8 \/ d = 9)
    as Hc by lia.
  destruct Hc as [-> | [-> | [-> | [-> | [-> | [-> | [-> | [-> | [-> | ->]]]]]]]]]; by vm_compute.
Qed.

Lemma int_of_digits_snoc (l : list ascii) (c : ascii) :
  int_of_digits (l ++ [c]) = 10 * int_of_digits l + (Z.of_nat (code c) - 48).
Proof. unfold int_of_digits. by rewrite fold_left_app. Qed.

Lemma digits_of_acc (fuel : nat) (n : Z) (acc : list ascii) :
  digits_of fuel n acc = digits_of fuel n [] ++ acc.
Proof.
  revert n acc. induction fuel as [|fuel IH]; intros n acc; [done|].
  cbn [digits_of]. destruct (n <? 10); [done|].
  rewrite (IH _ (_ :: acc)), (IH _ [_]). by rewrite <- app_assoc.
Qed.

Lemma digits_of_spec (fuel : nat) (n : Z) :
  0 <= n < 2 ^ Z.of_nat fuel ->
  Forall (fun c => is_digit c = true) (digits_of fuel n [])
  /\ int_of_digits (digits_of fuel n []) = n.
Proof.
  revert n. induction fuel as [|fuel IH]; intros n Hn.
  { change (2 ^ Z.of_nat 0) with 1 in Hn. split; [constructor|].
    unfold int_of_digits. simpl. lia. }
  cbn [digits_of].
  assert (0 <= n mod 10 < 10) as Hm by (apply Z.mod_pos_bound; lia).
  destruct (digit_char_spec _ Hm) as [Hd Hv].
  destruct (n <? 10) eqn:E.
  - apply Z.ltb_lt in E. split; [by repeat constructor|].
    unfold int_of_digits. cbn [fold_left]. rewrite Hv, Z.mod_small; lia.
  - apply Z.ltb_ge in E. rewrite digits_of_acc.
    assert (0 <= n / 10 < 2 ^ Z.of_nat fuel) as Hq.
    { split; [apply Z.div_pos; lia|].
      apply Z.div_lt_upper_bound; [lia|].
      replace (Z.of_nat (S fuel)) with (Z.succ (Z.of_nat fuel)) in Hn by lia.
      rewrite Z.pow_succ_r in Hn by lia. lia. }
    destruct (IH _ Hq) as [Hall Hval]. split.
    + apply Forall_app. split; [done | by repeat constructor].
    + rewrite int_of_digits_snoc, Hval, Hv. symmetry. apply Z.div_mod. lia.
Qed.

Lemma digits_of_nonempty (fuel : nat) (n : Z) : digits_of (S fuel) n [] <> [].
Proof.
  cbn [digits_of]. destruct (n <? 10); [done|]. rewrite digits_of_acc.
  intros E. by apply app_eq_nil in E as [_ E].
Qed.

(** the numeral of a count: digits, at least one, that read back as the
    count *)
Lemma str_of_int_spec (n : Z) :
  0 <= n ->
  chars (str_of_int n) <> []
  /\ Forall (fun c => is_digit c = true) (chars (str_of_int n))
  /\ int_of_digits (chars (str_of_int n)) = n.
Proof.
  intros Hn. unfold str_of_int.
  destruct (n <? 0) eqn:E; [apply Z.ltb_lt in E; lia|].
  rewrite chars_text. split; [apply digits_of_nonempty|].
  apply digits_of_spec. split; [done|].
  destruct (Z.eq_dec n 0) as [-> | Hne]; [by vm_compute|].
  rewrite Nat2Z.inj_succ, Z2Nat.id by apply Z.log2_nonneg.
  apply Z.log2_spec. lia.
Qed.

(** *** One line of the index *)

Lemma take_app_sub {A : Type} (l1 l2 : list A) :
  take (length (l1 ++ l2) - length l2) (l1 ++ l2) = l1.
Proof.
  rewrite length_app. replace (length l1 + length l2 - length l2)%nat with (length l1) by lia.
  by rewrite take_app_length.
Qed.

Lemma not_newline_true (c : ascii) : c <> nl -> not_newline c = true.
Proof.
  intros Hc. unfold not_newline. apply negb_true_iff, Nat.eqb_neq. intros E. apply Hc.
  unfold nl. rewrite <- E. unfold code. by rewrite ascii_nat_embedding.
Qed.

Lemma digit_not_space (c : ascii) : is_digit c = true -> is_space c = false.
Proof.
  unfold is_digit, is_space. intros Hd.
  apply andb_true_iff in Hd as [H1 H2]. apply Nat.leb_le in H1, H2.
  repeat (apply orb_false_intro);
    first [ apply Nat.eqb_neq; lia
          | apply andb_false_iff; first [left; apply Nat.leb_gt; lia | right; apply Nat.leb_gt; lia] ].
Qed.

Lemma re_match_line (ws name digits : list ascii) :
  Forall (fun c => is_space c = true) ws ->
  match name with c :: _ => is_space c = false | [] => False end ->
  Forall (fun c => c <> ":"%char /\ c <> nl) name ->
  digits <> [] ->
  Forall (fun c => is_digit c = true) digits ->
  exists caps,
    re_match line_re (ws ++ name ++ ":"%char :: " "%char :: digits ++ chars " songs")
    = Some caps
    /\ group caps 1 = name /\ group caps 2 = digits.
Proof.
  intros Hws Hhead Hname Hne Hdigits.
  destruct name as [|c0 name]; [done|].
  apply Forall_cons in Hname as [[Hc0 Hn0] Hname].
  set (caps1 := <[1%nat := c0 :: name]> (∅ : captures)).
  set (caps2 := <[2%nat := digits]> caps1).
  exists caps2. split.
  - unfold re_match, line_re. cbn [rmatch].
    apply rep_greedy_all; [done | lia | done |].
    (* group 1, lazy *)
    cbn [app rep]. rewrite (not_newline_true _ Hn0).
    apply rep_lazy_first.
    + eapply Forall_impl; [exact Hname|]. intros c [_ Hc]. by apply not_newline_true.
    + intros a c b E.
      assert (c <> ":"%char) as Hc.
      { rewrite Forall_forall in Hname. apply Hname. rewrite E.
        apply elem_of_app. right. left. }
      cbn [app]. apply Ascii.eqb_neq in Hc. rewrite Ascii.eqb_sym in Hc. by rewrite Hc.
    + cbv beta iota. rewrite Ascii.eqb_refl.
      apply (rep_greedy_all 0 is_space [" "%char]); [by repeat constructor | simpl; lia | |].
      { destruct digits as [|d digits]; [done|]. apply Forall_inv in Hdigits.
        simpl. by apply digit_not_space. }
      apply rep_greedy_all; [done | | by vm_compute |].
      { destruct digits; [done | simpl; lia]. }
      cbn -[take length]. unfold caps2, caps1. f_equal. f_equal.
      * apply take_app_sub.
      * f_equal. apply (take_app_sub (c0 :: name)).
  - split.
    + unfold group, caps2, caps1, captures.
      rewrite lookup_insert_ne by done. by rewrite lookup_insert_eq.
    + unfold group, caps2, captures. by rewrite lookup_insert_eq.
Qed.

(** *** The lines of a section *)

Lemma split_lines_line (l rest : list ascii) :
  Forall (fun c => c <> nl) l ->
  split_lines (l ++ nl :: rest) = l :: split_lines rest.
Proof.
  induction 1 as [|c l Hc Hl IH]; cbn [app split_lines].
  - done.
  - assert ((code c =? 10)%nat = false) as ->.
    { apply Nat.eqb_neq. intros E. apply Hc. unfold nl. rewrite <- E. unfold code.
      by rewrite ascii_nat_embedding. }
    by rewrite IH.
Qed.

Lemma split_lines_last (l : list ascii) :
  Forall (fun c => c <> nl) l -> split_lines l = [l].
Proof.
  induction 1 as [|c l Hc Hl IH]; cbn [split_lines]; [done|].
  assert ((code c =? 10)%nat = false) as ->.
  { apply Nat.eqb_neq. intros E. apply Hc. unfold nl. rewrite <- E. unfold code.
    by rewrite ascii_nat_embedding. }
  by rewrite IH.
Qed.

Lemma split_join_lines (lines : list (list ascii)) :
  lines <> [] -> Forall (Forall (fun c => c <> nl)) lines ->
  split_lines (join_lines lines) = lines.
Proof.
  intros Hne Hall. induction Hall as [|l lines Hl Hall IH]; [done|].
  destruct lines as [|l' lines].
  - simpl. by apply split_lines_last.
  - change (join_lines (l :: l' :: lines)) with (l ++ nl :: join_lines (l' :: lines)).
    rewrite split_lines_line by done. by rewrite IH.
Qed.

Lemma concat_join_lines (lines : list (list ascii)) :
  lines <> [] ->
  concat (map (fun l => l ++ [nl]) lines) = join_lines lines ++ [nl].
Proof.
  intros Hne. induction lines as [|l lines IH]; [done|].
  destruct lines as [|l' lines].
  - simpl. by rewrite app_nil_r.
  - change (join_lines (l :: l' :: lines)) with (l ++ nl :: join_lines (l' :: lines)).
    cbn [map concat] in *. rewrite IH by done. by rewrite <- !app_assoc.
Qed.

Lemma join_lines_last (lines : list (list ascii)) (l : list ascii) (c : ascii) :
  exists s, join_lines (lines ++ [l ++ [c]]) = s ++ [c].
Proof.
  induction lines as [|l0 lines [s IH]].
  - by exists l.
  - destruct (lines ++ [l ++ [c]]) as [|l1 rest] eqn:E.
    { by apply app_eq_nil in E as [_ E]. }
    cbn [app]. rewrite E.
    change (join_lines (l0 :: l1 :: rest)) with (l0 ++ nl :: join_lines (l1 :: rest)).
    rewrite IH. exists (l0 ++ nl :: s). by rewrite <- app_assoc.
Qed.

Lemma lstrip_blanks (ws s : list ascii) :
  Forall (fun c => is_space c = true) ws -> lstrip (ws ++ s) = lstrip s.
Proof. induction 1 as [|c ws Hc Hws IH]; [done|]. cbn [app lstrip]. by rewrite Hc. Qed.

Lemma lstrip_head (c : ascii) (s : list ascii) : is_space c = false -> lstrip (c :: s) = c :: s.
Proof. intros Hc. simpl. by rewrite Hc. Qed.

(** stripping a text that begins and ends with a character that is not
    blank takes away the blanks around it *)
Lemma strip_blanks (ws1 ws2 s s1 s2 : list ascii) (c1 c2 : ascii) :
  Forall (fun c => is_space c = true) ws1 ->
  Forall (fun c => is_space c = true) ws2 ->
  s = c1 :: s1 -> s = s2 ++ [c2] ->
  is_space c1 = false -> is_space c2 = false ->
  strip (ws1 ++ s ++ ws2) = s.
Proof.
  intros H1 H2 E1 E2 Hc1 Hc2. unfold strip.
  rewrite lstrip_blanks by done.
  assert (lstrip (s ++ ws2) = s ++ ws2) as ->.
  { rewrite E1. cbn [app]. by apply lstrip_head. }
  rewrite rev_app_distr, lstrip_blanks by (by apply Forall_rev).
  assert (lstrip (rev s) = rev s) as ->.
  { rewrite E2, rev_app_distr. cbn [rev app]. by apply lstrip_head. }
  apply rev_involutive.
Qed.

(** *** The album section *)

Section LazyRows.
Context {R : Type}.

Lemma rep_lazy_row (row s : list ascii) (k : list ascii -> option R) :
  Forall (fun c => c <> nl) row ->
  (forall c t, c <> nl -> k (c :: t) = None) ->
  k (nl :: s) = None ->
  rep false 0 any_char (row ++ nl :: s) k = rep false 0 any_char s k.
Proof.
  intros Hrow Hk1 Hk2. induction Hrow as [|c row Hc Hrow IH]; cbn [app rep].
  - by rewrite Hk2.
  - by rewrite (Hk1 c _ Hc).
Qed.

Lemma rep_lazy_rows (rows : list (list ascii)) (s : list ascii)
    (k : list ascii -> option R) (res : R) :
  Forall (fun row => Forall (fun c => c <> nl) row
                     /\ exists row', row = " "%char :: row') rows ->
  (forall c t, c <> nl -> k (c :: t) = None) ->
  (forall c t, c = " "%char \/ c = nl -> k (nl :: c :: t) = None) ->
  k (nl :: s) = Some res ->
  rep false 0 any_char (concat (map (fun row => row ++ [nl]) rows) ++ nl :: s) k
  = Some res.
Proof.
  intros Hrows Hk1 Hk2 Hk. induction Hrows as [|row rows [Hrow _] Hrows IH].
  - cbn [map concat app rep]. by rewrite Hk.
  - cbn [map concat]. rewrite <- !app_assoc. cbn [app].
    rewrite rep_lazy_row; [exact IH | done | done |].
    destruct Hrows as [|row1 rows1 [_ [row' ->]] _].
    + cbn [map concat app]. apply Hk2. by right.
    + cbn [map concat app]. apply Hk2. by left.
Qed.
End LazyRows.

Lemma re_search_here (r : regex) (s : list ascii) (caps : captures) :
  re_match r s = Some caps -> re_search r s = Some caps.
Proof. intros E. destruct s; simpl; by rewrite E. Qed.

(** the album pattern on the printed index: the first group is the lines
    of the albums *)
Lemma re_search_album (rows : list (list ascii)) (rest : list ascii) :
  Forall (fun row => Forall (fun c => c <> nl) row
                     /\ exists row', row = " "%char :: row') rows ->
  exists caps,
    re_search album_re
      (chars "Album Index:" ++ nl :: concat (map (fun row => row ++ [nl]) rows)
         ++ nl :: chars "Total songs:" ++ rest) = Some caps
    /\ group caps 1 = concat (map (fun row => row ++ [nl]) rows).
Proof.
  intros Hrows.
  set (block := concat (map (fun row => row ++ [nl]) rows)).
  exists (<[1%nat := block]> (∅ : captures)). split.
  - apply re_search_here. unfold re_match, album_re, lits.
    rewrite rmatch_lit_chars. cbn [rmatch]. rewrite Ascii.eqb_refl.
    apply rep_lazy_rows; [done | | |].
    + intros c t Hc. apply Ascii.eqb_neq in Hc. rewrite Ascii.eqb_sym in Hc.
      cbn [rmatch]. by rewrite Hc.
    + intros c t [-> | ->]; by vm_compute.
    + cbn -[take length]. f_equal. f_equal.
      apply (take_app_sub block).
  - unfold group, captures. by rewrite lookup_insert_eq.
Qed.

(** *** Reading the lines back *)

Lemma dict_set_new (d : dict) (k : string) (v : Z) :
  k ∉ map fst d -> dict_set d k v = d ++ [(k, v)].
Proof.
  induction d as [|[k0 v0] d IH]; [done|]. cbn [map fst]. rewrite not_elem_of_cons.
  intros [Hne Hd]. cbn [dict_set app].
  apply String.eqb_neq in Hne. rewrite Hne. by rewrite IH.
Qed.

Lemma digit_not_newline (c : ascii) : is_digit c = true -> c <> nl.
Proof. intros Hd ->. by vm_compute in Hd. Qed.

Lemma digit_not_colon (c : ascii) : is_digit c = true -> c <> ":"%char.
Proof. intros Hd ->. by vm_compute in Hd. Qed.

Lemma plain_name_chars (album_name : string) :
  plain_name album_name ->
  match chars album_name with c :: _ => is_space c = false | [] => False end
  /\ Forall (fun c => c <> ":"%char /\ c <> nl) (chars album_name).
Proof.
  intros [H1 H2]. split; [by destruct (chars album_name)|].
  eapply Forall_impl; [exact H2|]. intros c (Hc1 & Hc2 & _). by split.
Qed.

(** a row holds no newline *)
Lemma album_row_no_newline (item : string * Z) :
  plain_name item.1 -> 0 <= item.2 -> Forall (fun c => c <> nl) (album_row item).
Proof.
  intros Hplain Hcount. destruct (plain_name_chars _ Hplain) as [_ Hname].
  destruct (str_of_int_spec _ Hcount) as (_ & Hd & _).
  unfold album_row. apply Forall_app. split.
  { eapply Forall_impl; [exact Hname|]. by intros c [_ Hc]. }
  constructor; [done|]. constructor; [done|]. apply Forall_app. split.
  - eapply Forall_impl; [exact Hd|]. intros c. apply digit_not_newline.
  - by repeat constructor.
Qed.

(** a row read by the pattern of the lines, whatever blanks come first *)
Lemma re_match_row (ws : list ascii) (item : string * Z) :
  Forall (fun c => is_space c = true) ws ->
  plain_name item.1 -> 0 <= item.2 ->
  exists caps,
    re_match line_re (ws ++ album_row item) = Some caps
    /\ text (group caps 1) = item.1 /\ int_of_digits (group caps 2) = item.2.
Proof.
  intros Hws Hname Hcount.
  destruct (plain_name_chars _ Hname) as [Hhead Hchars].
  destruct (str_of_int_spec _ Hcount) as (Hne & Hd & Hv).
  destruct (re_match_line ws (chars item.1) (chars (str_of_int item.2))
              Hws Hhead Hchars Hne Hd) as (caps & Hm & G1 & G2).
  exists caps. split; [exact Hm|]. rewrite G1, G2. split; [apply text_chars | exact Hv].
Qed.

Lemma parse_lines_rows (lines : list (list ascii)) (items : dict) (d : dict) :
  Forall2 (fun l item => exists ws, Forall (fun c => is_space c = true) ws
                                    /\ l = ws ++ album_row item) lines items ->
  Forall (fun item => plain_name item.1 /\ 0 <= item.2) items ->
  NoDup (map fst (d ++ items)) ->
  parse_lines lines d = d ++ items.
Proof.
  unfold parse_lines. intros Hl. revert d.
  induction Hl as [|l [album_name count] lines items (ws & Hws & ->) Hl IH];
    intros d Hitems Hnd.
  - by rewrite app_nil_r.
  - apply Forall_cons in Hitems as [[Hname Hcount] Hitems]. cbn [fold_left].
    destruct (re_match_row ws (album_name, count) Hws Hname Hcount) as (caps & -> & G1 & G2).
    cbn [fst snd] in G1, G2. rewrite G1, G2.
    rewrite dict_set_new.
    2:{ rewrite map_app in Hnd. apply NoDup_app in Hnd as (_ & Hdis & _).
        intros Hin. apply (Hdis album_name Hin). left. }
    rewrite IH; [by rewrite <- app_assoc | done | by rewrite <- app_assoc].
Qed.

(** *** The printed index *)

Lemma chars_album_line (item : string * Z) :
  chars (album_line item) = " "%char :: " "%char :: album_row item.
Proof. unfold album_line, album_row. by rewrite !chars_app. Qed.

(** the text of the index: the heading, the rows, the blank line and the
    total *)
Lemma chars_print_index (albums : dict) (songs : list Song) :
  chars (print_index albums songs)
  = chars "Album Index:" ++ nl ::
      concat (map (fun row => row ++ [nl])
                (map (fun item => " "%char :: " "%char :: album_row item) (sort item_le albums)))
      ++ nl :: chars "Total songs:"
      ++ " "%char :: chars (str_of_int (Z.of_nat (length songs))) ++ [nl].
Proof.
  unfold print_index. rewrite !chars_app, !chars_line, chars_concat, chars_app.
  rewrite !map_map. rewrite <- !app_assoc. f_equal. cbn [app]. f_equal. f_equal.
  f_equal. apply map_ext. intros item. by rewrite chars_line, chars_album_line.
Qed.

Lemma join_lines_blanks (row : list ascii) (rows : list (list ascii)) (ws : list ascii) :
  join_lines ((ws ++ row) :: rows) = ws ++ join_lines (row :: rows).
Proof. destruct rows; simpl; [done | by rewrite <- app_assoc]. Qed.

Lemma join_lines_head (c : ascii) (row : list ascii) (rows : list (list ascii)) :
  exists s, join_lines ((c :: row) :: rows) = c :: s.
Proof. destruct rows; simpl; eauto. Qed.

Lemma list_last_split {A : Type} (l : list A) : l <> [] -> exists init x, l = init ++ [x].
Proof.
  intros Hne. destruct (rev l) as [|x r] eqn:E.
  - apply (f_equal (@rev A)) in E. rewrite rev_involutive in E. done.
  - exists (rev r), x. apply (f_equal (@rev A)) in E. by rewrite rev_involutive in E.
Qed.

(** the album section of a text that has the heading, the rows of the
    items, a blank line and the total *)
Lemma parse_album_rows (items : dict) (rest : list ascii) :
  Forall (fun item => plain_name item.1 /\ 0 <= item.2) items ->
  NoDup (map fst items) ->
  parse_section album_re
    (chars "Album Index:" ++ nl ::
       concat (map (fun row => row ++ [nl])
                 (map (fun item => " "%char :: " "%char :: album_row item) items))
       ++ nl :: chars "Total songs:" ++ rest)
  = items.
Proof.
  intros Hitems Hnd. unfold parse_section.
  set (rows := map (fun item => " "%char :: " "%char :: album_row item) items).
  assert (Forall (fun row => Forall (fun c => c <> nl) row
                             /\ exists row', row = " "%char :: row') rows) as Hrows.
  { unfold rows. apply Forall_fmap. eapply Forall_impl; [exact Hitems|].
    intros item [Hname Hcount]. cbn. split; [|by eexists].
    constructor; [done|]. constructor; [done|]. by apply album_row_no_newline. }
  destruct (re_search_album rows rest Hrows) as (caps & -> & ->).
  destruct items as [|item1 items'].
  { by vm_compute. }
  (* the rows without the blanks before the first *)
  set (lines := album_row item1
                :: map (fun item => " "%char :: " "%char :: album_row item) items').
  assert (concat (map (fun row => row ++ [nl]) rows)
          = [" "%char; " "%char] ++ join_lines lines ++ [nl]) as ->.
  { rewrite concat_join_lines by done. unfold rows, lines. cbn [map].
    change (" "%char :: " "%char :: album_row item1)
      with ([" "%char; " "%char] ++ album_row item1).
    rewrite (join_lines_blanks _ _ [" "%char; " "%char]). by rewrite <- app_assoc. }
  assert (Forall (Forall (fun c => c <> nl)) lines) as Hnl.
  { apply Forall_cons in Hitems as [[Hn1 Hc1] Hitems']. constructor.
    - by apply album_row_no_newline.
    - apply Forall_fmap. eapply Forall_impl; [exact Hitems'|]. intros item [Hn Hc]. cbn.
      constructor; [done|]. constructor; [done|]. by apply album_row_no_newline. }
  assert (exists c1 s1, join_lines lines = c1 :: s1 /\ is_space c1 = false)
    as (c1 & s1 & E1 & Hc1).
  { apply Forall_inv in Hitems as [Hn1 _].
    destruct (plain_name_chars _ Hn1) as [Hhead _]. unfold lines, album_row.
    destruct (chars item1.1) as [|c name]; [done|].
    destruct (join_lines_head c (name ++ ":"%char :: " "%char ::
                                   chars (str_of_int item1.2) ++ chars " songs")
                (map (fun item => " "%char :: " "%char :: album_row item) items'))
      as [s Es].
    exists c, s. split; [exact Es | done]. }
  assert (exists s2, join_lines lines = s2 ++ ["s"%char]) as (s2 & E2).
  { destruct (list_last_split lines) as (init & l & El); [done|].
    assert (exists l', l = l' ++ ["s"%char]) as [l' ->].
    { assert (l ∈ lines) as Hin by (rewrite El; apply elem_of_app; right; left).
      unfold lines in Hin. apply elem_of_cons in Hin as [-> | Hin].
      - unfold album_row. eexists (chars item1.1 ++ _ :: _ :: chars _ ++ chars " song").
        rewrite <- !app_assoc. cbn [app]. by rewrite <- !app_assoc.
      - apply list_elem_of_fmap in Hin as (item & -> & _). unfold album_row.
        eexists (_ :: _ :: chars item.1 ++ _ :: _ :: chars _ ++ chars " song").
        cbn [app]. rewrite <- !app_assoc. cbn [app]. by rewrite <- !app_assoc. }
    rewrite El. apply join_lines_last. }
  rewrite (strip_blanks _ _ _ s1 s2 c1 "s"%char); try done; [|by repeat constructor..].
  rewrite split_join_lines by done.
  apply (parse_lines_rows lines (item1 :: items') []); [|done|done].
  unfold lines. constructor.
  - exists []. by split.
  - apply Forall2_fmap_l, Forall_Forall2_diag, Forall_forall. intros item _.
    exists [" "%char; " "%char]. split; [by repeat constructor | done].
Qed.

(** *** The artist section *)

Lemma rmatch_lit_chars_inv {R : Type} (l : list ascii) (r : regex) (s : list ascii)
    (caps : captures) (k : list ascii -> captures -> option R) (res : R) :
  rmatch (lit_chars l r) s caps k = Some res ->
  exists s', s = l ++ s' /\ rmatch r s' caps k = Some res.
Proof.
  revert s. induction l as [|c l IH]; intros s; cbn [lit_chars app].
  - intros E. by exists s.
  - cbn [rmatch]. destruct s as [|c' s]; [done|].
    destruct (Ascii.eqb c c') eqn:E; [|done]. apply Ascii.eqb_eq in E as <-.
    intros Hm. destruct (IH s Hm) as (s' & -> & Hs'). by exists s'.
Qed.

(** a match of the artist pattern begins with the heading and its newline *)
Lemma re_match_artist_inv (s : list ascii) (caps : captures) :
  re_match artist_re s = Some caps ->
  s !! 12%nat = Some ":"%char /\ s !! 13%nat = Some nl.
Proof.
  unfold re_match, artist_re, lits. intros Hm.
  apply rmatch_lit_chars_inv in Hm as (s' & -> & Hm).
  cbn [rmatch] in Hm. destruct s' as [|c s']; [done|].
  destruct (Ascii.eqb nl c) eqn:E; [|done]. apply Ascii.eqb_eq in E as <-. done.
Qed.

Lemma colon_spaced_nil : colon_spaced [].
Proof. intros i Hi. done. Qed.

Lemma colon_spaced_tail (c : ascii) (s : list ascii) : colon_spaced (c :: s) -> colon_spaced s.
Proof. intros Hs i Hi. exact (Hs (S i) Hi). Qed.

Lemma colon_spaced_app (x s : list ascii) :
  Forall (fun c => c <> ":"%char) x -> colon_spaced s -> colon_spaced (x ++ s).
Proof.
  intros Hx Hs. induction Hx as [|c x Hc Hx IH]; [done|].
  intros [|i] Hi; simpl in Hi.
  - by injection Hi.
  - destruct i as [|i]; [|exact (IH (S i) Hi)].
    destruct x as [|c' x]; [exact (Hs 0%nat Hi)|].
    apply Forall_inv in Hx. simpl in Hi. by injection Hi.
Qed.

Lemma colon_spaced_colon (s : list ascii) :
  colon_spaced s -> colon_spaced (":"%char :: " "%char :: s).
Proof.
  intros Hs [|[|i]] Hi; [done | done |]. exact (Hs i Hi).
Qed.

Lemma re_search_artist_none (s : list ascii) :
  colon_spaced s -> re_search artist_re s = None.
Proof.
  induction s as [|c s IH]; intros Hs.
  - by vm_compute.
  - cbn [re_search]. destruct (re_match artist_re (c :: s)) as [caps|] eqn:E.
    + apply re_match_artist_inv in E as [E1 E2]. apply Hs in E1.
      rewrite E2 in E1. by vm_compute in E1.
    + apply IH. by eapply colon_spaced_tail.
Qed.

Lemma album_row_colon_spaced (item : string * Z) (s : list ascii) :
  plain_name item.1 -> 0 <= item.2 -> colon_spaced s ->
  colon_spaced (album_row item ++ s).
Proof.
  intros Hplain Hcount Hs. destruct (plain_name_chars _ Hplain) as [_ Hname].
  destruct (str_of_int_spec _ Hcount) as (_ & Hd & _).
  unfold album_row. rewrite <- app_assoc. apply colon_spaced_app.
  { eapply Forall_impl; [exact Hname|]. by intros c [Hc _]. }
  cbn [app]. apply colon_spaced_colon. rewrite <- app_assoc. apply colon_spaced_app.
  { eapply Forall_impl; [exact Hd|]. intros c. apply digit_not_colon. }
  apply colon_spaced_app; [by repeat constructor | done].
Qed.

(** the artist pattern finds nothing in the printed index *)
Lemma parse_artist_rows (items : dict) (total : Z) :
  Forall (fun item => plain_name item.1 /\ 0 <= item.2) items -> 0 <= total ->
  parse_section artist_re
    (chars "Album Index:" ++ nl ::
       concat (map (fun row => row ++ [nl])
                 (map (fun item => " "%char :: " "%char :: album_row item) items))
       ++ nl :: chars "Total songs:" ++ " "%char :: chars (str_of_int total) ++ [nl])
  = [].
Proof.
  intros Hitems Htotal. unfold parse_section.
  set (body := concat _ ++ _).
  assert (colon_spaced body) as Hbody.
  { unfold body. induction Hitems as [|item items [Hname Hcount] Hitems IH].
    - cbn [map concat app].
      apply (colon_spaced_app (nl :: chars "Total songs")); [by repeat constructor|].
      apply colon_spaced_colon.
      destruct (str_of_int_spec _ Htotal) as (_ & Hd & _).
      apply colon_spaced_app.
      { eapply Forall_impl; [exact Hd|]. intros c. apply digit_not_colon. }
      apply (colon_spaced_app [nl]); [by repeat constructor | apply colon_spaced_nil].
    - cbn [map concat]. rewrite <- !app_assoc.
      apply (colon_spaced_app [" "%char; " "%char]); [by repeat constructor|].
      apply album_row_colon_spaced; [done | done |].
      apply (colon_spaced_app [nl]); [by repeat constructor | exact IH]. }
  assert (re_search artist_re (chars "Album Index:" ++ nl :: body)
          = re_search artist_re body) as ->.
  { generalize body. intros s. reflexivity. }
  by rewrite re_search_artist_none.
Qed.

Lemma print_index_parsed (albums : dict) (songs : list Song) :
  NoDup (map fst albums) ->
  Forall (fun item => plain_name item.1 /\ 0 <= item.2) albums ->
  parse_index_file (Some (print_index albums songs)) = (sort item_le albums, []).
Proof.
  intros Hnd Hitems.
  pose proof (sort_perm item_le albums) as Hp.
  assert (NoDup (map fst (sort item_le albums))) as Hnd'.
  { by rewrite Hp. }
  assert (Forall (fun item => plain_name item.1 /\ 0 <= item.2) (sort item_le albums))
    as Hitems'.
  { by rewrite Hp. }
  unfold parse_index_file. rewrite chars_print_index. f_equal.
  - by apply parse_album_rows.
  - apply parse_artist_rows; [done | lia].
Qed.

(** X15: the painter reads back the index the crawler prints: when the
    album names are distinct, not empty, hold no colon and no newline and
    do not begin with a blank, and no count is negative, parsing the text
    printed for an index yields the albums of the index with their counts,
    in the sorted order in which they were printed, and no artist. *)
Theorem print_index_round_trip (albums : dict) (songs : list Song) :
  NoDup (map fst albums) ->
  Forall (fun item => plain_name item.1 /\ 0 <= item.2) albums ->
  parse_index_file (Some (print_index albums songs)) = (sort item_le albums, []).
Proof. apply print_index_parsed. Qed.

Lemma print_index_round_trip_witness :
  parse_index_file
    (Some (print_index [("Thriller"%string, 1); ("Abbey Road"%string, 2)] []))
  = ([("Abbey Road"%string, 2); ("Thriller"%string, 1)], []).
Proof.
  apply (print_index_round_trip [("Thriller"%string, 1); ("Abbey Road"%string, 2)] []).
  - repeat constructor; set_solver.
  - repeat constructor; try done; intros E; by vm_compute in E.
Defined.

(** ** From the crawl to the canvas *)

Lemma omap_all_Some {A B : Type} (f : A -> option B) (g : A -> B) (l : list A) :
  Forall (fun a => f a = Some (g a)) l -> omap f l = map g l.
Proof.
  induction 1 as [|a l Ha Hl IH]; [done|]. rewrite omap_cons, Ha. cbn [map]. by rewrite IH.
Qed.

(** X16: the two scripts run one after the other: when every album name
    of a crawl is plain, every cover has been downloaded and every cover
    file opens, the painter, given the index the crawler printed and the
    files it wrote, finds all the albums and saves a canvas on which the
    covers of the albums of the crawl are pasted, one image for each
    album. *)
Theorem crawl_then_paint `{Double} `{Spotify}
    (playlist_ids : list string) (fs : gmap string string) (opens : string -> Z -> bool) :
  let st := crawl_playlists playlist_ids "covers" fs in
  songs_data st <> [] ->
  Forall plain_name (map fst (album_index st)) ->
  Forall (fun song => is_Some (song_cover song)) (songs_data st) ->
  (forall path size, opens path size = true) ->
  exists messages canvas,
    @cluster_painter_main _ (files_env (files st) opens)
      (Some (print_index (album_index st) (songs_data st)))
    = (FoundAlbums (length (album_index st)) :: map Build messages, Some canvas)
    /\ map (fun t => i_path (pasted_image t)) (pasted canvas)
       ≡ₚ map (fun item => path_join "covers" (sanitize item.1 +:+ ".jpg")) (album_index st).
Proof.
  intros st Hsongs Hplain Hcovers Hopens.
  destruct (crawl_playlists_invariant playlist_ids "covers" fs)
    as (Hnd & Hget & Hkeys & Htot & _ & Hcov).
  fold st in Hnd, Hget, Hkeys, Htot, Hcov.
  set (E := files_env (files st) opens).
  (* the index is read back *)
  assert (Forall (fun item : string * Z => plain_name item.1 /\ 0 <= item.2) (album_index st))
    as Hitems.
  { apply Forall_forall. intros [album_name count] Hin. cbn [fst snd]. split.
    - rewrite Forall_forall in Hplain. apply Hplain.
      by apply (list_elem_of_fmap_2 fst) in Hin.
    - rewrite <- (dict_get_elem _ _ _ Hnd Hin), Hget. lia. }
  unfold cluster_painter_main.
  rewrite (print_index_parsed _ _ Hnd Hitems).
  set (albums := sort item_le (album_index st)).
  assert (albums ≡ₚ album_index st) as Hp by apply sort_perm.
  (* every album resolves *)
  set (min_count := min_of (map snd albums)). set (max_count := max_of (map snd albums)).
  set (image := fun entry : string * Z =>
         {| i_path := path_join "covers" (sanitize entry.1 +:+ ".jpg");
            i_width := scale_dimension entry.2 min_count max_count 50 300;
            i_height := scale_dimension entry.2 min_count max_count 50 300 |}).
  assert (Forall (fun entry => @resolve _ E albums "covers" entry = Some (image entry)) albums)
    as Hres.
  { apply Forall_forall. intros [album_name count] Hin.
    assert (album_name ∈ map song_album (songs_data st)) as Hs.
    { apply Hkeys. rewrite <- Hp. by apply (list_elem_of_fmap_2 fst) in Hin. }
    apply list_elem_of_fmap in Hs as (song & -> & Hs).
    rewrite Forall_forall in Hcovers. destruct (Hcovers song Hs) as [path Hpath].
    destruct (Hcov song path Hs Hpath) as [-> Hfile].
    unfold resolve, cover_of, get_cover_path. cbn [fst snd path_exists E files_env].
    rewrite bool_decide_eq_true_2 by done. cbn [mbind option_bind].
    unfold image_of. cbn [c_path c_size open_image E files_env]. by rewrite Hopens. }
  assert (@resolved_images _ E albums "covers" = map image albums) as Hall.
  { unfold resolved_images. by apply omap_all_Some. }
  assert (albums <> []) as Hne.
  { intros E0. rewrite E0 in Hp. apply Permutation_nil in Hp.
    assert (exists song, song ∈ songs_data st) as [song Hs].
    { destruct (songs_data st) as [|song songs]; [done|]. exists song. left. }
    assert (song_album song ∈ map fst (album_index st)) as Hin.
    { apply Hkeys. by apply (list_elem_of_fmap_2 song_album) in Hs. }
    rewrite Hp in Hin. by apply elem_of_nil in Hin. }
  assert (@loaded_images _ E albums "covers" <> []) as Hl.
  { rewrite loaded_images_nil, Hall. intros E0. by apply map_eq_nil in E0. }
  destruct albums as [|entry albums'] eqn:Ea; [done|]. rewrite <- Ea in *.
  pose proof (build_cluster_saves albums "covers" "cluster.png" Hl) as Hb.
  destruct (build_cluster albums "covers" "cluster.png") as [messages canvas].
  cbn [snd] in Hb. subst canvas.
  eexists messages, _. split.
  { cbn [app]. do 2 f_equal. rewrite Ea, <- Ea. by rewrite Hp. }
  rewrite <- (map_map pasted_image i_path), pasted_images_loaded, loaded_images_perm, Hall.
  rewrite map_map. cbn [i_path image]. by rewrite Hp.
Qed.

Lemma crawl_then_paint_witness :
  exists messages canvas,
    @cluster_painter_main Exact
      (files_env (files (@crawl_playlists full_service ["p1"%string] "covers" ∅))
         (fun _ _ => true))
      (Some (print_index
               (album_index (@crawl_playlists full_service ["p1"%string] "covers" ∅))
               (songs_data (@crawl_playlists full_service ["p1"%string] "covers" ∅))))
    = (FoundAlbums
         (length (album_index (@crawl_playlists full_service ["p1"%string] "covers" ∅)))
         :: map Build messages, Some canvas)
    /\ map (fun t => i_path (pasted_image t)) (pasted canvas)
       ≡ₚ map (fun item => path_join "covers" (sanitize item.1 +:+ ".jpg"))
            (album_index (@crawl_playlists full_service ["p1"%string] "covers" ∅)).
Proof.
  apply (@crawl_then_paint Exact full_service ["p1"%string] ∅ (fun _ _ => true)).
  - by vm_compute.
  - vm_compute. repeat constructor; by intros E.
  - vm_compute. repeat econstructor.
  - reflexivity.
Defined.

(** ** The rounding of binary64 is sound *)

Lemma round_half_even_comp (a b : Q) : (a == b)%Q -> round_half_even a = round_half_even b.
Proof.
  intros E. unfold round_half_even. rewrite (Qfloor_comp _ _ E).
  assert (a - inject_Z (Qfloor b) == b - inject_Z (Qfloor b))%Q as E' by (rewrite E; reflexivity).
  rewrite (Qcompare_comp _ _ E' _ _ (Qeq_refl (1 # 2))). reflexivity.
Qed.

Lemma round_half_even_Z (z : Z) : round_half_even (inject_Z z) = z.
Proof.
  unfold round_half_even. rewrite Qfloor_Z.
  destruct (Qcompare_spec (inject_Z z - inject_Z z) (1 # 2)) as [E | L | G];
    [exfalso; lra | reflexivity | exfalso; lra].
Qed.

Lemma round_half_even_bounds (a : Q) :
  Qfloor a <= round_half_even a <= Qfloor a + 1.
Proof.
  unfold round_half_even.
  destruct (a - inject_Z (Qfloor a) ?= 1 # 2)%Q; [destruct (Z.even _) | |]; lia.
Qed.

Lemma round_half_even_mono (a b : Q) : (a <= b)%Q -> round_half_even a <= round_half_even b.
Proof.
  intros L. pose proof (Qfloor_resp_le _ _ L) as Hf.
  pose proof (round_half_even_bounds a) as Ha.
  pose proof (round_half_even_bounds b) as Hb.
  destruct (Z.eq_dec (Qfloor a) (Qfloor b)) as [E | N]; [|lia].
  unfold round_half_even in *. rewrite E in *.
  destruct (Qcompare_spec (a - inject_Z (Qfloor b)) (1 # 2)) as [Ea | La | Ga];
    destruct (Qcompare_spec (b - inject_Z (Qfloor b)) (1 # 2)) as [Eb | Lb | Gb];
    try lia; try (destruct (Z.even (Qfloor b)); lia); exfalso; lra.
Qed.

Lemma round_half_even_ge (a : Q) (k : Z) : (inject_Z k <= a)%Q -> k <= round_half_even a.
Proof. intros L. rewrite <- (round_half_even_Z k). now apply round_half_even_mono. Qed.

Lemma round_half_even_le (a : Q) (k : Z) : (a <= inject_Z k)%Q -> round_half_even a <= k.
Proof. intros L. rewrite <- (round_half_even_Z k). now apply round_half_even_mono. Qed.

Lemma pow2_pos (e : Z) : 0 <= e -> 0 < 2 ^ e.
Proof. intros He. apply Z.pow_pos_nonneg; lia. Qed.

Lemma inject_pow2_pos (e : Z) : 0 <= e -> (0 < inject_Z (2 ^ e))%Q.
Proof. intros He. change 0%Q with (inject_Z 0). rewrite <- Zlt_Qlt. now apply pow2_pos. Qed.

Lemma last_place_nonneg (s : Q) : 0 <= last_place s.
Proof. unfold last_place. lia. Qed.

Lemma last_place_pow_pos (s : Q) : 0 < 2 ^ last_place s.
Proof. apply pow2_pos, last_place_nonneg. Qed.

Lemma last_place_inject_pos (s : Q) : (0 < inject_Z (2 ^ last_place s))%Q.
Proof. apply inject_pow2_pos, last_place_nonneg. Qed.

Lemma last_place_mono (s t : Q) : (s <= t)%Q -> last_place s <= last_place t.
Proof.
  intros L. unfold last_place.
  pose proof (Z.log2_le_mono _ _ (Qfloor_resp_le _ _ L)). lia.
Qed.

Lemma round_units_comp (s t : Q) : (s == t)%Q -> round_units s = round_units t.
Proof.
  intros E. unfold round_units, last_place. rewrite (Qfloor_comp _ _ E).
  f_equal. apply round_half_even_comp. rewrite E. reflexivity.
Qed.

Lemma round_units_nonneg (s : Q) : (0 <= s)%Q -> 0 <= round_units s.
Proof.
  intros Hs. unfold round_units.
  apply Z.mul_nonneg_nonneg; [|pose proof (last_place_pow_pos s); lia].
  apply round_half_even_ge. apply Qle_shift_div_l; [apply last_place_inject_pos|].
  rewrite Qmult_0_l. exact Hs.
Qed.

Lemma round_units_lower (t : Q) :
  0 < last_place t -> 2 ^ (last_place t + 52) <= round_units t.
Proof.
  intros He. unfold round_units. set (e := last_place t) in *.
  assert (e = Z.log2 (Qfloor t) - 52) as Ee by (unfold e, last_place in *; lia).
  assert (0 < Qfloor t) as Hf.
  { destruct (Z.lt_trichotomy 0 (Qfloor t)) as [Hp | [Hz | Hn]]; [exact Hp | |].
    - rewrite <- Hz in Ee. simpl in Ee. lia.
    - rewrite Z.log2_nonpos in Ee by lia. lia. }
  pose proof (Z.log2_spec _ Hf) as [Hlo _].
  replace (Z.log2 (Qfloor t)) with (e + 52) in Hlo by lia.
  rewrite Z.pow_add_r by lia. rewrite Z.mul_comm.
  apply Z.mul_le_mono_nonneg_r; [pose proof (pow2_pos e ltac:(lia)); lia|].
  apply round_half_even_ge. apply Qle_shift_div_l; [apply inject_pow2_pos; lia|].
  rewrite <- inject_Z_mult. rewrite <- Z.pow_add_r by lia. rewrite Z.add_comm.
  eapply Qle_trans; [|apply Qfloor_le]. rewrite <- Zle_Qle. exact Hlo.
Qed.

Lemma round_units_upper (s : Q) :
  (0 <= s)%Q -> round_units s <= 2 ^ (last_place s + 53).
Proof.
  intros Hs. unfold round_units. set (e := last_place s) in *.
  assert (0 <= e) as He by apply last_place_nonneg.
  assert (Z.log2 (Qfloor s) - 52 <= e) as Ee by (unfold e, last_place; lia).
  assert (0 <= Qfloor s) as Hf.
  { rewrite <- (Qfloor_Z 0). apply Qfloor_resp_le. exact Hs. }
  assert (Qfloor s + 1 <= 2 ^ (e + 53)) as Hup.
  { destruct (Z.eq_dec (Qfloor s) 0) as [Hz | Hnz].
    - rewrite Hz. pose proof (pow2_pos (e + 53) ltac:(lia)). lia.
    - pose proof (Z.log2_spec (Qfloor s) ltac:(lia)) as [_ Hhi].
      assert (2 ^ Z.succ (Z.log2 (Qfloor s)) <= 2 ^ (e + 53)).
      { apply Z.pow_le_mono_r; lia. }
      lia. }
  rewrite Z.pow_add_r by lia. rewrite (Z.mul_comm (2 ^ e) (2 ^ 53)).
  apply Z.mul_le_mono_nonneg_r; [pose proof (pow2_pos e He); lia|].
  apply round_half_even_le. apply Qle_shift_div_r; [apply inject_pow2_pos, He|].
  rewrite <- inject_Z_mult. rewrite <- Z.pow_add_r by lia. rewrite Z.add_comm.
  eapply Qle_trans; [apply Qlt_le_weak, Qlt_floor|]. rewrite <- Zle_Qle. exact Hup.
Qed.

Lemma round_units_mono (s t : Q) :
  (0 <= s)%Q -> (s <= t)%Q -> round_units s <= round_units t.
Proof.
  intros Hs L. pose proof (last_place_mono s t L) as He.
  destruct (Z.eq_dec (last_place s) (last_place t)) as [E | N].
  - unfold round_units. rewrite E.
    apply Z.mul_le_mono_nonneg_r; [pose proof (last_place_pow_pos t); lia|].
    apply round_half_even_mono. apply Qmult_le_compat_r; [exact L|].
    apply Qlt_le_weak, Qinv_lt_0_compat, last_place_inject_pos.
  - pose proof (round_units_upper s Hs) as Hu.
    pose proof (round_units_lower t ltac:(pose proof (last_place_nonneg s); lia)) as Hl.
    assert (2 ^ (last_place s + 53) <= 2 ^ (last_place t + 52)).
    { apply Z.pow_le_mono_r; lia. }
    lia.
Qed.

(** multiples of a power of two with at most 53 bits in front are left
    alone *)
Lemma round_units_exact (a k : Z) :
  0 <= a <= 2 ^ 53 -> 0 <= k -> round_units (inject_Z (a * 2 ^ k)) = a * 2 ^ k.
Proof.
  intros Ha Hk. unfold round_units. set (m := a * 2 ^ k).
  set (e := last_place (inject_Z m)).
  assert (0 <= e) as He by apply last_place_nonneg.
  assert (exists c, m = c * 2 ^ e) as [c Hc].
  { destruct (Z.eq_dec a 0) as [-> | Hnz].
    - exists 0. unfold m. lia.
    - assert (Z.log2 m = Z.log2 a + k) as Hlog.
      { unfold m. rewrite Z.log2_mul_pow2 by lia. lia. }
      assert (e = Z.max 0 (Z.log2 a + k - 52)) as Ee.
      { unfold e, last_place. rewrite Qfloor_Z, Hlog. reflexivity. }
      assert (Z.log2 a <= 53) as Hl53.
      { pose proof (Z.log2_le_mono a (2 ^ 53) ltac:(lia)) as Hm.
        rewrite Z.log2_pow2 in Hm by lia. exact Hm. }
      destruct (Z_le_gt_dec e k) as [Hek | Hek].
      + exists (a * 2 ^ (k - e)). unfold m.
        rewrite <- Z.mul_assoc, <- Z.pow_add_r by lia. do 2 f_equal. lia.
      + assert (Z.log2 a = 53) as H53 by lia.
        assert (a = 2 ^ 53) as ->.
        { pose proof (Z.log2_spec a ltac:(lia)) as [Hlo _]. rewrite H53 in Hlo. lia. }
        assert (e = k + 1) as -> by lia.
        exists (2 ^ 52). unfold m. rewrite <- !Z.pow_add_r by lia. f_equal. lia. }
  rewrite (round_half_even_comp _ (inject_Z c)).
  - rewrite round_half_even_Z. lia.
  - rewrite Hc, inject_Z_mult. field.
    intros E. pose proof (inject_pow2_pos e He) as Hp. rewrite E in Hp. lra.
Qed.


Lemma units_pos : (0 < units)%Q.
Proof. apply inject_pow2_pos. lia. Qed.

Lemma round_double_nonneg (q : Q) :
  (0 <= q)%Q -> (round_double q == inject_Z (round_units (q * units)) / units)%Q.
Proof.
  intros Hq. unfold round_double. apply Qle_bool_iff in Hq. rewrite Hq. reflexivity.
Qed.

Lemma round_double_neg (q : Q) :
  (q < 0)%Q -> (round_double q == - (inject_Z (round_units (- q * units)) / units))%Q.
Proof.
  intros Hq. unfold round_double.
  destruct (Qle_bool 0 q) eqn:E; [|reflexivity].
  apply Qle_bool_iff in E. exfalso. lra.
Qed.

Lemma units_div_mono (a b : Z) : a <= b -> (inject_Z a / units <= inject_Z b / units)%Q.
Proof.
  intros L. apply Qmult_le_compat_r; [rewrite <- Zle_Qle; exact L|].
  apply Qlt_le_weak, Qinv_lt_0_compat, units_pos.
Qed.

Lemma units_div_nonneg (a : Z) : 0 <= a -> (0 <= inject_Z a / units)%Q.
Proof.
  intros L. apply Qle_shift_div_l; [apply units_pos|].
  rewrite Qmult_0_l. change 0%Q with (inject_Z 0). rewrite <- Zle_Qle. exact L.
Qed.

Lemma round_double_mono (a b : Q) : (a <= b)%Q -> (round_double a <= round_double b)%Q.
Proof.
  intros L. pose proof units_pos as Hu.
  destruct (Qlt_le_dec a 0) as [Ha | Ha]; destruct (Qlt_le_dec b 0) as [Hb | Hb].
  - rewrite (round_double_neg a Ha), (round_double_neg b Hb).
    apply Qopp_le_compat. apply units_div_mono. apply round_units_mono.
    + apply Qmult_le_0_compat; lra.
    + apply Qmult_le_compat_r; lra.
  - rewrite (round_double_neg a Ha), (round_double_nonneg b Hb).
    assert (0 <= inject_Z (round_units (- a * units)) / units)%Q.
    { apply units_div_nonneg. apply round_units_nonneg. apply Qmult_le_0_compat; lra. }
    assert (0 <= inject_Z (round_units (b * units)) / units)%Q.
    { apply units_div_nonneg. apply round_units_nonneg. apply Qmult_le_0_compat; lra. }
    lra.
  - exfalso. lra.
  - rewrite (round_double_nonneg a Ha), (round_double_nonneg b Hb).
    apply units_div_mono. apply round_units_mono.
    + apply Qmult_le_0_compat; lra.
    + apply Qmult_le_compat_r; lra.
Qed.

Lemma round_double_dyadic_nonneg (a k : Z) (q : Q) :
  0 <= a <= 2 ^ 53 -> 0 <= k ->
  (q * units == inject_Z (a * 2 ^ k))%Q -> (round_double q == q)%Q.
Proof.
  intros Ha Hk E. pose proof units_pos as Hu.
  assert (0 <= q)%Q as Hq.
  { assert (0 <= q * units)%Q as Hqu.
    { rewrite E. change 0%Q with (inject_Z 0). rewrite <- Zle_Qle.
      pose proof (pow2_pos k Hk). nia. }
    destruct (Qlt_le_dec q 0) as [Hn | Hp]; [|exact Hp].
    exfalso. assert (q * units < 0)%Q; [|lra].
    setoid_replace 0%Q with (0 * units)%Q using relation Qeq by ring. apply Qmult_lt_compat_r; lra. }
  rewrite (round_double_nonneg q Hq), (round_units_comp _ _ E), (round_units_exact a k Ha Hk).
  rewrite <- E. field. lra.
Qed.

Lemma round_double_dyadic (a k : Z) (q : Q) :
  Z.abs a <= 2 ^ 53 -> 0 <= k ->
  (q * units == inject_Z (a * 2 ^ k))%Q -> (round_double q == q)%Q.
Proof.
  intros Ha Hk E. pose proof units_pos as Hu.
  destruct (Z_le_gt_dec 0 a) as [Hp | Hn].
  - apply (round_double_dyadic_nonneg a k); [lia | lia | exact E].
  - assert (q < 0)%Q as Hq.
    { destruct (Qlt_le_dec q 0) as [Hlt | Hge]; [exact Hlt|]. exfalso.
      assert (0 <= q * units)%Q by (apply Qmult_le_0_compat; lra).
      assert (inject_Z (a * 2 ^ k) < 0)%Q; [|lra].
      change 0%Q with (inject_Z 0). rewrite <- Zlt_Qlt. pose proof (pow2_pos k Hk). nia. }
    rewrite (round_double_neg q Hq).
    assert (- q * units == inject_Z ((- a) * 2 ^ k))%Q as E'.
    { rewrite Z.mul_opp_l, inject_Z_opp, <- E. ring. }
    rewrite (round_units_comp _ _ E'), (round_units_exact (- a) k ltac:(lia) Hk).
    rewrite <- E'. field. lra.
Qed.

Lemma round_double_exact (z : Z) :
  Z.abs z <= 2 ^ 53 -> (round_double (inject_Z z) == inject_Z z)%Q.
Proof.
  intros Hz. apply (round_double_dyadic z 1074); [exact Hz | lia |].
  unfold units. rewrite <- inject_Z_mult. reflexivity.
Qed.

Lemma round_double_half (z : Z) :
  Z.abs z <= 2 ^ 53 ->
  (round_double (inject_Z z / inject_Z 2) == inject_Z z / inject_Z 2)%Q.
Proof.
  intros Hz. apply (round_double_dyadic z 1073); [exact Hz | lia |].
  unfold units. replace (2 ^ 1074) with (2 * 2 ^ 1073) by (rewrite <- Z.pow_succ_r; [reflexivity | lia]).
  rewrite !inject_Z_mult. field.
Qed.

Lemma binary64_rnd_sound (sum : list Q -> Q) (sqrt cos sin : Q -> Q) :
  @rnd_sound (binary64 sum sqrt cos sin).
Proof.
  split; cbn [rnd binary64].
  - apply round_double_mono.
  - apply round_double_exact.
  - apply round_double_half.
Qed.

(** the rounding is not the identity: 0.29 * 100 falls short of 29 *)
Example scale_dimension_binary64_truncates :
  @scale_dimension (binary64 (@fsum Exact) exact_sqrt exact_cos exact_sin) 29 0 100 0 100 = 28
  /\ @scale_dimension Exact 29 0 100 0 100 = 29.
Proof. split; by vm_compute. Qed.

Section Binary64Scale.
Context `{Double} (Hs : rnd_sound).

Lemma scale_dimension_ends (min_count max_count : Z) :
  min_count < max_count ->
  scale_dimension min_count min_count max_count 50 300 = 50
  /\ scale_dimension max_count min_count max_count 50 300 = 300.
Proof.
  intros Hlt. assert (min_count <> max_count) as Hne by lia.
  rewrite !(scale_dimension_scaled _ _ _ _ _ Hne).
  assert (Z.abs 50 <= 2 ^ 53) as B1 by (by vm_compute).
  assert (Z.abs 300 <= 2 ^ 53) as B2 by (by vm_compute).
  assert (Z.abs (300 - 50) <= 2 ^ 53) as B3 by (by vm_compute).
  split.
  - rewrite (trunc_comp _ _ (scaled_min Hs _ _ _ _ B1)). apply trunc_inject.
  - rewrite (trunc_comp _ _ (scaled_max Hs _ _ _ _ Hlt B1 B2 B3)). apply trunc_inject.
Qed.

Lemma scale_dimension_grows (c1 c2 min_count max_count : Z) :
  min_count <= max_count -> c1 <= c2 ->
  scale_dimension c1 min_count max_count 50 300
  <= scale_dimension c2 min_count max_count 50 300.
Proof.
  intros Hle Hc. destruct (Z.eq_dec min_count max_count) as [-> | Hne].
  - unfold scale_dimension. by rewrite Z.eqb_refl.
  - rewrite !(scale_dimension_scaled _ _ _ _ _ Hne). apply trunc_mono.
    apply (scaled_mono Hs); [lia | lia | by vm_compute | done].
Qed.
End Binary64Scale.

(** X17: with the arithmetic of binary64 (every operation rounded to
    nearest, ties to even, with gradual underflow), the rounding is
    monotone and exact on the integers and half-integers of up to 2^53, so
    that nothing is assumed of the floats: for the sizes 50 and 300 of
    [build_cluster] and any counts with [min_count <= max_count],
    [scale_dimension] never decreases as the count grows from one bound
    to the other, stays within 50 and 300 for a count between the bounds, and returns 50 and 300 at
    the bounds when they differ. *)
Theorem scale_dimension_binary64 (sum : list Q -> Q) (sqrt cos sin : Q -> Q)
    (min_count max_count : Z) :
  min_count <= max_count ->
  (forall c1 c2, min_count <= c1 -> c1 <= c2 -> c2 <= max_count ->
     @scale_dimension (binary64 sum sqrt cos sin) c1 min_count max_count 50 300
     <= @scale_dimension (binary64 sum sqrt cos sin) c2 min_count max_count 50 300)
  /\ (forall count, min_count <= count <= max_count ->
        50 <= @scale_dimension (binary64 sum sqrt cos sin) count min_count max_count 50 300
           <= 300)
  /\ (min_count < max_count ->
        @scale_dimension (binary64 sum sqrt cos sin) min_count min_count max_count 50 300 = 50
        /\ @scale_dimension (binary64 sum sqrt cos sin) max_count min_count max_count 50 300
           = 300).
Proof.
  intros Hle. pose proof (binary64_rnd_sound sum sqrt cos sin) as Hs.
  repeat apply conj.
  - intros c1 c2 _ Hc _. by apply (scale_dimension_grows Hs).
  - intros count Hc. by apply (scale_dimension_range Hs).
  - intros Hlt. by apply (scale_dimension_ends Hs).
Qed.

Lemma scale_dimension_binary64_witness :
  50 <= @scale_dimension (binary64 (@fsum Exact) exact_sqrt exact_cos exact_sin) 5 1 10 50 300
     <= 300.
Proof.
  apply (scale_dimension_binary64 (@fsum Exact) exact_sqrt exact_cos exact_sin 1 10); lia.
Defined.

(** ** The scoring of the candidates *)

(** the inner loop with its [break]: whether a placed rect overlaps, and
    if none does, whether one touches *)
Lemma scan_placed_spec (cx cy iw ih : Z) (placements : list Placement) (touching : bool) :
  any_overlap (cx, cy, iw, ih) placements = false ->
  scan_placed cx cy iw ih placements touching
  = (false, touching || existsb (touches cx cy iw ih) placements).
Proof.
  revert touching. induction placements as [|p rest IH]; intros touching; cbn [scan_placed].
  - intros _. by rewrite orb_false_r.
  - cbn [any_overlap existsb]. intros Hfree. apply orb_false_iff in Hfree as [Hp Hrest].
    rewrite Hp, (IH _ Hrest). cbn [existsb]. by rewrite orb_assoc.
Qed.

Section ScoreProofs.
Context `{Double}.

Lemma score_filter (placements : list Placement) (iw ih : Z) (candidates : list (Z * Z)) :
  score placements iw ih candidates
  = map (scored_entry placements iw ih) (List.filter (free_at placements iw ih) candidates).
Proof.
  induction candidates as [|[cx cy] rest IH]; [done|].
  cbn [score List.filter]. unfold free_at at 1. cbn [fst snd].
  pose proof (scan_placed_overlap cx cy iw ih placements false) as Ho.
  destruct (any_overlap (cx, cy, iw, ih) placements) eqn:Hfree.
  - destruct (scan_placed cx cy iw ih placements false) as [overlap touching].
    cbn [fst] in Ho. subst overlap. exact IH.
  - rewrite (scan_placed_spec _ _ _ _ _ _ Hfree). cbn [negb map]. by rewrite IH.
Qed.
End ScoreProofs.

(** X18: the scoring loop is a filter and a map: the scored list holds, in
    the order of the candidates, one entry for each candidate at which the
    image overlaps no placed rect, and the flag of that entry tells
    whether some placed rect passes the edge test at that position; the
    [break] on the first overlap loses nothing. *)
Theorem score_spec `{Double} (placements : list Placement) (iw ih : Z)
    (candidates : list (Z * Z)) :
  score placements iw ih candidates
  = map (scored_entry placements iw ih) (List.filter (free_at placements iw ih) candidates).
Proof. apply score_filter. Qed.

(** X19: the placer prefers a position that touches: whenever the image
    can be put, free of overlap, at a candidate position at which it
    passes the edge test against some placed rect, the position the placer
    takes passes the edge test against some placed rect as well. *)
Theorem place_image_prefers_touching `{Double}
    (placements : list Placement) (img : Image) (c : Z * Z) :
  c ∈ candidates_of placements (i_width img) (i_height img) ->
  any_overlap (c.1, c.2, i_width img, i_height img) placements = false ->
  existsb (touches c.1 c.2 (i_width img) (i_height img)) placements = true ->
  existsb (touches (p_x (place_image placements img)) (p_y (place_image placements img))
             (i_width img) (i_height img)) placements = true.
Proof.
  intros Hc Hfree Htouch.
  destruct (place_image_chosen placements img) as (s & rest & Es & -> & _ & Hmin).
  cbn [new_placement p_x p_y].
  set (iw := i_width img) in *. set (ih := i_height img) in *.
  set (scored := score placements iw ih (candidates_of placements iw ih)) in *.
  assert (scored_entry placements iw ih c ∈ scored) as Hin.
  { unfold scored. rewrite score_filter. apply list_elem_of_fmap_2.
    apply list_elem_of_In, filter_In. split; [by apply list_elem_of_In|].
    unfold free_at. by rewrite Hfree. }
  assert (s ∈ scored) as Hs.
  { rewrite <- (sort_perm scored_le scored), Es. left. }
  unfold scored in Hs. rewrite score_filter in Hs.
  apply list_elem_of_fmap in Hs as (c' & -> & _).
  cbn [scored_entry fst snd].
  rewrite <- (sort_perm scored_le scored), Es in Hin.
  assert (scored_le (scored_entry placements iw ih c') (scored_entry placements iw ih c) = true)
    as Hle.
  { apply elem_of_cons in Hin as [Heq | Hin].
    - rewrite Heq. destruct (scored_le (scored_entry placements iw ih c')
                  (scored_entry placements iw ih c')) eqn:E; [done|].
      pose proof (scored_le_total _ _ E) as E'. congruence.
    - rewrite Forall_forall in Hmin. by apply Hmin. }
  revert Hle. unfold scored_le, scored_entry, scored_compare. rewrite Htouch.
  by destruct (existsb (touches c'.1 c'.2 iw ih) placements).
Qed.

Lemma place_image_prefers_touching_witness :
  existsb (touches (p_x (@place_image Exact side_by_side small_image))
             (p_y (@place_image Exact side_by_side small_image)) 10 10) side_by_side = true.
Proof.
  apply (@place_image_prefers_touching Exact side_by_side small_image (20, 0)).
  - apply list_elem_of_In. vm_compute. repeat (first [left; reflexivity | right]).
  - by vm_compute.
  - by vm_compute.
Defined.

(** ** The end of the album section *)

Lemma starts_with_app (w s : list ascii) : starts_with w (w ++ s) = true.
Proof. induction w as [|c w IH]; [by destruct s|]. simpl. by rewrite Ascii.eqb_refl. Qed.

Lemma occurs_tail (w : list ascii) (c : ascii) (s : list ascii) :
  occurs w (c :: s) = false -> occurs w s = false.
Proof. cbn [occurs]. intros E. by apply orb_false_iff in E as [_ E]. Qed.

Lemma occurs_suffix (w a s : list ascii) : occurs w s = true -> occurs w (a ++ s) = true.
Proof.
  intros Hs. induction a as [|c a IH]; [done|].
  cbn [app occurs]. rewrite IH. apply orb_true_r.
Qed.

Lemma occurs_start (w s : list ascii) : starts_with w s = true -> occurs w s = true.
Proof. intros E. destruct s; cbn [occurs]; by rewrite E. Qed.

Lemma occurs_here (w a s : list ascii) : occurs w (a ++ w ++ s) = true.
Proof. apply occurs_suffix, occurs_start, starts_with_app. Qed.

(** a lazy repetition that matches has stopped somewhere *)
Lemma rep_lazy_inv {R : Type} (p : ascii -> bool) (s : list ascii)
    (k : list ascii -> option R) (res : R) :
  rep false 0 p s k = Some res -> exists a t, s = a ++ t /\ k t = Some res.
Proof.
  induction s as [|c s IH]; cbn [rep].
  - intros E. by exists [], [].
  - destruct (k (c :: s)) as [res'|] eqn:E.
    + intros [= <-]. by exists [], (c :: s).
    + destruct (p c); [|done]. intros Hm.
      destruct (IH Hm) as (a & t & -> & Ht). by exists (c :: a), t.
Qed.

(** a match of the album pattern holds, after a newline, the heading of
    the artists or the total *)
Lemma re_match_album_inv (s : list ascii) (caps : captures) :
  re_match album_re s = Some caps ->
  occurs (nl :: chars "Artist Index:") s = true
  \/ occurs (nl :: chars "Total songs:") s = true.
Proof.
  unfold re_match, album_re, lits. intros Hm.
  apply rmatch_lit_chars_inv in Hm as (s1 & -> & Hm).
  cbn [rmatch] in Hm. destruct s1 as [|c1 s2]; [done|].
  destruct (Ascii.eqb nl c1) eqn:E1; [|done]. apply Ascii.eqb_eq in E1. subst c1.
  apply rep_lazy_inv in Hm as (a & t & -> & Hm).
  destruct t as [|c2 t]; [done|].
  destruct (Ascii.eqb nl c2) eqn:E2; [|done]. apply Ascii.eqb_eq in E2. subst c2.
  match type of Hm with
  | match ?m with Some res => Some res | None => _ end = _ => destruct m eqn:Ha
  end.
  - left. apply rmatch_lit_chars_inv in Ha as (t1 & -> & Ha).
    cbn [rmatch] in Ha. destruct t1 as [|c3 t1]; [done|].
    destruct (Ascii.eqb ":" c3) eqn:E3; [|done]. apply Ascii.eqb_eq in E3. subst c3.
    apply (occurs_suffix _ (chars "Album Index:" ++ [nl])).
    apply (occurs_here (nl :: chars "Artist Index:") a t1).
  - right. apply rmatch_lit_chars_inv in Hm as (t1 & -> & Hm).
    cbn [rmatch] in Hm. destruct t1 as [|c3 t1]; [done|].
    destruct (Ascii.eqb ":" c3) eqn:E3; [|done]. apply Ascii.eqb_eq in E3. subst c3.
    apply (occurs_suffix _ (chars "Album Index:" ++ [nl])).
    apply (occurs_here (nl :: chars "Total songs:") a t1).
Qed.

Lemma re_search_album_none (s : list ascii) :
  occurs (nl :: chars "Artist Index:") s = false ->
  occurs (nl :: chars "Total songs:") s = false ->
  re_search album_re s = None.
Proof.
  induction s as [|c s IH]; intros Ha Ht.
  - by vm_compute.
  - cbn [re_search]. destruct (re_match album_re (c :: s)) as [caps|] eqn:E.
    + apply re_match_album_inv in E as [E | E]; congruence.
    + apply IH; by eapply occurs_tail.
Qed.

(** X20: no album is read from a text in which neither the heading of the
    artists nor the total follows a newline: the album pattern does not
    accept the end of the text, so that an index that ends with its last
    album line, whatever its albums, is read as empty. *)
Theorem parse_index_file_needs_terminator (content : string) :
  occurs (nl :: chars "Artist Index:") (chars content) = false ->
  occurs (nl :: chars "Total songs:") (chars content) = false ->
  (parse_index_file (Some content)).1 = [].
Proof.
  intros Ha Ht. unfold parse_index_file, parse_section. cbn [fst].
  by rewrite re_search_album_none.
Qed.

Lemma parse_index_file_needs_terminator_witness :
  (parse_index_file
     (Some (line "Album Index:" +:+ line "  Kind of Blue: 5 songs" +:+ "  Blue Train: 3 songs"))).1
  = [].
Proof.
  apply (parse_index_file_needs_terminator
           (line "Album Index:" +:+ line "  Kind of Blue: 5 songs" +:+ "  Blue Train: 3 songs")).
  - by vm_compute.
  - by vm_compute.
Defined.

